(** * gcal-discord-poster: the configuration store and the credential manager

    A shallow embedding of [gcal_discord_poster/utils/conf.py] and the
    properties its specification states about it.

    The Python functions are embedded as computations in a state-and-exception
    monad over a [world]: the heap of dict objects (so that in-place mutation
    and aliasing of the config mapping are visible), the file system, the log
    of network refreshes and the messages sent to the logger. *)

From Stdlib Require Import Ascii String DecimalString.
From Stdlib Require DecimalPos.
From stdpp Require Import gmap strings list fin_maps sorting pretty.

Set Warnings "-register-all".
Set Default Proof Using "Type".

Local Open Scope string_scope.

(** * Python values *)

(** Dict objects live in the heap and are referred to by their address, as
    Python refers to them by identity; the other values the code meets are
    immutable here (the code never updates a list in place). *)
Definition loc := positive.

Inductive val :=
| VNone
| VBool (b : bool)
| VInt (z : Z)
| VStr (s : string)
| VList (vs : list val)
| VDict (l : loc).

Abbreviation dict := (gmap string val).
Abbreviation heap_t := (gmap loc (gmap string val)).

(** * Exceptions *)

Inductive exn :=
| RuntimeError (msg : string)
| AttributeError
| TypeError
| KeyError
| ValueError
| RecursionError
| JSONDecodeError
| NotModelled
| FileExistsError
| FileNotFoundError
| NotADirectoryError
| IsADirectoryError
| TransportError (code : nat).

(** The class test [isinstance(e, RuntimeError)]. *)
Definition is_RuntimeError (e : exn) : bool :=
  match e with RuntimeError _ => true | _ => false end.

(** The class test [isinstance(e, OSError)]: the errors of the os calls. *)
Definition is_OSError (e : exn) : bool :=
  match e with
  | FileExistsError | FileNotFoundError | NotADirectoryError
  | IsADirectoryError => true
  | _ => false
  end.

Inductive result (A : Type) :=
| Ok (a : A)
| Raise (e : exn).
Arguments Ok {A} a.
Arguments Raise {A} e.

(** * The external credential object

    [google.oauth2.credentials.Credentials] belongs to the identity
    provider's client library. The five attributes the configuration code
    reads are fields; every other constructor argument is kept in
    [other_args]. *)
Record Credentials := mkCredentials {
  token : val;
  refresh_token : val;
  token_uri : val;
  client_id : val;
  client_secret : val;
  other_args : gmap string val
}.

(** * The file system *)

Inductive node :=
| Dir
| File (content : option string).

(** * The world the program runs in *)

Record world := World {
  heap : gmap loc (gmap string val);
  fs : gmap (list string) node;
  net : list Credentials;
  logged : list string
}.

Definition set_heap (h : gmap loc (gmap string val)) (w : world) : world :=
  {| heap := h; fs := fs w; net := net w; logged := logged w |}.
Definition set_fs (f : gmap (list string) node) (w : world) : world :=
  {| heap := heap w; fs := f; net := net w; logged := logged w |}.
Definition set_net (n : list Credentials) (w : world) : world :=
  {| heap := heap w; fs := fs w; net := n; logged := logged w |}.
Definition set_logged (l : list string) (w : world) : world :=
  {| heap := heap w; fs := fs w; net := net w; logged := l |}.

(** What the program cannot decide: the user's home directory and working
    directory, the version of the client library (which keyword arguments
    its constructor takes besides the five the code stores), the clock
    (whether a credential has expired), the network (what a refresh
    through the transport gives) and the user (what the interactive
    authorization flow started from a client secrets file ends with). *)
Record environment := Environment {
  HOME : option string;
  cwd : list string;
  more_kwargs : list string;
  clock_expired : Credentials → bool;
  transport : Credentials → result Credentials;
  run_local_server : string → result Credentials
}.

(** * The monad of effects: state passing with exceptions

    A raised exception keeps the state reached so far, as in Python. *)
Definition M (A : Type) : Type := world → result A * world.

Definition ret {A} (a : A) : M A := λ w, (Ok a, w).
Definition raise {A} (e : exn) : M A := λ w, (Raise e, w).
Definition bind {A B} (m : M A) (k : A → M B) : M B :=
  λ w, match m w with
       | (Ok a, w') => k a w'
       | (Raise e, w') => (Raise e, w')
       end.
Definition lift {A} (r : result A) : M A := λ w, (r, w).
Definition get_heap : M (gmap loc (gmap string val)) := λ w, (Ok (heap w), w).

Declare Scope py_scope.
Delimit Scope py_scope with py.
Notation "'let*' x := m 'in' k" := (bind m (λ x, k))
  (at level 10, x name, m at level 100, k at level 200) : py_scope.
Notation "m ';;;' k" := (bind m (λ _, k))
  (at level 100, k at level 200, right associativity) : py_scope.
Local Open Scope py_scope.

(** * Python's primitives on values *)

(** The dict object at an address. *)
Definition deref (h : gmap loc (gmap string val)) (l : loc) : gmap string val :=
  default ∅ (h !! l).

(** Truth value testing: [None], [False], zero and empty containers are
    false. *)
Definition truthy (h : gmap loc (gmap string val)) (v : val) : bool :=
  match v with
  | VNone => false
  | VBool b => b
  | VInt z => negb (z =? 0)%Z
  | VStr s => negb (String.eqb s "")
  | VList vs => match vs with [] => false | _ => true end
  | VDict l => negb (bool_decide (deref h l = ∅))
  end.

(** [{...}]: a dict display allocates a new dict object. *)
Definition alloc (d : gmap string val) : M loc :=
  λ w, let l := fresh (dom (heap w)) in
       (Ok l, set_heap (<[l := d]> (heap w)) w).

(** [x.get]: only dicts have the method. *)
Definition getattr_get (v : val) : M loc :=
  match v with
  | VDict l => ret l
  | _ => raise AttributeError
  end.

(** [d.get(key, default)]. *)
Definition dict_get (l : loc) (key : string) (dflt : val) : M val :=
  let* h := get_heap in
  ret (default dflt (deref h l !! key)).

(** [occurs key s]: [key in s] for two strings. *)
Definition occurs (key s : string) : bool :=
  match String.index 0 key s with Some _ => true | None => false end.

Definition is_str (key : string) (v : val) : bool :=
  match v with VStr s => String.eqb s key | _ => false end.

(** [key in x]: key membership for a dict, substring for a string, element
    for a list; the other values are not containers. *)
Definition contains (key : string) (v : val) : M bool :=
  match v with
  | VDict l =>
      let* h := get_heap in
      ret (bool_decide (is_Some (deref h l !! key)))
  | VStr s => ret (occurs key s)
  | VList vs => ret (existsb (is_str key) vs)
  | _ => raise TypeError
  end.

(** [d[key]] for a dict. *)
Definition getitem (l : loc) (key : string) : M val :=
  let* h := get_heap in
  match deref h l !! key with
  | Some v => ret v
  | None => raise KeyError
  end.

(** [d[key] = v] for a dict object. *)
Definition dict_setitem (l : loc) (key : string) (v : val) : M unit :=
  λ w, (Ok tt, set_heap (<[l := <[key := v]> (deref (heap w) l)]> (heap w)) w).

(** [x[key] = v]: with a string key only a dict supports item
    assignment. *)
Definition setitem (x : val) (key : string) (v : val) : M unit :=
  match x with
  | VDict l => dict_setitem l key v
  | _ => raise TypeError
  end.

(** [**x]: the argument after [**] must be a mapping. *)
Definition unpack (x : val) : M (gmap string val) :=
  match x with
  | VDict l => let* h := get_heap in ret (deref h l)
  | _ => raise TypeError
  end.

(** * The client library: [google.oauth2.credentials] *)
Module google.

(** The keyword parameters of [Credentials.__init__]: [token] has no
    default, the others default to [None]. *)
Definition stored_kwargs : list string :=
  ["token"; "refresh_token"; "token_uri"; "client_id"; "client_secret"].

Definition accepted (env : environment) (k : string) : bool :=
  bool_decide (k ∈ (stored_kwargs ++ more_kwargs env)%list).

Definition arg (kw : gmap string val) (k : string) : val :=
  default VNone (kw !! k).

(** The constructor called with [**kw]: Python binds the keywords to the
    parameters and raises [TypeError] for a missing required parameter or
    an unexpected keyword. *)
Definition init (env : environment) (kw : gmap string val) : result Credentials :=
  match kw !! "token" with
  | None => Raise TypeError
  | Some tok =>
      if forallb (accepted env) (elements (dom kw)) then
        Ok {| token := tok;
              refresh_token := arg kw "refresh_token";
              token_uri := arg kw "token_uri";
              client_id := arg kw "client_id";
              client_secret := arg kw "client_secret";
              other_args := filter (λ kv, kv.1 ∉ stored_kwargs) kw |}
      else Raise TypeError
  end.

(** [credentials.expired]. *)
Definition expired (env : environment) (c : Credentials) : bool :=
  clock_expired env c.

(** [credentials.valid]: the token is present and has not expired. *)
Definition valid (env : environment) (c : Credentials) : bool :=
  match token c with
  | VNone => false
  | _ => negb (expired env c)
  end.

(** [credentials.refresh(Request())]: one request through the transport,
    recorded in the world; it gives the refreshed credential or raises. *)
Definition refresh (env : environment) (c : Credentials) : M Credentials :=
  λ w, (transport env c, set_net (net w ++ [c]) w).

End google.

(** * The standard library: [json] *)
Module json.

(** A JSON document. An object is a finite map: with [sort_keys=True] the
    text written does not depend on the order of insertion, and Python
    compares dicts regardless of order. *)
Inductive value :=
| Null
| Bool (b : bool)
| Int (z : Z)
| Str (s : string)
| Arr (items : list value)
| Obj (members : gmap string value).

(** ** Writing *)

Definition dquote : ascii := "034"%char.
Definition newline : ascii := "010"%char.

Definition hex_digit (n : N) : ascii :=
  match n with
  | 0 => "0" | 1 => "1" | 2 => "2" | 3 => "3" | 4 => "4" | 5 => "5"
  | 6 => "6" | 7 => "7" | 8 => "8" | 9 => "9" | 10 => "a" | 11 => "b"
  | 12 => "c" | 13 => "d" | 14 => "e" | _ => "f"
  end%N%char.

(** One character of a string literal, with [ensure_ascii=True]: the
    quote, the backslash and everything outside [' '..'~'] is escaped. *)
Definition escape_char (c : ascii) : string :=
  let n := N_of_ascii c in
  if (n =? 34)%N then String "\" (String dquote "")
  else if (n =? 92)%N then "\\"
  else if (n =? 8)%N then "\b"
  else if (n =? 12)%N then "\f"
  else if (n =? 10)%N then "\n"
  else if (n =? 13)%N then "\r"
  else if (n =? 9)%N then "\t"
  else if (n <? 32)%N || (126 <? n)%N then
    String "\" (String "u" (String "0" (String "0"
      (String (hex_digit (n / 16)) (String (hex_digit (n mod 16)) "")))))
  else String c "".

Fixpoint escape (s : string) : string :=
  match s with
  | "" => ""
  | String c s' => escape_char c +:+ escape s'
  end.

Definition quote (s : string) : string :=
  String dquote (escape s +:+ String dquote "").

(** An integer in decimal. *)
Definition digits (z : Z) : string :=
  DecimalString.NilZero.string_of_int (Z.to_int z).

Fixpoint spaces (n : nat) : string :=
  match n with 0 => "" | S n' => String " " (spaces n') end.

(** The line break before an item at nesting level [depth], with
    [indent=4]. *)
Definition break (depth : nat) : string :=
  String newline (spaces (4 * depth)).

Fixpoint join (sep : string) (l : list string) : string :=
  match l with
  | [] => ""
  | [x] => x
  | x :: l' => x +:+ sep +:+ join sep l'
  end.

Definition key_le {A} : relation (string * A) := λ a b, String.le a.1 b.1.
#[global] Instance key_le_dec {A} : RelDecision (@key_le A).
Proof. intros a b. unfold key_le. apply _. Defined.

(** [sorted(dct.items())] *)
Definition sorted_items {A} (m : gmap string A) : list (string * A) :=
  merge_sort key_le (map_to_list m).

Definition member (kv : string * string) : string :=
  quote kv.1 +:+ ": " +:+ kv.2.

(** [json.dumps(j, indent=4, sort_keys=True)] at a nesting level. *)
Fixpoint write (depth : nat) (j : value) : string :=
  match j with
  | Null => "null"
  | Bool true => "true"
  | Bool false => "false"
  | Int z => digits z
  | Str s => quote s
  | Arr [] => "[]"
  | Arr items =>
      "[" +:+ break (S depth)
      +:+ join ("," +:+ break (S depth)) (map (write (S depth)) items)
      +:+ break depth +:+ "]"
  | Obj members =>
      if decide (members = ∅) then "{}" else
      "{" +:+ break (S depth)
      +:+ join ("," +:+ break (S depth))
            (map member (sorted_items (write (S depth) <$> members)))
      +:+ break depth +:+ "}"
  end.

Definition dumps (j : value) : string := write 0 j.


(** ** Reading *)

Definition is_ws (c : ascii) : bool :=
  let n := N_of_ascii c in
  (n =? 32)%N || (n =? 9)%N || (n =? 10)%N || (n =? 13)%N.

Fixpoint skip_ws (s : string) : string :=
  match s with
  | String c s' => if is_ws c then skip_ws s' else s
  | "" => ""
  end.

Definition is_digit (c : ascii) : bool :=
  let n := N_of_ascii c in (48 <=? n)%N && (n <=? 57)%N.

Definition hex_value (c : ascii) : option N :=
  let n := N_of_ascii c in
  if (48 <=? n)%N && (n <=? 57)%N then Some (n - 48)%N
  else if (97 <=? n)%N && (n <=? 102)%N then Some (n - 87)%N
  else if (65 <=? n)%N && (n <=? 70)%N then Some (n - 55)%N
  else None.

Definition hex4 (a b c d : ascii) : option N :=
  match hex_value a, hex_value b, hex_value c, hex_value d with
  | Some x, Some y, Some z, Some t => Some (((x * 16 + y) * 16 + z) * 16 + t)%N
  | _, _, _, _ => None
  end.

(** The character a one-letter escape stands for. *)
Definition unescape (e : ascii) : option ascii :=
  let n := N_of_ascii e in
  if (n =? 34)%N then Some dquote
  else if (n =? 92)%N then Some "\"%char
  else if (n =? 47)%N then Some "/"%char
  else if (n =? 98)%N then Some "008"%char
  else if (n =? 102)%N then Some "012"%char
  else if (n =? 110)%N then Some "010"%char
  else if (n =? 114)%N then Some "013"%char
  else if (n =? 116)%N then Some "009"%char
  else None.

Definition prepend (c : ascii) (r : result (string * string))
  : result (string * string) :=
  match r with
  | Ok (s, rest) => Ok (String c s, rest)
  | Raise e => Raise e
  end.

(** A string literal, from after its opening quote: the string and the rest
    of the input. Code points from 256 on are not modelled. *)
Fixpoint scan_string (s : string) : result (string * string) :=
  match s with
  | "" => Raise JSONDecodeError
  | String c s' =>
      let n := N_of_ascii c in
      if (n =? 34)%N then Ok ("", s')
      else if (n =? 92)%N then
        match s' with
        | "" => Raise JSONDecodeError
        | String e s'' =>
            match unescape e with
            | Some c' => prepend c' (scan_string s'')
            | None =>
                if (N_of_ascii e =? 117)%N then
                  match s'' with
                  | String h1 (String h2 (String h3 (String h4 s5))) =>
                      match hex4 h1 h2 h3 h4 with
                      | Some code =>
                          if (code <? 256)%N
                          then prepend (ascii_of_N code) (scan_string s5)
                          else Raise NotModelled
                      | None => Raise JSONDecodeError
                      end
                  | _ => Raise JSONDecodeError
                  end
                else Raise JSONDecodeError
            end
        end
      else if (n <? 32)%N then Raise JSONDecodeError
      else if (127 <? n)%N then Raise NotModelled
      else prepend c (scan_string s')
  end.

Definition digit_cons (c : ascii) (u : Decimal.uint) : Decimal.uint :=
  match N_of_ascii c with
  | 48 => Decimal.D0 u | 49 => Decimal.D1 u | 50 => Decimal.D2 u
  | 51 => Decimal.D3 u | 52 => Decimal.D4 u | 53 => Decimal.D5 u
  | 54 => Decimal.D6 u | 55 => Decimal.D7 u | 56 => Decimal.D8 u
  | _ => Decimal.D9 u
  end%N.

(** The longest run of digits at the front of the input. *)
Fixpoint scan_digits (s : string) : Decimal.uint * string :=
  match s with
  | String c s' =>
      if is_digit c
      then let '(u, rest) := scan_digits s' in (digit_cons c u, rest)
      else (Decimal.Nil, s)
  | "" => (Decimal.Nil, "")
  end.

(** [strip p s]: [s] without its prefix [p]. *)
Fixpoint strip (p s : string) : option string :=
  match p, s with
  | "", _ => Some s
  | String a p', String b s' => if Ascii.eqb a b then strip p' s' else None
  | _, "" => None
  end.

(** The end of a number: a fraction or an exponent makes it a float, which
    is not modelled. *)
Definition finish_number (z : Z) (rest : string) : result (value * string) :=
  match rest with
  | String c _ =>
      let n := N_of_ascii c in
      if (n =? 46)%N || (n =? 101)%N || (n =? 69)%N
      then Raise NotModelled else Ok (Int z, rest)
  | "" => Ok (Int z, rest)
  end.

(** The digits of a number, after its sign: [0] or a run of digits that
    does not start with [0]. *)
Definition scan_natural (negative : bool) (s : string) : result (value * string) :=
  let sign (n : N) : Z := if negative then (- Z.of_N n)%Z else Z.of_N n in
  match s with
  | String c s' =>
      if (N_of_ascii c =? 48)%N then finish_number (sign 0%N) s'
      else if is_digit c then
        let '(u, rest) := scan_digits s in finish_number (sign (N.of_uint u)) rest
      else if negative && bool_decide (is_Some (strip "Infinity" s))
      then Raise NotModelled
      else Raise JSONDecodeError
  | "" => Raise JSONDecodeError
  end.

Definition literal (word : string) (v : value) (s : string)
  : result (value * string) :=
  match strip word s with
  | Some rest => Ok (v, rest)
  | None => Raise JSONDecodeError
  end.

(** The recursive descent. [fuel] bounds the number of nested calls; [loads]
    gives enough of it for its input. *)
Fixpoint parse_value (fuel : nat) (s : string) : result (value * string) :=
  match fuel with
  | 0 => Raise RecursionError
  | S fuel' =>
      match s with
      | "" => Raise JSONDecodeError
      | String c s' =>
          let n := N_of_ascii c in
          if (n =? 123)%N then
            match skip_ws s' with
            | String c1 s1 =>
                if (N_of_ascii c1 =? 125)%N then Ok (Obj ∅, s1) else
                match parse_members fuel' (String c1 s1) with
                | Ok (ms, rest) => Ok (Obj (list_to_map (reverse ms)), rest)
                | Raise e => Raise e
                end
            | "" => Raise JSONDecodeError
            end
          else if (n =? 91)%N then
            match skip_ws s' with
            | String c1 s1 =>
                if (N_of_ascii c1 =? 93)%N then Ok (Arr [], s1) else
                match parse_elements fuel' (String c1 s1) with
                | Ok (vs, rest) => Ok (Arr vs, rest)
                | Raise e => Raise e
                end
            | "" => Raise JSONDecodeError
            end
          else if (n =? 34)%N then
            match scan_string s' with
            | Ok (str, rest) => Ok (Str str, rest)
            | Raise e => Raise e
            end
          else if (n =? 110)%N then literal "null" Null s
          else if (n =? 116)%N then literal "true" (Bool true) s
          else if (n =? 102)%N then literal "false" (Bool false) s
          else if (n =? 45)%N then scan_natural true s'
          else if is_digit c then scan_natural false s
          else if bool_decide (is_Some (strip "NaN" s))
                  || bool_decide (is_Some (strip "Infinity" s))
          then Raise NotModelled
          else Raise JSONDecodeError
      end
  end
with parse_elements (fuel : nat) (s : string) : result (list value * string) :=
  match fuel with
  | 0 => Raise RecursionError
  | S fuel' =>
      match parse_value fuel' s with
      | Raise e => Raise e
      | Ok (v, rest) =>
          match skip_ws rest with
          | String c r =>
              if (N_of_ascii c =? 93)%N then Ok ([v], r)
              else if (N_of_ascii c =? 44)%N then
                match parse_elements fuel' (skip_ws r) with
                | Ok (vs, r') => Ok (v :: vs, r')
                | Raise e => Raise e
                end
              else Raise JSONDecodeError
          | "" => Raise JSONDecodeError
          end
      end
  end
with parse_members (fuel : nat) (s : string)
  : result (list (string * value) * string) :=
  match fuel with
  | 0 => Raise RecursionError
  | S fuel' =>
      match s with
      | String q s' =>
          if negb (N_of_ascii q =? 34)%N then Raise JSONDecodeError else
          match scan_string s' with
          | Raise e => Raise e
          | Ok (k, r0) =>
              match skip_ws r0 with
              | String c r1 =>
                  if negb (N_of_ascii c =? 58)%N then Raise JSONDecodeError else
                  match parse_value fuel' (skip_ws r1) with
                  | Raise e => Raise e
                  | Ok (v, r2) =>
                      match skip_ws r2 with
                      | String c' r3 =>
                          if (N_of_ascii c' =? 125)%N then Ok ([(k, v)], r3)
                          else if (N_of_ascii c' =? 44)%N then
                            match parse_members fuel' (skip_ws r3) with
                            | Ok (ms, r') => Ok ((k, v) :: ms, r')
                            | Raise e => Raise e
                            end
                          else Raise JSONDecodeError
                      | "" => Raise JSONDecodeError
                      end
                  end
              | "" => Raise JSONDecodeError
              end
          end
      | "" => Raise JSONDecodeError
      end
  end.

(** [json.loads(s)]: one document, then nothing but white space. *)
Definition loads (s : string) : result value :=
  match parse_value (2 * String.length s + 2) (skip_ws s) with
  | Raise e => Raise e
  | Ok (v, rest) =>
      match skip_ws rest with
      | "" => Ok v
      | _ => Raise JSONDecodeError
      end
  end.

End json.

(** * Python values and JSON documents *)

Fixpoint mapM {A B} (f : A → result B) (l : list A) : result (list B) :=
  match l with
  | [] => Ok []
  | x :: l' =>
      match f x with
      | Raise e => Raise e
      | Ok y =>
          match mapM f l' with
          | Raise e => Raise e
          | Ok ys => Ok (y :: ys)
          end
      end
  end.

Definition map_mapM {A B} (f : A → result B) (m : gmap string A)
  : result (gmap string B) :=
  map_fold (λ k x acc,
              match acc with
              | Raise e => Raise e
              | Ok m' =>
                  match f x with
                  | Raise e => Raise e
                  | Ok y => Ok (<[k := y]> m')
                  end
              end) (Ok ∅) m.

(** The document [json.dump] writes for a Python value. The encoder keeps
    the dicts it is inside of as markers and raises [ValueError] ("Circular
    reference detected") when it meets one of them again. [fuel] bounds the
    nesting of dicts. An address without an object is not a Python
    value. *)
Fixpoint encode_value (h : gmap loc (gmap string val)) (fuel : nat)
    (markers : gset loc) : val → result json.value :=
  fix go (v : val) : result json.value :=
    match v with
    | VNone => Ok json.Null
    | VBool b => Ok (json.Bool b)
    | VInt z => Ok (json.Int z)
    | VStr s => Ok (json.Str s)
    | VList vs =>
        match mapM go vs with
        | Ok js => Ok (json.Arr js)
        | Raise e => Raise e
        end
    | VDict l =>
        if decide (l ∈ markers) then Raise ValueError else
        match fuel, h !! l with
        | 0, _ => Raise RecursionError
        | S fuel', Some d =>
            match map_mapM (encode_value h fuel' ({[l]} ∪ markers)) d with
            | Ok members => Ok (json.Obj members)
            | Raise e => Raise e
            end
        | S _, None => Raise NotModelled
        end
    end.

(** No path through the heap visits more dicts than there are. *)
Definition encode (h : gmap loc (gmap string val)) (v : val) : result json.value :=
  encode_value h (S (size h)) ∅ v.

(** The Python value [json.load] builds for a document: new dict objects
    for its objects. *)
Fixpoint decode (j : json.value) : M val :=
  match j with
  | json.Null => ret VNone
  | json.Bool b => ret (VBool b)
  | json.Int z => ret (VInt z)
  | json.Str s => ret (VStr s)
  | json.Arr items =>
      let* vs := foldr (λ item acc,
                          let* v := decode item in
                          let* vs := acc in
                          ret (v :: vs)) (ret []) items in
      ret (VList vs)
  | json.Obj members =>
      let* d := map_fold (λ k member acc,
                            let* d := acc in
                            let* v := decode member in
                            ret (<[k := v]> d)) (ret ∅) members in
      let* l := alloc d in
      ret (VDict l)
  end.

(** ** What a Python value denotes *)

(** The depth of a document. *)
Fixpoint height (j : json.value) : nat :=
  match j with
  | json.Arr items => S (foldr (λ item, max (height item)) 0 items)
  | json.Obj members => S (map_fold (λ _ member, max (height member)) 0 members)
  | _ => 0
  end.

(** [denotes h v j]: in the heap [h] the value [v] is a finite tree of lists
    and dicts, and [j] is the document with its content. Two values are
    deep-equal when they denote the same document. *)
Inductive denotes (h : gmap loc (gmap string val)) : val → json.value → Prop :=
| denotes_none : denotes h VNone json.Null
| denotes_bool b : denotes h (VBool b) (json.Bool b)
| denotes_int z : denotes h (VInt z) (json.Int z)
| denotes_str s : denotes h (VStr s) (json.Str s)
| denotes_list vs js :
    Forall2 (denotes h) vs js → denotes h (VList vs) (json.Arr js)
| denotes_dict l d m :
    h !! l = Some d →
    (∀ k, option_Forall2 (denotes h) (d !! k) (m !! k)) →
    denotes h (VDict l) (json.Obj m).

(** * The standard library: [os] and files *)
Module os.

(** The pieces of a path between slashes. *)
Fixpoint split (s : string) : list string :=
  match s with
  | "" => [""]
  | String c s' =>
      if Ascii.eqb c "/" then "" :: split s'
      else match split s' with
           | x :: xs => String c x :: xs
           | [] => [String c ""]
           end
  end.

(** The names a path goes through: empty pieces and [.] name nothing.
    ([..] and symbolic links are not modelled.) *)
Definition components (s : string) : list string :=
  filter (λ c, c ≠ "" ∧ c ≠ ".") (split s).

Definition is_absolute (s : string) : bool :=
  match s with String c _ => Ascii.eqb c "/" | "" => false end.

(** Where a path leads, from the root. *)
Definition resolve (env : environment) (path : string) : list string :=
  ((if is_absolute path then [] else cwd env) ++ components path)%list.

(** [s.rstrip("/")] *)
Fixpoint rstrip_slash (s : string) : string :=
  match s with
  | "" => ""
  | String c s' =>
      let r := rstrip_slash s' in
      if Ascii.eqb c "/" && String.eqb r "" then "" else String c r
  end.

(** [s.find("/")] for the part of [s] from the first slash on. *)
Fixpoint from_slash (s : string) : string :=
  match s with
  | "" => ""
  | String c s' => if Ascii.eqb c "/" then s else from_slash s'
  end.

(** [os.path.expanduser(path)]: a leading [~] alone stands for the home
    directory of the user; without one the path is returned as it is (and
    so is a path that names another user, whose home is not modelled). *)
Definition expanduser (env : environment) (path : string) : string :=
  match path with
  | String c rest =>
      if negb (Ascii.eqb c "~") then path else
      if negb (String.eqb rest (from_slash rest)) then path else
      match HOME env with
      | None => path
      | Some userhome =>
          let r := rstrip_slash userhome +:+ rest in
          if String.eqb r "" then "/" else r
      end
  | "" => path
  end.

Fixpoint ends_with_slash (s : string) : bool :=
  match s with
  | "" => false
  | String c "" => Ascii.eqb c "/"
  | String _ s' => ends_with_slash s'
  end.

(** [os.path.join(a, b)] *)
Definition join (a b : string) : string :=
  if is_absolute b then b
  else if String.eqb a "" || ends_with_slash a then a +:+ b
  else a +:+ "/" +:+ b.

(** What is at a place of the file system; the root is always there. *)
Definition stat (f : gmap (list string) node) (p : list string) : option node :=
  match p with
  | [] => Some Dir
  | _ => f !! p
  end.

Definition parent (p : list string) : list string := removelast p.

(** [os.path.exists(path)] *)
Definition path_exists (env : environment) (path : string) : M bool :=
  λ w, (Ok (bool_decide (is_Some (stat (fs w) (resolve env path)))), w).

(** [os.path.isdir(path)] *)
Definition path_isdir (env : environment) (path : string) : M bool :=
  λ w, (Ok (match stat (fs w) (resolve env path) with
            | Some Dir => true
            | _ => false
            end), w).

(** [os.path.isfile(path)] *)
Definition path_isfile (env : environment) (path : string) : M bool :=
  λ w, (Ok (match stat (fs w) (resolve env path) with
            | Some (File _) => true
            | _ => false
            end), w).

(** [os.mkdir] at a place. *)
Definition mkdir_at (p : list string) : M unit :=
  λ w, match stat (fs w) p with
       | Some _ => (Raise FileExistsError, w)
       | None =>
           match stat (fs w) (parent p) with
           | Some Dir => (Ok tt, set_fs (<[p := Dir]> (fs w)) w)
           | Some (File _) => (Raise NotADirectoryError, w)
           | None => (Raise FileNotFoundError, w)
           end
       end.

(** [try: m except FileExistsError: pass] *)
Definition pass_FileExistsError (m : M unit) : M unit :=
  λ w, match m w with
       | (Raise FileExistsError, w') => (Ok tt, w')
       | r => r
       end.

(** [os.makedirs] at a place given leaf first: the missing ancestors are
    made first, then the directory itself. *)
Fixpoint makedirs_rev (rp : list string) : M unit :=
  match rp with
  | [] => mkdir_at []
  | tail :: rhead =>
      (λ w, if bool_decide (is_Some (stat (fs w) (reverse rhead)))
            then (Ok tt, w)
            else pass_FileExistsError (makedirs_rev rhead) w);;;
      mkdir_at (reverse (tail :: rhead))
  end.

(** [os.makedirs(path)] *)
Definition makedirs (env : environment) (path : string) : M unit :=
  makedirs_rev (reverse (resolve env path)).

(** [open(path, "w")]: the file is made or emptied. *)
Definition open_w (env : environment) (path : string) : M (list string) :=
  λ w, let p := resolve env path in
       match stat (fs w) p with
       | Some Dir => (Raise IsADirectoryError, w)
       | _ =>
           match stat (fs w) (parent p) with
           | Some Dir => (Ok p, set_fs (<[p := File (Some "")]> (fs w)) w)
           | Some (File _) => (Raise NotADirectoryError, w)
           | None => (Raise FileNotFoundError, w)
           end
       end.

(** What an open file holds once the writer is done with it. *)
Definition set_content (file : list string) (content : option string) : M unit :=
  λ w, (Ok tt, set_fs (<[file := File content]> (fs w)) w).

(** [open(path, "r")] and what is read from it. *)
Definition open_r (env : environment) (path : string) : M (option string) :=
  λ w, match stat (fs w) (resolve env path) with
       | Some (File content) => (Ok content, w)
       | Some Dir => (Raise IsADirectoryError, w)
       | None => (Raise FileNotFoundError, w)
       end.

End os.

(** [json.dump(obj, file, indent=4, sort_keys=True)]. When the encoder
    raises, the text written so far stays in the file: an unfinished
    document. *)
Definition json_dump (obj : val) (file : list string) : M unit :=
  let* h := get_heap in
  match encode h obj with
  | Ok j => os.set_content file (Some (json.dumps j))
  | Raise e => os.set_content file None;;; raise e
  end.

(** [json.load(file)] *)
Definition json_load (content : option string) : M val :=
  match content with
  | None => raise JSONDecodeError
  | Some text =>
      match json.loads text with
      | Ok j => decode j
      | Raise e => raise e
      end
  end.

(** * The logger *)

(** [fmt % arg] for a format with one [%s]. *)
Fixpoint format (fmt arg : string) : string :=
  match fmt with
  | "" => ""
  | String c rest =>
      match rest with
      | String c' rest' =>
          if Ascii.eqb c "%" && Ascii.eqb c' "s" then arg +:+ rest'
          else String c (format rest arg)
      | "" => String c ""
      end
  end.

(** [LOG.error(msg, arg)] *)
Definition LOG_error (msg arg : string) : M unit :=
  λ w, (Ok tt, set_logged (logged w ++ [format msg arg]) w).

(** * conf.py *)

(** The condition of the guard in [get_saved_google_credentials]:
    [not credentials_dict or "refresh_token" not in credentials_dict or
     "client_id" not in credentials_dict or
     "client_secret" not in credentials_dict], evaluated left to right. *)
Definition record_incomplete (credentials_dict : val) : M bool :=
  let* h := get_heap in
  if negb (truthy h credentials_dict) then ret true else
  let* has_refresh_token := contains "refresh_token" credentials_dict in
  if negb has_refresh_token then ret true else
  let* has_client_id := contains "client_id" credentials_dict in
  if negb has_client_id then ret true else
  let* has_client_secret := contains "client_secret" credentials_dict in
  ret (negb has_client_secret).

(** [get_saved_google_credentials(config)] *)
Definition get_saved_google_credentials (env : environment) (config : loc)
  : M (option Credentials) :=
  let* d0 := alloc ∅ in
  let* oauth := dict_get config "oauth" (VDict d0) in
  let* oauth_dict := getattr_get oauth in
  let* d1 := alloc ∅ in
  let* credentials_dict := dict_get oauth_dict "google" (VDict d1) in
  let* incomplete := record_incomplete credentials_dict in
  if incomplete then ret None else
  let* kw := unpack credentials_dict in
  let* credentials := lift (google.init env kw) in
  if negb (google.valid env credentials) then
    let* h := get_heap in
    if google.expired env credentials
       && truthy h (refresh_token credentials) then
      let* credentials := google.refresh env credentials in
      ret (Some credentials)
    else ret None
  else ret (Some credentials).

(** The record [stash_google_credentials] stores. *)
Definition credential_record (c : Credentials) : gmap string val :=
  <["refresh_token" := refresh_token c]>
  (<["token" := token c]>
  (<["client_id" := client_id c]>
  (<["client_secret" := client_secret c]>
  (<["token_uri" := token_uri c]> ∅)))).

(** [stash_google_credentials(config, credentials)] *)
Definition stash_google_credentials (config : loc) (credentials : Credentials)
  : M loc :=
  let* has_oauth := contains "oauth" (VDict config) in
  (if negb has_oauth then
     let* fresh_oauth := alloc ∅ in
     dict_setitem config "oauth" (VDict fresh_oauth)
   else ret tt);;;
  let* record := alloc (credential_record credentials) in
  let* oauth := getitem config "oauth" in
  setitem oauth "google" (VDict record);;;
  ret config.

Definition CONFIG_DIR : string := "~/.config/gcal-discord-poster".
Definition CONFIG_FILE_NAME : string := "config.json".

(** [setup_config_dir()] *)
Definition setup_config_dir (env : environment) : M unit :=
  let real_config_dir := os.expanduser env CONFIG_DIR in
  let* found := os.path_exists env real_config_dir in
  if negb found then os.makedirs env real_config_dir
  else
    let* isdir := os.path_isdir env real_config_dir in
    if negb isdir then
      let msg := "Unable to setup config dir at '%s'" in
      LOG_error msg CONFIG_DIR;;;
      raise (RuntimeError (format msg CONFIG_DIR))
    else ret tt.

(** [get_config_path()] *)
Definition get_config_path (env : environment) : string :=
  os.join (os.expanduser env CONFIG_DIR) CONFIG_FILE_NAME.

(** [get_config()] *)
Definition get_config (env : environment) : M val :=
  let config_path := get_config_path env in
  let* isdir := os.path_isdir env config_path in
  (if isdir then
     let msg := "Config path at '%s' is a directory." in
     LOG_error msg config_path;;;
     raise (RuntimeError (format msg config_path))
   else ret tt);;;
  let* isfile := os.path_isfile env config_path in
  if isfile then
    let* file := os.open_r env config_path in
    json_load file
  else
    let* config := alloc ∅ in
    ret (VDict config).

(** [save_config(config)] *)
Definition save_config (env : environment) (config : loc) : M unit :=
  let config_path := get_config_path env in
  let* isdir := os.path_isdir env config_path in
  (if isdir then
     let msg := "Config path at '%s' is a directory." in
     LOG_error msg config_path;;;
     raise (RuntimeError (format msg config_path))
   else ret tt);;;
  setup_config_dir env;;;
  let* file := os.open_w env config_path in
  json_dump (VDict config) file.

(** [get_new_google_credentials(config, client_id_path, save)]: the
    interactive flow is the client library's; what it gives is the
    environment's. *)
Definition get_new_google_credentials (env : environment) (config : loc)
    (client_id_path : string) (save : bool) : M Credentials :=
  let* credentials := lift (run_local_server env client_id_path) in
  (if save then
     stash_google_credentials config credentials;;;
     save_config env config
   else ret tt);;;
  ret credentials.

(** * Vocabulary of the statements *)

(** The value stored at [config["oauth"]["google"]], when the path leads
    through mappings to one. *)
Definition record_at (h : gmap loc (gmap string val)) (config : loc) : option val :=
  match deref h config !! "oauth" with
  | Some (VDict o) => deref h o !! "google"
  | _ => None
  end.

(** The keys [get_saved_google_credentials] tests for. *)
Definition checked_keys : list string :=
  ["refresh_token"; "client_id"; "client_secret"].

(** A record the guard of [get_saved_google_credentials] turns away: a false
    value (the empty mapping, [None], ...) or a mapping without one of the
    checked keys. *)
Definition unusable (h : gmap loc (gmap string val)) (v : val) : Prop :=
  truthy h v = false ∨
  ∃ l k, v = VDict l ∧ k ∈ checked_keys ∧ deref h l !! k = None.

(** A record that passes the guard: a non-empty mapping with the three
    checked keys. *)
Definition passes_guard (h : gmap loc (gmap string val)) (v : val) : Prop :=
  ∃ l, v = VDict l ∧ ∀ k, k ∈ checked_keys → is_Some (deref h l !! k).

(** Two worlds that differ only by dict objects allocated in between, all of
    them empty: the same file system, network log and logger output, every
    object of the first still there, and every address holding the same
    mapping. *)
Definition only_garbage (w w' : world) : Prop :=
  heap w ⊆ heap w' ∧ (∀ l, deref (heap w') l = deref (heap w) l) ∧
  fs w' = fs w ∧ net w' = net w ∧ logged w' = logged w.

(** The part of [get_saved_google_credentials] after the record has been
    looked up. *)
Definition use_record (env : environment) (credentials_dict : val)
  : M (option Credentials) :=
  let* incomplete := record_incomplete credentials_dict in
  if incomplete then ret None else
  let* kw := unpack credentials_dict in
  let* credentials := lift (google.init env kw) in
  if negb (google.valid env credentials) then
    let* h := get_heap in
    if google.expired env credentials
       && truthy h (refresh_token credentials) then
      let* credentials := google.refresh env credentials in
      ret (Some credentials)
    else ret None
  else ret (Some credentials).

(** * Concrete worlds, used to run the code on examples *)
Module examples.

(** The client library as it was when the repository was written: besides
    the five stored arguments the constructor takes [id_token] and [scopes].
    The clock says nothing has expired and the network is down. *)
Definition env : environment :=
  {| HOME := Some "/home/user";
     cwd := ["home"; "user"];
     more_kwargs := ["id_token"; "scopes"];
     clock_expired := λ _, false;
     transport := λ _, Raise (TransportError 503);
     run_local_server := λ _, Raise (TransportError 401) |}.

(** The same with a clock that says every credential has expired and a
    network that answers a refresh with a new token. *)
Definition env_expired : environment :=
  {| HOME := Some "/home/user";
     cwd := ["home"; "user"];
     more_kwargs := ["id_token"; "scopes"];
     clock_expired := λ _, true;
     transport := λ c, Ok {| token := VStr "t2";
                             refresh_token := refresh_token c;
                             token_uri := token_uri c;
                             client_id := client_id c;
                             client_secret := client_secret c;
                             other_args := other_args c |};
     run_local_server := λ _, Raise (TransportError 401) |}.

Definition config : loc := 1%positive.

Definition world_of (h : gmap loc (gmap string val)) : world :=
  {| heap := h; fs := ∅; net := []; logged := [] |}.

(** [{"oauth": None}], what [json.load] gives for [{"oauth": null}]. *)
Definition oauth_null : gmap loc (gmap string val) :=
  {[ config := {[ "oauth" := VNone ]} ]}.

(** [{}] *)
Definition empty_config : gmap loc (gmap string val) :=
  {[ config := ∅ ]}.

(** [{"oauth": {"google": {...}}}] around a given record. *)
Definition with_record (record : gmap string val) : gmap loc (gmap string val) :=
  {[ config := {[ "oauth" := VDict 2%positive ]};
     2%positive := {[ "google" := VDict 3%positive ]};
     3%positive := record ]}.

(** The record of the specification's scenario. *)
Definition full_record : gmap string val :=
  {[ "refresh_token" := VStr "r"; "token" := VStr "t"; "client_id" := VStr "c";
     "client_secret" := VStr "s";
     "token_uri" := VStr "https://oauth2.example/token" ]}.

(** A record with everything but the access token. *)
Definition no_token_record : gmap string val :=
  {[ "refresh_token" := VStr "r"; "client_id" := VStr "c";
     "client_secret" := VStr "s";
     "token_uri" := VStr "https://oauth2.example/token" ]}.

(** A record whose access token is [None]. *)
Definition null_token_record : gmap string val :=
  {[ "refresh_token" := VStr "r"; "token" := VNone; "client_id" := VStr "c";
     "client_secret" := VStr "s";
     "token_uri" := VStr "https://oauth2.example/token" ]}.

Definition some_credentials : Credentials :=
  {| token := VStr "t"; refresh_token := VStr "r";
     token_uri := VStr "https://oauth2.example/token";
     client_id := VStr "c"; client_secret := VStr "s"; other_args := ∅ |}.

(** A home directory with nothing in it, and a world with it. *)
Definition bare_home : gmap (list string) node :=
  {[ ["home"] := Dir; ["home"; "user"] := Dir ]}.

Definition at_home (h : gmap loc (gmap string val)) : world :=
  {| heap := h; fs := bare_home; net := []; logged := [] |}.

(** The document of [with_record full_record]. *)
Definition full_document : json.value :=
  json.Obj {[ "oauth" := json.Obj {[ "google" := json.Obj
    {[ "refresh_token" := json.Str "r"; "token" := json.Str "t";
       "client_id" := json.Str "c"; "client_secret" := json.Str "s";
       "token_uri" := json.Str "https://oauth2.example/token" ]} ]} ]}.

(** A file system where a directory sits at the path of the config file. *)
Definition directory_in_the_way : gmap (list string) node :=
  {[ ["home"] := Dir; ["home"; "user"] := Dir;
     ["home"; "user"; ".config"] := Dir;
     ["home"; "user"; ".config"; "gcal-discord-poster"] := Dir;
     ["home"; "user"; ".config"; "gcal-discord-poster"; "config.json"] := Dir ]}.

(** A config that holds itself under ["oauth"]. *)
Definition self_reference : gmap loc (gmap string val) :=
  {[ config := {[ "oauth" := VDict config ]} ]}.

End examples.

(** Where the config directory and the config file are in the file
    system. *)
Definition config_dir_place (env : environment) : list string :=
  os.resolve env (os.expanduser env CONFIG_DIR).

Definition config_file_place (env : environment) : list string :=
  os.resolve env (get_config_path env).

(** The way to a place is made of directories down to depth [k] and of
    nothing below: what [os.makedirs] needs to make the rest. *)
Definition dirs_then_nothing (f : gmap (list string) node) (p : list string)
    (k : nat) : Prop :=
  ∀ q, q `prefix_of` p →
       ((length q ≤ k)%nat → os.stat f q = Some Dir) ∧
       (k < length q → os.stat f q = None).

(** The home directory as [os.path.expanduser] writes it. *)
Definition expanded_home (env : environment) : string :=
  match HOME env with
  | Some userhome => os.rstrip_slash userhome
  | None => "~"
  end.

(** What [setup_config_dir] logs and raises with. *)
Definition setup_failure : string :=
  "Unable to setup config dir at '~/.config/gcal-discord-poster'".

(** What [get_config] and [save_config] log and raise with when a directory
    is where the config file should be. *)
Definition directory_conflict (env : environment) : string :=
  "Config path at '" +:+ get_config_path env +:+ "' is a directory.".

(** A run that only allocates: the heap grows and nothing else changes. *)
Definition only_allocates (w w' : world) : Prop :=
  heap w ⊆ heap w' ∧ fs w' = fs w ∧ net w' = net w ∧ logged w' = logged w.

(** ** Vocabulary for reading back a written document *)

(** Whether the input goes on with a digit. *)
Definition starts_with_digit (s : string) : bool :=
  match s with String c _ => json.is_digit c | "" => false end.

(** What follows a value in a written document: the end, a comma or a line
    break. *)
Definition delimited (rest : string) : Prop :=
  match rest with
  | "" => True
  | String c _ => c = ","%char ∨ c = json.newline
  end.

(** The first character of a written value is not white space and closes
    nothing. *)
Definition starts_value (s : string) : bool :=
  match s with
  | String c _ =>
      negb (json.is_ws c) && negb (N_of_ascii c =? 93)%N
      && negb (N_of_ascii c =? 125)%N
  | "" => false
  end.

(** [reads j]: the parser gives [j] back from what was written for it, at
    any nesting level, before any delimiter, with fuel for twice the
    length of the text. *)
Definition reads (j : json.value) : Prop :=
  ∀ depth rest fuel,
    delimited rest →
    (2 * String.length (json.write depth j) ≤ fuel)%nat →
    json.parse_value fuel (json.write depth j +:+ rest) = Ok (j, rest).

(** What is written between two items at a nesting level. *)
Definition separator (depth : nat) : string := "," +:+ json.break (S depth).

(** A member as it is written. *)
Definition written_member (depth : nat) (kv : string * json.value) : string :=
  json.member (kv.1, json.write (S depth) kv.2).

(** Python's [==] on the values of the model: the same finite tree. *)
Definition deep_equal (h : gmap loc (gmap string val)) (v v' : val) : Prop :=
  ∃ j, denotes h v j ∧ denotes h v' j.

(** A config mapping as the specification has it: a dict object whose
    content is JSON-compatible. *)
Definition json_compatible (h : gmap loc (gmap string val)) (config : loc)
  : Prop :=
  ∃ j, denotes h (VDict config) j.

(** * Vocabulary of further properties *)

(** A run that at most makes directories on the way to a place: every
    entry of the file system stays as it was, a new entry is a directory on
    the way, and the heap and the network log are not touched. *)
Definition only_makes_dirs (way : list string) (w w' : world) : Prop :=
  fs w ⊆ fs w' ∧
  (∀ p, fs w !! p = None → is_Some (fs w' !! p) →
        fs w' !! p = Some Dir ∧ p `prefix_of` way) ∧
  heap w' = heap w ∧ net w' = net w.

(** A home directory whose config directory is there, with a config file
    of a given content. *)
Definition home_with_config (content : option string)
  : gmap (list string) node :=
  {[ ["home"] := Dir; ["home"; "user"] := Dir;
     ["home"; "user"; ".config"] := Dir;
     ["home"; "user"; ".config"; "gcal-discord-poster"] := Dir;
     ["home"; "user"; ".config"; "gcal-discord-poster"; "config.json"]
       := File content ]}.

(** A home directory where a regular file has the name of the config
    directory. *)
Definition file_as_config_dir : gmap (list string) node :=
  {[ ["home"] := Dir; ["home"; "user"] := Dir;
     ["home"; "user"; ".config"] := Dir;
     ["home"; "user"; ".config"; "gcal-discord-poster"] := File (Some "") ]}.

(** A home directory where [.config] is a regular file. *)
Definition file_as_dot_config : gmap (list string) node :=
  {[ ["home"] := Dir; ["home"; "user"] := Dir;
     ["home"; "user"; ".config"] := File (Some "") ]}.

Definition world_with (h : gmap loc (gmap string val))
    (f : gmap (list string) node) : world :=
  {| heap := h; fs := f; net := []; logged := [] |}.

(** The way to a place is made of directories down to depth [k], where a
    regular file is, and of nothing below it. *)
Definition file_on_the_way (f : gmap (list string) node) (p : list string)
    (k : nat) : Prop :=
  ∀ q, q `prefix_of` p →
       (length q < k → os.stat f q = Some Dir) ∧
       (length q = k → ∃ content, os.stat f q = Some (File content)) ∧
       (k < length q → os.stat f q = None).

(** The dict objects a value refers to directly. *)
Fixpoint refs (v : val) : list loc :=
  match v with
  | VDict l => [l]
  | VList vs => flat_map refs vs
  | _ => []
  end.

(** Every reference held in the heap is to an object of the heap, as it is
    in Python. *)
Definition no_dangling (h : gmap loc (gmap string val)) : Prop :=
  ∀ l d k v l', h !! l = Some d → d !! k = Some v → l' ∈ refs v →
                is_Some (h !! l').

(** The credential the constructor rebuilds from the record that
    [stash_google_credentials] stores for a credential: its five stored
    attributes, and no other argument. *)
Definition stored (c : Credentials) : Credentials :=
  {| token := token c;
     refresh_token := refresh_token c;
     token_uri := token_uri c;
     client_id := client_id c;
     client_secret := client_secret c;
     other_args := ∅ |}.

(** A config whose record at [config["oauth"]["google"]] is the string
    [s]. *)
Definition with_string_record (s : string) : gmap loc (gmap string val) :=
  {[ examples.config := {[ "oauth" := VDict 2%positive ]};
     2%positive := {[ "google" := VStr s ]} ]}.

(** The record of the specification's scenario with one more key. *)
Definition record_with_expiry : gmap string val :=
  <["expiry" := VStr "2019-01-01T00:00:00"]> examples.full_record.

(** The environment of the examples when the user grants access: the flow
    gives a credential. *)
Definition granting (granted : Credentials) : environment :=
  {| HOME := Some "/home/user";
     cwd := ["home"; "user"];
     more_kwargs := ["id_token"; "scopes"];
     clock_expired := λ _, false;
     transport := λ _, Raise (TransportError 503);
     run_local_server := λ _, Ok granted |}.

(** A value with no parts: [None], a boolean, a number or a string. *)
Definition scalar (v : val) : bool :=
  match v with
  | VList _ | VDict _ => false
  | _ => true
  end.

(** The document of a scalar. *)
Definition document_of_scalar (v : val) : json.value :=
  match v with
  | VBool b => json.Bool b
  | VInt z => json.Int z
  | VStr s => json.Str s
  | _ => json.Null
  end.

(** A credential whose five stored attributes are scalars; the client
    library has strings or [None] there. *)
Definition scalar_fields (c : Credentials) : Prop :=
  ∀ k v, credential_record c !! k = Some v → scalar v = true.

(** The document of the record stored for a credential. *)
Definition record_document (c : Credentials) : json.value :=
  json.Obj (document_of_scalar <$> credential_record c).

(** The member of a document under a key. *)
Definition member_at (k : string) (j : json.value) : option json.value :=
  match j with
  | json.Obj members => members !! k
  | _ => None
  end.

(* ================================================================= *)
(** * Theorems *)

Local Open Scope list_scope.
Local Open Scope nat_scope.

(** * Properties of the heap primitives *)

(** Closed facts about concrete worlds are settled by evaluation. *)
Ltac by_evaluation := vm_compute; first [reflexivity | exact I].

(** [∀ k, k ∈ [k1; ...; kn] → is_Some (m !! k)] on a concrete mapping. *)
Ltac each_key Hk :=
  repeat (apply elem_of_cons in Hk as [-> | Hk]);
  [apply (bool_decide_unpack _); by_evaluation ..
  | exfalso; exact (proj1 (elem_of_nil _) Hk)].


Lemma fresh_lookup (h : gmap loc (gmap string val)) : h !! fresh (dom h) = None.
Proof. apply not_elem_of_dom, is_fresh. Qed.

Lemma deref_alloc_empty (h : gmap loc (gmap string val)) l :
  deref (<[fresh (dom h) := ∅]> h) l = deref h l.
Proof.
  unfold deref. destruct (decide (fresh (dom h) = l)) as [<-|Hne].
  - by rewrite lookup_insert_eq, fresh_lookup.
  - by rewrite lookup_insert_ne.
Qed.

Lemma truthy_alloc_empty (h : gmap loc (gmap string val)) v :
  truthy (<[fresh (dom h) := ∅]> h) v = truthy h v.
Proof. destruct v; simpl; try done. by rewrite deref_alloc_empty. Qed.

Lemma alloc_subseteq (h : gmap loc (gmap string val)) d :
  h ⊆ <[fresh (dom h) := d]> h.
Proof. apply insert_subseteq, fresh_lookup. Qed.

(** * The guard of [get_saved_google_credentials] *)

Lemma record_incomplete_unusable w g :
  unusable (heap w) g → record_incomplete g w = (Ok true, w).
Proof.
  unfold record_incomplete, bind, get_heap. simpl.
  intros [Hf | (l & k & -> & Hk & Hnone)].
  { by rewrite Hf. }
  destruct (truthy (heap w) (VDict l)); [simpl | done].
  unfold bind, get_heap, ret; simpl.
  destruct (deref (heap w) l !! "refresh_token") eqn:E1; simpl; [| done].
  destruct (deref (heap w) l !! "client_id") eqn:E2; simpl; [| done].
  destruct (deref (heap w) l !! "client_secret") eqn:E3; simpl; [| done].
  unfold checked_keys in Hk.
  repeat (apply elem_of_cons in Hk as [-> | Hk]); try congruence.
  by apply elem_of_nil in Hk.
Qed.

Lemma record_incomplete_passes w g :
  passes_guard (heap w) g → record_incomplete g w = (Ok false, w).
Proof.
  intros (l & -> & Hkeys).
  assert (∀ k, k ∈ checked_keys →
    bool_decide (is_Some (deref (heap w) l !! k)) = true) as Hb.
  { intros k Hk. apply bool_decide_eq_true, Hkeys, Hk. }
  unfold record_incomplete, bind, get_heap. simpl.
  assert (deref (heap w) l ≠ ∅) as Hne.
  { intros He. destruct (Hkeys "refresh_token") as [v Hv].
    - unfold checked_keys. set_solver.
    - by rewrite He, lookup_empty in Hv. }
  rewrite bool_decide_eq_false_2 by done. simpl.
  unfold bind, get_heap, ret. simpl.
  do 3 (rewrite Hb by (unfold checked_keys; set_solver); simpl).
  done.
Qed.

(** * Running [get_saved_google_credentials] *)



Lemma only_garbage_alloc_empty w :
  only_garbage w (alloc ∅ w).2.
Proof.
  unfold only_garbage, alloc; simpl.
  split_and!; auto using alloc_subseteq, deref_alloc_empty.
Qed.

Lemma only_garbage_trans w1 w2 w3 :
  only_garbage w1 w2 → only_garbage w2 w3 → only_garbage w1 w3.
Proof.
  intros (? & Hd1 & ? & ? & ?) (? & Hd2 & ? & ? & ?).
  unfold only_garbage. split_and!; try congruence; try (by etrans).
Qed.

Lemma truthy_ext h h' v :
  (∀ l, deref h' l = deref h l) → truthy h' v = truthy h v.
Proof. intros Hd. destruct v; simpl; try done. by rewrite Hd. Qed.

Lemma unusable_ext h h' v :
  (∀ l, deref h' l = deref h l) → unusable h v → unusable h' v.
Proof.
  intros Hd [Hf | (l & k & -> & Hk & Hnone)].
  - left. by rewrite (truthy_ext h h').
  - right. exists l, k. by rewrite Hd.
Qed.

Lemma passes_guard_ext h h' v :
  (∀ l, deref h' l = deref h l) → passes_guard h v → passes_guard h' v.
Proof.
  intros Hd (l & -> & Hkeys). exists l. split; [done |].
  intros k Hk. rewrite Hd. by apply Hkeys.
Qed.

(** When [config["oauth"]] is absent or a mapping, the lookup of the record
    raises nothing: it gives the stored record, or an empty mapping made on
    the spot when there is none. *)
Lemma lookup_record_run env config w :
  (deref (heap w) config !! "oauth" = None ∨
   ∃ o, deref (heap w) config !! "oauth" = Some (VDict o)) →
  ∃ w' g,
    only_garbage w w' ∧
    get_saved_google_credentials env config w = use_record env g w' ∧
    match record_at (heap w) config with
    | Some g' => g = g'
    | None => truthy (heap w') g = false
    end.
Proof.
  intros Hoauth.
  pose proof (only_garbage_alloc_empty w) as Hg0.
  set (w0 := (alloc ∅ w).2) in *.
  pose proof (only_garbage_alloc_empty w0) as Hg1.
  set (w1 := (alloc ∅ w0).2) in *.
  pose proof (only_garbage_trans _ _ _ Hg0 Hg1) as Hg.
  assert (deref (heap w0) config = deref (heap w) config) as Hc0
    by apply Hg0.
  assert (∀ l, deref (heap w1) l = deref (heap w) l) as Hd1 by apply Hg.
  assert (deref (heap w1) (fresh (dom (heap w0))) = ∅) as Hnew1.
  { unfold w1, alloc, deref; simpl. by rewrite lookup_insert_eq. }
  assert (deref (heap w1) (fresh (dom (heap w))) = ∅) as Hnew0.
  { destruct Hg1 as (_ & Hd & _). rewrite Hd.
    unfold w0, alloc, deref; simpl. by rewrite lookup_insert_eq. }
  unfold get_saved_google_credentials, record_at.
  fold (use_record env).
  unfold bind at 1. unfold alloc at 1. simpl. fold w0.
  unfold bind at 1. unfold dict_get at 1, bind at 1, get_heap, ret. simpl.
  change (heap w0) with (heap (alloc ∅ w).2) in Hc0.
  unfold alloc in Hc0; simpl in Hc0. rewrite Hc0.
  exists w1.
  destruct Hoauth as [Hnone | [o Ho]].
  - rewrite Hnone. simpl.
    unfold bind at 1. simpl. unfold bind at 1. unfold alloc at 1. simpl.
    unfold bind at 1. unfold dict_get at 1, bind at 1, get_heap, ret. simpl.
    eexists. split; [done |]. split; [reflexivity |].
    change (<[fresh (dom (<[fresh (dom (heap w)):=∅]> (heap w))):=∅]>
             (<[fresh (dom (heap w)):=∅]> (heap w))) with (heap w1).
    change (<[fresh (dom (heap w)):=∅]> (heap w)) with (heap w0).
    rewrite Hnew0, lookup_empty. unfold default, truthy. rewrite Hnew1.
    by rewrite bool_decide_eq_true_2.
  - rewrite Ho. simpl.
    unfold bind at 1. simpl. unfold bind at 1. unfold alloc at 1. simpl.
    unfold bind at 1. unfold dict_get at 1, bind at 1, get_heap, ret. simpl.
    eexists. split; [done |]. split; [reflexivity |].
    change (<[fresh (dom (<[fresh (dom (heap w)):=∅]> (heap w))):=∅]>
             (<[fresh (dom (heap w)):=∅]> (heap w))) with (heap w1).
    change (<[fresh (dom (heap w)):=∅]> (heap w)) with (heap w0).
    rewrite Hd1. destruct (deref (heap w) o !! "google"); [done |].
    unfold default, truthy. rewrite Hnew1. by rewrite bool_decide_eq_true_2.
Qed.

Lemma use_record_unusable env w g :
  unusable (heap w) g → use_record env g w = (Ok None, w).
Proof.
  intros Hu. unfold use_record, bind.
  by rewrite (record_incomplete_unusable _ _ Hu).
Qed.

(** Past the guard the function is the reconstruction of the credential,
    the validity test and at most one refresh. *)
Lemma use_record_reconstruct env w l :
  passes_guard (heap w) (VDict l) →
  use_record env (VDict l) w =
  match google.init env (deref (heap w) l) with
  | Raise e => (Raise e, w)
  | Ok c =>
      if google.valid env c then (Ok (Some c), w)
      else if google.expired env c && truthy (heap w) (refresh_token c)
      then (match transport env c with
            | Ok c' => Ok (Some c')
            | Raise e => Raise e
            end, set_net (net w ++ [c]) w)
      else (Ok None, w)
  end.
Proof.
  intros Hp. unfold use_record, bind at 1.
  rewrite (record_incomplete_passes _ _ Hp).
  unfold unpack, bind, get_heap, ret, lift. simpl.
  destruct (google.init env (deref (heap w) l)) as [c | e]; [| done].
  destruct (google.valid env c); simpl; [done |].
  destruct (google.expired env c && truthy (heap w) (refresh_token c));
    [| done].
  unfold google.refresh. by destruct (transport env c).
Qed.

Lemma passes_guard_inv h v :
  passes_guard h v → ∃ l, v = VDict l.
Proof. intros (l & -> & _). by exists l. Qed.

(** * The saved credentials *)

(** C1, as the code has it. For every config mapping whose ["oauth"] entry
    is absent or a mapping, and whose record at [config["oauth"]["google"]]
    is absent, false (the empty mapping, [None], ...) or a mapping without
    the key ["refresh_token"], ["client_id"] or ["client_secret"],
    [get_saved_google_credentials] returns [None]: it raises nothing, asks
    nothing of the network, and leaves the file system and every dict
    object as they were. *)
Theorem saved_credentials_none_for_unusable_record env config w :
  (deref (heap w) config !! "oauth" = None ∨
   ∃ o, deref (heap w) config !! "oauth" = Some (VDict o)) →
  (∀ g, record_at (heap w) config = Some g → unusable (heap w) g) →
  ∃ w', get_saved_google_credentials env config w = (Ok None, w') ∧
        net w' = net w ∧ only_garbage w w'.
Proof.
  intros Hoauth Hrec.
  destruct (lookup_record_run env config w Hoauth) as (w' & g & Hg & -> & Hat).
  exists w'. split; [| split; [apply Hg | done]].
  apply use_record_unusable.
  destruct (record_at (heap w) config) as [g' |].
  - subst g'. apply (unusable_ext (heap w)); [apply Hg | by apply Hrec].
  - by left.
Qed.

Lemma saved_credentials_none_for_unusable_record_witness :
  let w := examples.world_of
             (examples.with_record {[ "refresh_token" := VStr "r" ]}) in
  (deref (heap w) examples.config !! "oauth" = Some (VDict 2%positive)) ∧
  record_at (heap w) examples.config = Some (VDict 3%positive) ∧
  deref (heap w) 3%positive !! "client_id" = None ∧
  ∃ w', get_saved_google_credentials examples.env examples.config w
        = (Ok None, w') ∧ net w' = net w ∧ only_garbage w w'.
Proof.
  intros w. split; [by_evaluation |]. split; [by_evaluation |].
  split; [by_evaluation |].
  apply saved_credentials_none_for_unusable_record.
  - right. exists 2%positive. by_evaluation.
  - intros g Hg. vm_compute in Hg. injection Hg as <-.
    right. exists 3%positive, "client_id".
    split; [reflexivity |]. split; [| by_evaluation].
    unfold checked_keys. apply list_elem_of_further, list_elem_of_here.
Defined.

(** C1, as the specification states it, fails: in the config
    [{"oauth": None}] there is no record at [config["oauth"]["google"]],
    and the lookup [config.get("oauth", {}).get(...)] raises
    [AttributeError]. *)
Lemma saved_credentials_oauth_null_raises :
  let w := examples.world_of examples.oauth_null in
  record_at (heap w) examples.config = None ∧
  (get_saved_google_credentials examples.env examples.config w).1
  = Raise AttributeError.
Proof. split; vm_compute; reflexivity. Qed.

(** The constructor reports a missing [token] argument. *)
Lemma init_without_token env kw :
  kw !! "token" = None → google.init env kw = Raise TypeError.
Proof. intros H. unfold google.init. by rewrite H. Qed.

(** A record that passes the guard and has no ["token"] key makes
    [get_saved_google_credentials] raise [TypeError]. *)
Lemma saved_credentials_without_token env config w o l :
  deref (heap w) config !! "oauth" = Some (VDict o) →
  deref (heap w) o !! "google" = Some (VDict l) →
  passes_guard (heap w) (VDict l) →
  deref (heap w) l !! "token" = None →
  (get_saved_google_credentials env config w).1 = Raise TypeError.
Proof.
  intros Ho Hg Hp Htok.
  destruct (lookup_record_run env config w) as (w' & g & Hw & -> & Hat);
    [eauto |].
  unfold record_at in Hat. rewrite Ho, Hg in Hat. subst g.
  destruct Hw as (_ & Hd & _).
  rewrite use_record_reconstruct by (by apply (passes_guard_ext (heap w))).
  by rewrite init_without_token by (by rewrite Hd).
Qed.

(** C5 fails on the code. A record with ["refresh_token"], ["client_id"],
    ["client_secret"] and ["token_uri"] but no ["token"] passes the guard,
    and the reconstruction of the credential raises [TypeError] instead of
    giving [None]. *)
Theorem saved_credentials_missing_token_raises :
  let w := examples.world_of (examples.with_record examples.no_token_record) in
  record_at (heap w) examples.config = Some (VDict 3%positive) ∧
  deref (heap w) 3%positive !! "token" = None ∧
  (get_saved_google_credentials examples.env examples.config w).1
  = Raise TypeError.
Proof. split_and!; vm_compute; reflexivity. Qed.

(** The constructor keeps the five stored arguments as they are given. *)
Lemma init_fields env kw c :
  google.init env kw = Ok c →
  (∀ k, k ∈ google.stored_kwargs → is_Some (kw !! k)) →
  kw !! "refresh_token" = Some (refresh_token c) ∧
  kw !! "token" = Some (token c) ∧
  kw !! "client_id" = Some (client_id c) ∧
  kw !! "client_secret" = Some (client_secret c) ∧
  kw !! "token_uri" = Some (token_uri c).
Proof.
  intros Hinit Hall. unfold google.init in Hinit.
  destruct (kw !! "token") as [tok |] eqn:Htok; [| done].
  destruct (forallb _ _); [| done].
  injection Hinit as <-. simpl. unfold google.arg.
  assert (∀ k, k ∈ google.stored_kwargs →
               kw !! k = Some (default VNone (kw !! k))) as Hk.
  { intros k Hin. destruct (Hall k Hin) as [v ->]. done. }
  unfold google.stored_kwargs in Hk.
  split_and!; [apply Hk | done | apply Hk ..]; set_solver.
Qed.





(** * Stashing the credentials *)

Lemma deref_lookup (h : gmap loc (gmap string val)) l d :
  h !! l = Some d → deref h l = d.
Proof. unfold deref. by intros ->. Qed.

Lemma deref_insert_eq (h : gmap loc (gmap string val)) l d :
  deref (<[l := d]> h) l = d.
Proof. unfold deref. by rewrite lookup_insert_eq. Qed.

Lemma deref_insert_ne (h : gmap loc (gmap string val)) l l' d :
  l ≠ l' → deref (<[l := d]> h) l' = deref h l'.
Proof. intros. unfold deref. by rewrite lookup_insert_ne. Qed.

Lemma fresh_ne (h : gmap loc (gmap string val)) l :
  is_Some (h !! l) → fresh (dom h) ≠ l.
Proof.
  intros Hl <-. rewrite fresh_lookup in Hl. by destruct Hl.
Qed.

(** The run of [stash_google_credentials] on a config without ["oauth"]:
    two dict objects are made, the mapping for ["oauth"] and the record. *)
Lemma stash_run_absent w config credentials d :
  heap w !! config = Some d → d !! "oauth" = None →
  let o := fresh (dom (heap w)) in
  let h1 := <[config := <["oauth" := VDict o]> d]> (<[o := ∅]> (heap w)) in
  let r := fresh (dom h1) in
  stash_google_credentials config credentials w =
  (Ok config,
   set_heap (<[o := {["google" := VDict r]}]>
             (<[r := credential_record credentials]> h1)) w).
Proof.
  intros Hc Hnone o h1 r.
  assert (o ≠ config) as Hoc by (apply fresh_ne; eauto).
  assert (r ≠ config) as Hrc.
  { apply fresh_ne. unfold h1. rewrite lookup_insert_eq. eauto. }
  assert (r ≠ o) as Hro.
  { apply fresh_ne. unfold h1.
    rewrite lookup_insert_ne, lookup_insert_eq by done. eauto. }
  unfold stash_google_credentials, bind, contains, get_heap, ret. simpl.
  rewrite (deref_lookup _ _ _ Hc), Hnone. simpl.
  unfold alloc, dict_setitem, getitem, bind, get_heap. simpl.
  fold o. rewrite (deref_insert_ne _ o config) by done.
  rewrite (deref_lookup _ _ _ Hc). fold h1. fold r.
  rewrite (deref_insert_ne _ r config) by done.
  unfold h1 at 1. rewrite deref_insert_eq, lookup_insert_eq. simpl.
  unfold dict_setitem. simpl.
  rewrite (deref_insert_ne _ r o) by done.
  unfold h1 at 1. rewrite (deref_insert_ne _ config o) by done.
  rewrite deref_insert_eq. done.
Qed.

(** The run on a config with an ["oauth"] entry: the record is made, then
    stored under ["google"] when the entry is a mapping; any other entry
    makes the item assignment raise [TypeError]. *)
Lemma stash_run_present w config credentials d v :
  heap w !! config = Some d → d !! "oauth" = Some v →
  let r := fresh (dom (heap w)) in
  let h1 := <[r := credential_record credentials]> (heap w) in
  stash_google_credentials config credentials w =
  match v with
  | VDict o =>
      (Ok config,
       set_heap (<[o := <["google" := VDict r]> (deref h1 o)]> h1) w)
  | _ => (Raise TypeError, set_heap h1 w)
  end.
Proof.
  intros Hc Hv r h1.
  assert (r ≠ config) as Hrc by (apply fresh_ne; eauto).
  unfold stash_google_credentials, bind, contains, get_heap, ret. simpl.
  rewrite (deref_lookup _ _ _ Hc), Hv. simpl.
  unfold alloc, getitem, bind, get_heap. simpl. fold r. fold h1.
  unfold h1 at 1. rewrite (deref_insert_ne _ r config) by done.
  rewrite (deref_lookup _ _ _ Hc), Hv. simpl.
  by destruct v.
Qed.

Lemma credential_record_dom c :
  dom (credential_record c)
  = list_to_set ["refresh_token"; "token"; "client_id"; "client_secret";
                 "token_uri"].
Proof. unfold credential_record. rewrite !dom_insert_L, dom_empty_L. set_solver. Qed.

(** C8, as the code has it. For every config mapping whose ["oauth"] entry
    is absent or a mapping, and every credential object,
    [stash_google_credentials] returns the config it was given; afterwards
    [config["oauth"]["google"]] is a new dict object holding exactly the
    five-field record of the credential, whatever was stored there before;
    the file system, the network log and the logger are not touched. *)
Theorem stash_stores_record w config credentials :
  is_Some (heap w !! config) →
  (deref (heap w) config !! "oauth" = None ∨
   ∃ o, deref (heap w) config !! "oauth" = Some (VDict o) ∧
        is_Some (heap w !! o)) →
  ∃ w' o r,
    stash_google_credentials config credentials w = (Ok config, w') ∧
    deref (heap w') config !! "oauth" = Some (VDict o) ∧
    deref (heap w') o !! "google" = Some (VDict r) ∧
    heap w !! r = None ∧
    heap w' !! r = Some (credential_record credentials) ∧
    fs w' = fs w ∧ net w' = net w ∧ logged w' = logged w.
Proof.
  intros [d Hc] Hoauth. rewrite (deref_lookup _ _ _ Hc) in Hoauth.
  destruct Hoauth as [Hnone | (o & Ho & [od Hod])].
  - pose proof (stash_run_absent w config credentials d Hc Hnone) as Hrun.
    simpl in Hrun. rewrite Hrun. clear Hrun.
    set (o := fresh (dom (heap w))).
    set (h1 := <[config := <["oauth" := VDict o]> d]> (<[o := ∅]> (heap w))).
    set (r := fresh (dom h1)).
    assert (o ≠ config) as Hoc by (apply fresh_ne; eauto).
    assert (h1 !! r = None) as Hr1 by apply fresh_lookup.
    assert (r ≠ config) as Hrc.
    { intros ->. unfold h1 in Hr1. by rewrite lookup_insert_eq in Hr1. }
    assert (r ≠ o) as Hro.
    { intros ->. unfold h1 in Hr1.
      by rewrite lookup_insert_ne, lookup_insert_eq in Hr1. }
    eexists _, o, r. split; [reflexivity |]. simpl.
    rewrite deref_insert_ne, deref_insert_ne by done.
    unfold h1 at 1. rewrite deref_insert_eq, lookup_insert_eq.
    rewrite deref_insert_eq, lookup_singleton_eq.
    rewrite lookup_insert_ne, lookup_insert_eq by done.
    split_and!; try done.
    unfold h1 in Hr1.
    by rewrite !lookup_insert_ne in Hr1 by done.
  - pose proof (stash_run_present w config credentials d _ Hc Ho) as Hrun.
    simpl in Hrun. rewrite Hrun. clear Hrun.
    set (r := fresh (dom (heap w))).
    set (h1 := <[r := credential_record credentials]> (heap w)).
    assert (r ≠ config) as Hrc by (apply fresh_ne; eauto).
    assert (r ≠ o) as Hro by (apply fresh_ne; eauto).
    eexists _, o, r. split; [reflexivity |]. simpl.
    rewrite deref_insert_eq, lookup_insert_eq.
    rewrite lookup_insert_ne by done. unfold h1 at 3.
    rewrite lookup_insert_eq.
    split_and!; try done; [| apply fresh_lookup].
    destruct (decide (o = config)) as [-> | Hne].
    + rewrite deref_insert_eq, lookup_insert_ne by done.
      unfold h1. rewrite deref_insert_ne by done.
      by rewrite (deref_lookup _ _ _ Hc).
    + rewrite deref_insert_ne by done.
      unfold h1. rewrite deref_insert_ne by done.
      by rewrite (deref_lookup _ _ _ Hc).
Qed.

Lemma stash_stores_record_witness :
  let w := examples.world_of (examples.with_record examples.full_record) in
  is_Some (heap w !! examples.config) ∧
  (deref (heap w) examples.config !! "oauth" = Some (VDict 2%positive) ∧
   is_Some (heap w !! 2%positive)) ∧
  ∃ w' o r,
    stash_google_credentials examples.config examples.some_credentials w
    = (Ok examples.config, w') ∧
    deref (heap w') examples.config !! "oauth" = Some (VDict o) ∧
    deref (heap w') o !! "google" = Some (VDict r) ∧
    heap w !! r = None ∧
    heap w' !! r = Some (credential_record examples.some_credentials) ∧
    fs w' = fs w ∧ net w' = net w ∧ logged w' = logged w.
Proof.
  intros w.
  assert (is_Some (heap w !! examples.config)) as Hc
    by (apply (bool_decide_unpack _); by_evaluation).
  assert (deref (heap w) examples.config !! "oauth" = Some (VDict 2%positive) ∧
          is_Some (heap w !! 2%positive)) as Ho
    by (split; [| apply (bool_decide_unpack _)]; by_evaluation).
  split; [exact Hc |]. split; [exact Ho |].
  apply (stash_stores_record w examples.config examples.some_credentials Hc).
  right. exists 2%positive. exact Ho.
Defined.

(** C8, as the specification states it, fails: on the config
    [{"oauth": None}] the assignment [config["oauth"]["google"] = ...]
    raises [TypeError], nothing is stored and nothing is returned. *)
Lemma stash_oauth_null_raises :
  let w := examples.world_of examples.oauth_null in
  deref (heap w) examples.config !! "oauth" = Some VNone ∧
  (stash_google_credentials examples.config examples.some_credentials w).1
  = Raise TypeError.
Proof. split; by_evaluation. Qed.

(** The frame of [stash_google_credentials], for a config that is not its
    own ["oauth"] entry: whether the call returns or raises, the other
    top-level keys keep their values, the ["oauth"] entry that was a live
    mapping is still the same object with its other keys as they were, and
    every other dict object of the heap is untouched. *)
Lemma stash_frame_heap w config credentials d :
  heap w !! config = Some d →
  d !! "oauth" ≠ Some (VDict config) →
  let w' := (stash_google_credentials config credentials w).2 in
  (∀ k, k ≠ "oauth" → deref (heap w') config !! k = d !! k) ∧
  (∀ o od, d !! "oauth" = Some (VDict o) → heap w !! o = Some od →
     deref (heap w') config !! "oauth" = Some (VDict o) ∧
     ∀ k, k ≠ "google" → deref (heap w') o !! k = od !! k) ∧
  (∀ l, is_Some (heap w !! l) → l ≠ config → d !! "oauth" ≠ Some (VDict l) →
     heap w' !! l = heap w !! l) ∧
  fs w' = fs w ∧ net w' = net w ∧ logged w' = logged w.
Proof.
  intros Hc Hself.
  destruct (d !! "oauth") as [v |] eqn:Hv.
  - pose proof (stash_run_present w config credentials d v Hc Hv) as Hrun.
    simpl in Hrun. rewrite Hrun. clear Hrun.
    set (r := fresh (dom (heap w))).
    set (h1 := <[r := credential_record credentials]> (heap w)).
    assert (r ≠ config) as Hrc by (apply fresh_ne; eauto).
    assert (deref h1 config = d) as Hd1.
    { unfold h1. rewrite deref_insert_ne by done. by apply deref_lookup. }
    assert (∀ l, is_Some (heap w !! l) → h1 !! l = heap w !! l) as Hh1.
    { intros l Hl. unfold h1. rewrite lookup_insert_ne; [done |].
      by apply fresh_ne. }
    destruct v as [| | | | | o]; simpl;
      try (split_and!; try done;
           [intros k _; by rewrite Hd1 | intros l Hl _ _; by apply Hh1]).
    assert (o ≠ config) as Hoc by congruence.
    split_and!; try done.
    + intros k _. by rewrite deref_insert_ne, Hd1 by done.
    + intros o' od [= <-] Hod. rewrite deref_insert_ne, Hd1 by done.
      split; [done |]. intros k Hk.
      rewrite deref_insert_eq, lookup_insert_ne by done.
      unfold deref. rewrite Hh1 by eauto. by rewrite Hod.
    + intros l Hl Hlc Hlo. rewrite lookup_insert_ne by congruence.
      by apply Hh1.
  - pose proof (stash_run_absent w config credentials d Hc Hv) as Hrun.
    simpl in Hrun. rewrite Hrun. clear Hrun.
    set (o := fresh (dom (heap w))).
    set (h1 := <[config := <["oauth" := VDict o]> d]> (<[o := ∅]> (heap w))).
    set (r := fresh (dom h1)).
    assert (o ≠ config) as Hoc by (apply fresh_ne; eauto).
    assert (h1 !! r = None) as Hr1 by apply fresh_lookup.
    assert (r ≠ config) as Hrc.
    { intros ->. unfold h1 in Hr1. by rewrite lookup_insert_eq in Hr1. }
    simpl. split_and!; try done.
    + intros k Hk. rewrite !deref_insert_ne by done.
      unfold h1. by rewrite deref_insert_eq, lookup_insert_ne.
    + intros l Hl Hlc _.
      assert (o ≠ l) by (by apply fresh_ne).
      assert (r ≠ l).
      { intros ->. unfold h1 in Hr1.
        rewrite !lookup_insert_ne in Hr1 by done. rewrite Hr1 in Hl.
        by destruct Hl. }
      unfold h1. by rewrite !lookup_insert_ne by done.
Qed.

(** * Strings *)

Lemma append_nil_l (b : string) : "" +:+ b = b.
Proof. reflexivity. Qed.

Lemma append_cons x (a b : string) : String x a +:+ b = String x (a +:+ b).
Proof. reflexivity. Qed.

Lemma append_assoc (a b c : string) : (a +:+ b) +:+ c = a +:+ (b +:+ c).
Proof.
  induction a as [| x a IH]; [done |]. by rewrite !append_cons, IH.
Qed.

Lemma append_nil_r (a : string) : a +:+ "" = a.
Proof.
  induction a as [| x a IH]; [done |]. by rewrite append_cons, IH.
Qed.

Lemma length_append (a b : string) :
  String.length (a +:+ b) = String.length a + String.length b.
Proof.
  induction a as [| x a IH]; [done |]. rewrite append_cons. simpl.
  by rewrite IH.
Qed.

(** * Paths *)

Lemma split_nonempty s : os.split s ≠ [].
Proof.
  destruct s as [| c s]; simpl; [done |].
  destruct (Ascii.eqb c "/"); [done |]. by destruct (os.split s).
Qed.

Lemma split_slash a b :
  os.split (a +:+ String "/" b) = (os.split a ++ os.split b)%list.
Proof.
  induction a as [| c a IH]; simpl; [done |].
  destruct (Ascii.eqb c "/"); [by rewrite IH |].
  rewrite IH. pose proof (split_nonempty a). by destruct (os.split a).
Qed.

Lemma components_slash a b :
  os.components (a +:+ String "/" b)
  = (os.components a ++ os.components b)%list.
Proof. unfold os.components. by rewrite split_slash, filter_app. Qed.

Lemma is_absolute_app a b :
  a ≠ "" → os.is_absolute (a +:+ b) = os.is_absolute a.
Proof. by destruct a. Qed.

Lemma ends_with_slash_inv a :
  os.ends_with_slash a = true → ∃ a0, a = a0 +:+ "/".
Proof.
  induction a as [| c a IH]; [done |]. simpl.
  destruct a as [| c' a'].
  - intros ->%Ascii.eqb_eq. by exists "".
  - intros [a0 ->]%IH. by exists (String c a0).
Qed.

(** Joining a file name to a directory leads one step below where the
    directory leads. *)
Lemma resolve_join env a name :
  os.is_absolute name = false → os.components name = [name] →
  os.resolve env (os.join a name) = (os.resolve env a ++ [name])%list.
Proof.
  intros Hrel Hname. unfold os.join. rewrite Hrel.
  destruct (String.eqb_spec a "") as [-> | Hne]; simpl.
  { change ("" +:+ name) with name. unfold os.resolve.
    rewrite Hrel, Hname. simpl. by rewrite app_nil_r. }
  destruct (os.ends_with_slash a) eqn:Hend.
  - apply ends_with_slash_inv in Hend as [a0 ->].
    unfold os.resolve. rewrite is_absolute_app by done.
    rewrite append_assoc. change ("/" +:+ name) with (String "/" name).
    rewrite !components_slash, Hname.
    change (os.components "") with (@nil string).
    by rewrite app_nil_r, app_assoc.
  - unfold os.resolve. rewrite is_absolute_app by done.
    change ("/" +:+ name) with (String "/" name).
    by rewrite components_slash, Hname, app_assoc.
Qed.

Lemma config_file_in_config_dir env :
  config_file_place env = (config_dir_place env ++ [CONFIG_FILE_NAME])%list.
Proof. by apply resolve_join. Qed.

Lemma parent_config_file env :
  os.parent (config_file_place env) = config_dir_place env.
Proof.
  rewrite config_file_in_config_dir. unfold os.parent.
  apply removelast_last.
Qed.

Lemma append_nonempty a b : b ≠ "" → a +:+ b ≠ "".
Proof. destruct a; simpl; [done | discriminate]. Qed.

Lemma ends_with_slash_app a c b :
  os.ends_with_slash (a +:+ String c b) = os.ends_with_slash (String c b).
Proof.
  induction a as [| c' a IH]; [done |].
  change (String c' a +:+ String c b) with (String c' (a +:+ String c b)).
  assert (a +:+ String c b ≠ "") as Hne by (by apply append_nonempty).
  rewrite <- IH. by destruct (a +:+ String c b).
Qed.

(** The config directory is [<expanded home>/.config/gcal-discord-poster]
    and the config file is [config.json] in it. *)
Lemma expanduser_CONFIG_DIR env :
  os.expanduser env CONFIG_DIR
  = expanded_home env +:+ "/.config/gcal-discord-poster".
Proof.
  unfold os.expanduser, expanded_home, CONFIG_DIR. simpl.
  destruct (HOME env) as [userhome |]; [| done].
  destruct (String.eqb_spec
              (os.rstrip_slash userhome +:+ "/.config/gcal-discord-poster") "")
    as [Hempty | _]; [| done].
  by apply append_nonempty in Hempty.
Qed.

Lemma get_config_path_eq env :
  get_config_path env
  = expanded_home env +:+ "/.config/gcal-discord-poster/config.json".
Proof.
  unfold get_config_path. rewrite expanduser_CONFIG_DIR. unfold os.join.
  change (os.is_absolute CONFIG_FILE_NAME) with false. cbv iota.
  destruct (String.eqb_spec
              (expanded_home env +:+ "/.config/gcal-discord-poster") "")
    as [Hempty | _]; [by apply append_nonempty in Hempty |].
  rewrite ends_with_slash_app. simpl.
  by rewrite append_assoc.
Qed.

(** * The file system *)

Lemma stat_insert_eq (f : gmap (list string) node) p n :
  p ≠ [] → os.stat (<[p := n]> f) p = Some n.
Proof. intros. destruct p; [done |]. simpl. by rewrite lookup_insert_eq. Qed.

Lemma stat_insert_ne (f : gmap (list string) node) p q n :
  p ≠ q → os.stat (<[p := n]> f) q = os.stat f q.
Proof. intros. destruct q; [done |]. simpl. by rewrite lookup_insert_ne. Qed.

Lemma stat_None_lookup (f : gmap (list string) node) p :
  os.stat f p = None → f !! p = None ∧ p ≠ [].
Proof. by destruct p. Qed.

Lemma parent_snoc (p : list string) t : os.parent (p ++ [t]) = p.
Proof. apply removelast_last. Qed.

(** [os.mkdir] raises errors of the operating system only, and changes
    nothing when it raises. *)
Lemma mkdir_at_raises p w e w' :
  os.mkdir_at p w = (Raise e, w') → is_OSError e = true ∧ w' = w.
Proof.
  unfold os.mkdir_at. intros H.
  destruct (os.stat (fs w) p); [by simplify_eq |].
  destruct (os.stat (fs w) (os.parent p)) as [[| c] |]; by simplify_eq.
Qed.

Lemma makedirs_rev_raises rp : ∀ w e w',
  os.makedirs_rev rp w = (Raise e, w') → is_OSError e = true.
Proof.
  induction rp as [| t rhead IH]; intros w e w' H; simpl in H.
  - by apply mkdir_at_raises in H as [? _].
  - unfold bind in H.
    destruct (bool_decide (is_Some (os.stat (fs w) (reverse rhead)))).
    + by apply mkdir_at_raises in H as [? _].
    + unfold os.pass_FileExistsError in H.
      destruct (os.makedirs_rev rhead w) as [[[] | e0] w0] eqn:Hrec.
      * by apply mkdir_at_raises in H as [? _].
      * apply IH in Hrec.
        destruct e0; try discriminate Hrec;
          first [by apply mkdir_at_raises in H as [? _] | by simplify_eq].
Qed.

(** [os.makedirs] makes the directories that are missing on the way and
    touches nothing else. *)
Lemma makedirs_rev_makes rp : ∀ w k,
  dirs_then_nothing (fs w) (reverse rp) k → k < length rp →
  ∃ w', os.makedirs_rev rp w = (Ok tt, w') ∧
        (∀ q, q `prefix_of` reverse rp → os.stat (fs w') q = Some Dir) ∧
        (∀ q, ¬ q `prefix_of` reverse rp → fs w' !! q = fs w !! q) ∧
        heap w' = heap w ∧ net w' = net w ∧ logged w' = logged w.
Proof.
  induction rp as [| t rhead IH]; intros w k Hway Hk; [simpl in Hk; lia |].
  rewrite reverse_cons in *. set (head := reverse rhead) in *.
  assert (length head = length rhead) as Hlen by apply length_reverse.
  assert (∀ q, q `prefix_of` head → q `prefix_of` head ++ [t]) as Hpre.
  { intros q Hq. by apply prefix_app_r. }
  assert (∀ q, q `prefix_of` head → q ≠ head ++ [t]) as Hshort.
  { intros q Hq ->. apply prefix_length in Hq. rewrite length_app in Hq.
    simpl in Hq. lia. }
  assert (∀ q, q `prefix_of` head ++ [t] → q = head ++ [t] ∨ q `prefix_of` head)
    as Hcases.
  { intros q [r Hr]. destruct (decide (r = [])) as [-> | Hne].
    - left. by rewrite app_nil_r in Hr.
    - right. destruct (exists_last Hne) as (r' & x & ->).
      rewrite app_assoc in Hr. apply app_inj_tail in Hr as [-> _].
      by exists r'. }
  assert (os.stat (fs w) (head ++ [t]) = None) as Hnone.
  { apply (Hway (head ++ [t])); [done |]. rewrite length_app. simpl in *. lia. }
  simpl. unfold bind. rewrite reverse_cons. fold head.
  destruct (decide (length head ≤ k)%nat) as [Hle | Hgt].
  - assert (os.stat (fs w) head = Some Dir) as Hhead
      by (apply (Hway head); [by apply Hpre | done]).
    rewrite Hhead, bool_decide_eq_true_2 by eauto.
    unfold os.mkdir_at. rewrite Hnone, parent_snoc, Hhead.
    eexists. split; [reflexivity |]. simpl. split_and!; try done.
    + intros q [-> | Hq]%Hcases.
      * apply stat_insert_eq. by destruct head.
      * rewrite stat_insert_ne by (by apply not_eq_sym, Hshort).
        apply (Hway q); [by apply Hpre |].
        apply prefix_length in Hq. lia.
    + intros q Hq. apply lookup_insert_ne. by intros <-.
  - assert (os.stat (fs w) head = None) as Hhead
      by (apply (Hway head); [by apply Hpre | lia]).
    rewrite Hhead, bool_decide_eq_false_2 by (by intros [? ?]).
    destruct (IH w k) as (w1 & Hrun & Hmade & Hrest & Hh & Hn & Hl).
    { intros q Hq. apply Hway. by apply Hpre. }
    { lia. }
    unfold os.pass_FileExistsError. rewrite Hrun.
    assert (os.stat (fs w1) (head ++ [t]) = None) as Hnone1.
    { apply stat_None_lookup in Hnone as [Hnone Hne].
      destruct (head ++ [t]) eqn:E; [done |]. simpl. rewrite <- E in *.
      rewrite Hrest; [done |]. intros Hp. apply prefix_length in Hp.
      rewrite length_app in Hp. simpl in Hp. lia. }
    unfold os.mkdir_at. rewrite Hnone1, parent_snoc, (Hmade head) by done.
    eexists. split; [reflexivity |]. simpl. split_and!; try done.
    + intros q [-> | Hq]%Hcases.
      * apply stat_insert_eq. by destruct head.
      * rewrite stat_insert_ne by (by apply not_eq_sym, Hshort).
        by apply Hmade.
    + intros q Hq. rewrite lookup_insert_ne by (by intros <-).
      apply Hrest. intros Hp. apply Hq. by apply Hpre.
Qed.

(** * The config directory *)

(** The three runs of [setup_config_dir]: the directory is there, something
    else is there, nothing is there. *)
Lemma setup_config_dir_present env w :
  os.stat (fs w) (config_dir_place env) = Some Dir →
  setup_config_dir env w = (Ok tt, w).
Proof.
  intros H. unfold setup_config_dir, bind, os.path_exists, os.path_isdir.
  cbv beta. fold (config_dir_place env).
  rewrite H, bool_decide_eq_true_2 by eauto. simpl. by rewrite H.
Qed.

Lemma setup_config_dir_blocked env w content :
  os.stat (fs w) (config_dir_place env) = Some (File content) →
  setup_config_dir env w
  = (Raise (RuntimeError setup_failure),
     set_logged (logged w ++ [setup_failure]) w).
Proof.
  intros H. unfold setup_config_dir, bind, os.path_exists, os.path_isdir.
  cbv beta. fold (config_dir_place env).
  rewrite H, bool_decide_eq_true_2 by eauto. simpl. by rewrite H.
Qed.

Lemma setup_config_dir_missing env w :
  os.stat (fs w) (config_dir_place env) = None →
  setup_config_dir env w
  = os.makedirs_rev (reverse (config_dir_place env)) w.
Proof.
  intros H. unfold setup_config_dir, bind, os.path_exists, os.path_isdir.
  cbv beta. fold (config_dir_place env).
  by rewrite H, bool_decide_eq_false_2 by (by intros [? ?]).
Qed.


Lemma dirs_then_nothing_take (f : gmap (list string) node) p k :
  (∀ n, n ≤ length p →
        (n ≤ k → os.stat f (take n p) = Some Dir) ∧
        (k < n → os.stat f (take n p) = None)) →
  dirs_then_nothing f p k.
Proof.
  intros H q [r ->]. specialize (H (length q)).
  rewrite take_app_length in H. apply H. rewrite length_app. lia.
Qed.


(** * The config file *)

Lemma format_directory_conflict env :
  format "Config path at '%s' is a directory." (get_config_path env)
  = directory_conflict env.
Proof. reflexivity. Qed.

(** Both [get_config] and [save_config] start with the same test. *)
Lemma get_config_conflict env w :
  os.stat (fs w) (config_file_place env) = Some Dir →
  get_config env w
  = (Raise (RuntimeError (directory_conflict env)),
     set_logged (logged w ++ [directory_conflict env]) w).
Proof.
  intros H. unfold get_config, bind, os.path_isdir. cbv beta.
  fold (config_file_place env). rewrite H. cbv iota beta.
  unfold LOG_error, raise. by rewrite format_directory_conflict.
Qed.

Lemma save_config_conflict env config w :
  os.stat (fs w) (config_file_place env) = Some Dir →
  save_config env config w
  = (Raise (RuntimeError (directory_conflict env)),
     set_logged (logged w ++ [directory_conflict env]) w).
Proof.
  intros H. unfold save_config, bind, os.path_isdir. cbv beta.
  fold (config_file_place env). rewrite H. cbv iota beta.
  unfold LOG_error, raise. by rewrite format_directory_conflict.
Qed.

Lemma get_config_missing env w :
  os.stat (fs w) (config_file_place env) = None →
  get_config env w
  = (Ok (VDict (fresh (dom (heap w)))),
     set_heap (<[fresh (dom (heap w)) := ∅]> (heap w)) w).
Proof.
  intros H. unfold get_config, bind, os.path_isdir, os.path_isfile. cbv beta.
  fold (config_file_place env). rewrite H. cbv iota beta. simpl.
  by rewrite H.
Qed.

(** C6. In every file system where the config path is a directory, both
    [get_config] and [save_config], whatever the config, raise a
    [RuntimeError] that carries the message about the conflict (and log
    it), not an error of the operating system; and where nothing is at the
    config path [get_config] returns a new empty mapping. *)
Theorem config_path_directory_conflict env w :
  (os.stat (fs w) (config_file_place env) = Some Dir →
   ∃ e, e = RuntimeError (directory_conflict env) ∧
        is_RuntimeError e = true ∧ is_OSError e = false ∧
        (get_config env w).1 = Raise e ∧
        (∀ config, (save_config env config w).1 = Raise e) ∧
        logged (get_config env w).2 = logged w ++ [directory_conflict env]) ∧
  (os.stat (fs w) (config_file_place env) = None →
   ∃ l w', get_config env w = (Ok (VDict l), w') ∧
           heap w !! l = None ∧ heap w' !! l = Some ∅ ∧ heap w ⊆ heap w' ∧
           fs w' = fs w).
Proof.
  split.
  - intros H. eexists. split; [reflexivity |].
    rewrite (get_config_conflict _ _ H). split_and!; try done.
    intros config. by rewrite (save_config_conflict _ _ _ H).
  - intros H. rewrite (get_config_missing _ _ H).
    eexists _, _. split; [reflexivity |]. simpl.
    split_and!; auto using fresh_lookup, alloc_subseteq.
    apply lookup_insert_eq.
Qed.

(** * Documents and heaps *)

Lemma mapM_Ok {A B} (f : A → result B) l l' :
  mapM f l = Ok l' ↔ Forall2 (λ a b, f a = Ok b) l l'.
Proof.
  revert l'. induction l as [| x l IH]; intros l'; simpl.
  - split; [intros [= <-]; constructor | by intros ->%Forall2_nil_inv_l].
  - split.
    + destruct (f x) as [y |] eqn:Hx; [| done].
      destruct (mapM f l) as [ys |] eqn:Hl; [| done].
      intros [= <-]. constructor; [done | by apply IH].
    + intros (y & ys & Hy & Hys & ->)%Forall2_cons_inv_l.
      apply IH in Hys. by rewrite Hy, Hys.
Qed.

(** [map_mapM f m] gives a map exactly when [f] gives a value for every
    element, and then the map of these values. *)
Lemma map_mapM_Ok {A B} (f : A → result B) (m : gmap string A) m' :
  map_mapM f m = Ok m' ↔
  ∀ k, option_Forall2 (λ a b, f a = Ok b) (m !! k) (m' !! k).
Proof.
  revert m'. unfold map_mapM.
  apply (map_fold_weak_ind (λ r m, ∀ m', r = Ok m' ↔
    ∀ k, option_Forall2 (λ a b, f a = Ok b) (m !! k) (m' !! k))).
  - intros m'. split.
    + intros [= <-] k. rewrite !lookup_empty. constructor.
    + intros H. f_equal. symmetry. apply map_eq. intros k.
      specialize (H k). rewrite lookup_empty in H. rewrite lookup_empty.
      by inversion H.
  - clear m. intros i x m r Hi IH m'. split.
    + destruct r as [m0 | e]; [| done].
      destruct (f x) as [y |] eqn:Hx; [| done].
      intros [= <-] k. destruct (decide (i = k)) as [<- | Hne].
      * rewrite !lookup_insert_eq. by constructor.
      * rewrite !lookup_insert_ne by done. by apply IH.
    + intros H. pose proof (H i) as Hi'. rewrite lookup_insert_eq in Hi'.
      inversion Hi' as [a y Hy Ha Hm' |]; subst.
      assert (r = Ok (delete i m')) as ->.
      { apply IH. intros k. destruct (decide (i = k)) as [<- | Hne].
        - rewrite Hi, lookup_delete_eq. constructor.
        - rewrite lookup_delete_ne by done. specialize (H k).
          by rewrite lookup_insert_ne in H. }
      rewrite Hy. f_equal. by rewrite insert_delete_eq, insert_id.
Qed.

Lemma height_item items item :
  item ∈ items → height item < height (json.Arr items).
Proof.
  simpl. induction 1 as [x l | x y l _ IH]; simpl; lia.
Qed.

Lemma height_member (members : gmap string json.value) k member :
  members !! k = Some member → height member < height (json.Obj members).
Proof.
  simpl. revert k member.
  apply (map_fold_weak_ind (λ r (m : gmap string json.value),
    ∀ k member, m !! k = Some member → height member < S r)).
  - intros k member. by rewrite lookup_empty.
  - intros i x m r Hi IH k member.
    destruct (decide (i = k)) as [<- | Hne].
    + rewrite lookup_insert_eq. intros [= <-]. lia.
    + rewrite lookup_insert_ne by done. intros H%IH. lia.
Qed.

(** Induction on documents, through lists and maps. *)
Lemma value_ind_deep (P : json.value → Prop) :
  P json.Null → (∀ b, P (json.Bool b)) → (∀ z, P (json.Int z)) →
  (∀ s, P (json.Str s)) →
  (∀ items, Forall P items → P (json.Arr items)) →
  (∀ members, map_Forall (λ _, P) members → P (json.Obj members)) →
  ∀ j, P j.
Proof.
  intros HNull HBool HInt HStr HArr HObj j.
  remember (S (height j)) as n eqn:Hn.
  assert (height j < n) as Hlt by lia. clear Hn. revert j Hlt.
  induction n as [| n IH]; intros j Hlt; [lia |].
  destruct j as [| b | z | s | items | members]; auto.
  - apply HArr, Forall_forall. intros item Hin. apply IH.
    apply height_item in Hin. lia.
  - apply HObj. intros k member Hk. apply IH.
    apply height_member in Hk. lia.
Qed.

(** The encoder, case by case. *)
Lemma encode_value_list h fuel markers vs :
  encode_value h fuel markers (VList vs)
  = match mapM (encode_value h fuel markers) vs with
    | Ok js => Ok (json.Arr js)
    | Raise e => Raise e
    end.
Proof. by destruct fuel. Qed.

Lemma encode_value_dict h fuel markers l d :
  l ∉ markers → h !! l = Some d →
  encode_value h (S fuel) markers (VDict l)
  = match map_mapM (encode_value h fuel ({[l]} ∪ markers)) d with
    | Ok members => Ok (json.Obj members)
    | Raise e => Raise e
    end.
Proof. intros Hl Hd. simpl. by rewrite decide_False, Hd. Qed.

Lemma Forall2_functional {A B} (R : A → B → Prop) xs ys ys' :
  Forall (λ y, ∀ x y', R x y → R x y' → y = y') ys →
  Forall2 R xs ys → Forall2 R xs ys' → ys = ys'.
Proof.
  intros HF H. revert ys' HF.
  induction H as [| x y xs ys Hxy Hxs IH]; intros ys' HF H'.
  - by apply Forall2_nil_inv_l in H'.
  - apply Forall2_cons_inv_l in H' as (y' & ys'' & Hy & Hys & ->).
    apply Forall_cons in HF as [Hf HF]. f_equal; [by eapply Hf | eauto].
Qed.

Lemma Forall2_impl_right {A B} (R R' : A → B → Prop) xs ys :
  Forall (λ y, ∀ x, R x y → R' x y) ys →
  Forall2 R xs ys → Forall2 R' xs ys.
Proof.
  intros HF H. induction H as [| x y xs ys Hxy Hxs IH]; [constructor |].
  apply Forall_cons in HF as [Hf HF]. constructor; eauto.
Qed.

(** A value denotes at most one document. *)
Lemma denotes_functional h j : ∀ v j',
  denotes h v j → denotes h v j' → j = j'.
Proof.
  induction j as [| b | z | s | items IH | members IH] using value_ind_deep;
    intros v j' H1 H2; inversion H1; subst; inversion H2; subst; try done.
  - f_equal. by eapply Forall2_functional.
  - f_equal. apply map_eq. intros k.
    match goal with
    | Ha : h !! ?l = Some ?d, Hb : h !! ?l = Some ?d' |- _ =>
        rewrite Ha in Hb; injection Hb as <-
    end.
    match goal with
    | Ha : ∀ k, option_Forall2 _ (_ !! k) (members !! k),
      Hb : ∀ k, option_Forall2 _ (_ !! k) (?m' !! k) |- _ =>
        specialize (Ha k); specialize (Hb k);
        inversion Ha as [v j Hvj Hv Hj | Hv Hj];
        rewrite <- Hv in Hb;
        inversion Hb as [v' j'' Hvj' Hv' Hj' | Hv' Hj']; [| done]
    end.
    f_equal. subst. eapply IH; eauto.
Qed.

(** What a value denotes stays when the heap grows. *)
Lemma denotes_mono h h' j : ∀ v,
  h ⊆ h' → denotes h v j → denotes h' v j.
Proof.
  induction j as [| b | z | s | items IH | members IH] using value_ind_deep;
    intros v Hsub H; inversion H; subst; try constructor.
  - eapply Forall2_impl_right; [| done].
    eapply Forall_impl; [exact IH |]. simpl. eauto.
  - econstructor; [by eapply lookup_weaken |].
    intros k.
    match goal with Ha : ∀ k, option_Forall2 _ _ _ |- _ =>
      specialize (Ha k); inversion Ha as [v j Hvj Hv Hj | Hv Hj] end;
      constructor.
    eapply IH; eauto.
Qed.

Lemma option_Forall2_impl {A B} (R R' : A → B → Prop) x y :
  option_Forall2 R x y → (∀ a b, x = Some a → y = Some b → R a b → R' a b) →
  option_Forall2 R' x y.
Proof. intros [a b Hab |] H; constructor. by apply H. Qed.

(** The encoder gives the document a value denotes: it does not meet a
    marker again, and it does not run out of fuel. *)
Lemma denotes_encode_value h j : ∀ v fuel markers,
  denotes h v j →
  markers ⊆ dom h →
  (∀ l j', l ∈ markers → denotes h (VDict l) j' → height j < height j') →
  size h < fuel + size markers →
  encode_value h fuel markers v = Ok j.
Proof.
  induction j as [| b | z | s | items IH | members IH] using value_ind_deep;
    intros v fuel markers Hden Hsub Habove Hfuel; inversion Hden; subst;
    try (by destruct fuel).
  - rewrite encode_value_list.
    match goal with H : Forall2 _ _ items |- _ => rename H into Hitems end.
    assert (mapM (encode_value h fuel markers) vs = Ok items) as ->; [| done].
    apply mapM_Ok. eapply Forall2_impl_right; [| exact Hitems].
    apply Forall_forall. intros item Hin v Hv.
    rewrite Forall_forall in IH. apply IH; try done.
    intros l j' Hl Hj'. apply height_item in Hin.
    specialize (Habove l j' Hl Hj'). lia.
  - match goal with
    | H : h !! l = Some _ |- _ => rename H into Hl
    end.
    match goal with
    | H : ∀ k, option_Forall2 _ _ _ |- _ => rename H into Hmembers
    end.
    assert (l ∉ markers) as Hfresh.
    { intros Hin. specialize (Habove l _ Hin Hden). lia. }
    assert (l ∈ dom h) as Hdom by (apply elem_of_dom; eauto).
    assert (size markers < size h) as Hsize.
    { rewrite <- (size_dom (D := gset loc) h). apply subset_size.
      split; [done |]. intros Hsup. apply Hfresh, Hsup, Hdom. }
    destruct fuel as [| fuel]; [lia |].
    rewrite (encode_value_dict _ _ _ _ d) by done.
    assert (map_mapM (encode_value h fuel ({[l]} ∪ markers)) d = Ok members)
      as ->; [| done].
    apply map_mapM_Ok. intros k.
    eapply option_Forall2_impl; [apply Hmembers |].
    intros v member Hv Hmember Hvm. simpl.
    apply (IH k member Hmember); try done.
    + apply union_subseteq. split; [| done]. by apply singleton_subseteq_l.
    + intros l' j' Hl' Hj'. pose proof (height_member _ _ _ Hmember) as Hlt.
      apply elem_of_union in Hl' as [->%elem_of_singleton | Hl'].
      * by rewrite <- (denotes_functional _ _ _ _ Hden Hj').
      * specialize (Habove l' j' Hl' Hj'). lia.
    + rewrite size_union by set_solver. rewrite size_singleton. lia.
Qed.

Lemma denotes_encode h v j : denotes h v j → encode h v = Ok j.
Proof.
  intros H. apply denotes_encode_value; try done.
  rewrite size_empty. lia.
Qed.

(** ** Building the value of a document *)

Lemma bind_Ok {A B} (m : M A) (k : A → M B) w a w' :
  m w = (Ok a, w') → bind m k w = k a w'.
Proof. unfold bind. by intros ->. Qed.

Lemma bind_Raise {A B} (m : M A) (k : A → M B) w e w' :
  m w = (Raise e, w') → bind m k w = (Raise e, w').
Proof. unfold bind. by intros ->. Qed.

Lemma decode_arr items :
  decode (json.Arr items)
  = bind (foldr (λ item acc,
                   bind (decode item) (λ v,
                   bind acc (λ vs, ret (v :: vs)))) (ret []) items)
         (λ vs, ret (VList vs)).
Proof. reflexivity. Qed.

Lemma decode_obj members :
  decode (json.Obj members)
  = bind (map_fold (λ k member acc,
                      bind acc (λ d,
                      bind (decode member) (λ v, ret (<[k := v]> d))))
                   (ret ∅) members)
         (λ d, bind (alloc d) (λ l, ret (VDict l))).
Proof. reflexivity. Qed.

Lemma only_allocates_refl w : only_allocates w w.
Proof. by unfold only_allocates. Qed.

Lemma only_allocates_trans w1 w2 w3 :
  only_allocates w1 w2 → only_allocates w2 w3 → only_allocates w1 w3.
Proof.
  intros (? & ? & ? & ?) (? & ? & ? & ?). unfold only_allocates.
  split_and!; try congruence. by etrans.
Qed.

(** [json.load] builds a value that denotes the document it read. *)
Lemma decode_denotes j : ∀ w,
  ∃ v w', decode j w = (Ok v, w') ∧ denotes (heap w') v j ∧
          only_allocates w w'.
Proof.
  induction j as [| b | z | s | items IH | members IH] using value_ind_deep;
    intros w;
    try (eexists _, w; split; [reflexivity |];
         split; [constructor | apply only_allocates_refl]).
  - rewrite decode_arr.
    assert (∃ vs w', foldr (λ item acc,
                   bind (decode item) (λ v,
                   bind acc (λ vs, ret (v :: vs)))) (ret []) items w
                 = (Ok vs, w') ∧
               Forall2 (denotes (heap w')) vs items ∧ only_allocates w w')
      as (vs & w' & Hrun & Hvs & Hw).
    { revert w. induction items as [| item items IHitems]; intros w.
      - exists [], w. split; [done |]. split; [constructor |].
        apply only_allocates_refl.
      - apply Forall_cons in IH as [IHitem IH].
        destruct (IHitem w) as (v & w1 & Hv & Hden & Hw1).
        destruct (IHitems IH w1) as (vs & w2 & Hvs & Hdens & Hw2).
        exists (v :: vs), w2. simpl.
        rewrite (bind_Ok _ _ _ _ _ Hv), (bind_Ok _ _ _ _ _ Hvs).
        split; [done |].
        split; [| by eapply only_allocates_trans].
        constructor; [| done]. eapply denotes_mono; [apply Hw2 | done]. }
    exists (VList vs), w'. rewrite (bind_Ok _ _ _ _ _ Hrun).
    split; [done |]. split; [by constructor | done].
  - rewrite decode_obj.
    assert (∃ (d : gmap string val) w', map_fold (λ k member acc,
                      bind acc (λ d,
                      bind (decode member) (λ v, ret (<[k := v]> d))))
                   (ret ∅) members w = (Ok d, w') ∧
               (∀ k, option_Forall2 (denotes (heap w')) (d !! k) (members !! k))
               ∧ only_allocates w w')
      as (d & w' & Hrun & Hd & Hw).
    { revert IH w.
      apply (map_fold_weak_ind (λ r (m : gmap string json.value),
        map_Forall (λ _ j, ∀ w, ∃ v w', decode j w = (Ok v, w') ∧
                                 denotes (heap w') v j ∧ only_allocates w w') m →
        ∀ w, ∃ (d : gmap string val) w', r w = (Ok d, w') ∧
          (∀ k, option_Forall2 (denotes (heap w')) (d !! k) (m !! k)) ∧
          only_allocates w w')).
      - intros _ w. exists ∅, w. split; [done |].
        split; [| apply only_allocates_refl].
        intros k. rewrite !lookup_empty. constructor.
      - intros i x m r Hi IHfold IH w.
        apply map_Forall_insert in IH as [IHx IHm]; [| done].
        destruct (IHfold IHm w) as (d & w1 & Hr & Hd & Hw1).
        destruct (IHx w1) as (v & w2 & Hv & Hden & Hw2).
        exists (<[i := v]> d), w2.
        rewrite (bind_Ok _ _ _ _ _ Hr), (bind_Ok _ _ _ _ _ Hv).
        split; [done |].
        split; [| by eapply only_allocates_trans].
        intros k. destruct (decide (i = k)) as [<- | Hne].
        + rewrite !lookup_insert_eq. by constructor.
        + rewrite !lookup_insert_ne by done.
          eapply option_Forall2_impl; [apply Hd |].
          intros a b _ _ Hab. eapply denotes_mono; [apply Hw2 | done]. }
    rewrite (bind_Ok _ _ _ _ _ Hrun).
    unfold bind, alloc, ret. simpl.
    eexists _, _. split; [reflexivity |]. simpl.
    assert (heap w' ⊆ <[fresh (dom (heap w')) := d]> (heap w')) as Hsub
      by apply alloc_subseteq.
    split.
    + econstructor; [apply lookup_insert_eq |].
      intros k. eapply option_Forall2_impl; [apply Hd |].
      intros a b _ _ Hab. by eapply denotes_mono.
    + destruct Hw as (? & ? & ? & ?). unfold only_allocates. simpl.
      split_and!; try done. by etrans.
Qed.

(** * Reading back what was written *)

(** ** String literals *)

Lemma scan_escape_char c tail :
  json.scan_string (json.escape_char c +:+ tail)
  = json.prepend c (json.scan_string tail).
Proof.
  destruct c as [[] [] [] [] [] [] [] []]; reflexivity.
Qed.

Lemma scan_escape s rest :
  json.scan_string (json.escape s +:+ String json.dquote rest) = Ok (s, rest).
Proof.
  induction s as [| c s IH]; [done |].
  change (json.escape (String c s)) with (json.escape_char c +:+ json.escape s).
  by rewrite append_assoc, scan_escape_char, IH.
Qed.

(** ** Numbers *)

Lemma scan_digits_uint u rest :
  starts_with_digit rest = false →
  json.scan_digits (DecimalString.NilEmpty.string_of_uint u +:+ rest)
  = (u, rest).
Proof.
  intros Hrest. induction u as [| u IH | u IH | u IH | u IH | u IH | u IH
                                 | u IH | u IH | u IH | u IH]; simpl;
    try (by rewrite IH).
  change ("" +:+ rest) with rest.
  destruct rest as [| c rest]; [done |]. simpl in *. by rewrite Hrest.
Qed.

Lemma nzhead_not_D0 u v : Decimal.nzhead u ≠ Decimal.D0 v.
Proof. induction u; simpl; congruence. Qed.

Lemma to_uint_not_D0 p u : Pos.to_uint p ≠ Decimal.D0 u.
Proof.
  intros H.
  pose proof (DecimalPos.Unsigned.to_of (Pos.to_uint p)) as Hnorm.
  rewrite DecimalPos.Unsigned.of_to in Hnorm. simpl in Hnorm.
  rewrite H in Hnorm. unfold Decimal.unorm in Hnorm. simpl in Hnorm.
  destruct (Decimal.nzhead u) eqn:Hu; try congruence.
  - apply (DecimalPos.Unsigned.to_uint_nonzero p). congruence.
  - by apply (nzhead_not_D0 u u0).
Qed.

Lemma delimited_not_digit rest : delimited rest → starts_with_digit rest = false.
Proof. destruct rest as [| c rest]; [done |]. by intros [-> | ->]. Qed.

Lemma finish_number_delimited z rest :
  delimited rest → json.finish_number z rest = Ok (json.Int z, rest).
Proof. destruct rest as [| c rest]; [done |]. by intros [-> | ->]. Qed.

Lemma scan_natural_run negative c s :
  (N_of_ascii c =? 48)%N = false → json.is_digit c = true →
  json.scan_natural negative (String c s)
  = let '(u, rest) := json.scan_digits (String c s) in
    json.finish_number
      (if negative then (- Z.of_N (N.of_uint u))%Z else Z.of_N (N.of_uint u))
      rest.
Proof. intros H0 Hd. unfold json.scan_natural. by rewrite H0, Hd. Qed.

Lemma scan_natural_pos negative p rest :
  delimited rest →
  json.scan_natural negative
    (DecimalString.NilEmpty.string_of_uint (Pos.to_uint p) +:+ rest)
  = Ok (json.Int (if negative then Z.neg p else Z.pos p), rest).
Proof.
  intros Hrest.
  pose proof (scan_digits_uint (Pos.to_uint p) rest
                (delimited_not_digit _ Hrest)) as Hscan.
  pose proof (to_uint_not_D0 p) as Hnz.
  pose proof (DecimalPos.Unsigned.to_uint_nonnil p) as Hnn.
  pose proof (DecimalPos.Unsigned.of_to p) as Hof.
  destruct (Pos.to_uint p) as [| u | u | u | u | u | u | u | u | u | u] eqn:E;
    try done; try (by destruct (Hnz u));
    simpl NilEmpty.string_of_uint in *; rewrite append_cons in *;
    rewrite scan_natural_run, Hscan by done; unfold N.of_uint; rewrite Hof;
    rewrite finish_number_delimited by done; by destruct negative.
Qed.


(** ** The first character of a value *)

Lemma starts_value_app s t : starts_value s = true → starts_value (s +:+ t) = true.
Proof. by destruct s. Qed.

Lemma digits_starts z : starts_value (json.digits z) = true.
Proof.
  destruct z as [| p | p]; [done | | done].
  unfold json.digits. simpl. unfold NilZero.string_of_uint.
  pose proof (DecimalPos.Unsigned.to_uint_nonnil p).
  by destruct (Pos.to_uint p).
Qed.

Lemma write_starts depth j : starts_value (json.write depth j) = true.
Proof.
  destruct j as [| [] | z | s | [| item items] | members]; try done.
  - apply digits_starts.
  - simpl. by destruct (decide (members = ∅)).
Qed.

Lemma skip_ws_starts s : starts_value s = true → json.skip_ws s = s.
Proof.
  destruct s as [| c s]; [done |]. simpl.
  by destruct (json.is_ws c).
Qed.

Lemma skip_ws_spaces n s : json.skip_ws (json.spaces n +:+ s) = json.skip_ws s.
Proof.
  induction n as [| n IH]; [done |].
  change (json.spaces (S n) +:+ s) with (String " " (json.spaces n +:+ s)).
  simpl. exact IH.
Qed.

Lemma skip_ws_break depth s :
  json.skip_ws (json.break depth +:+ s) = json.skip_ws s.
Proof. unfold json.break. rewrite append_cons. simpl. apply skip_ws_spaces. Qed.

(** ** The parser, case by case *)

Lemma parse_value_digit fuel c s :
  json.is_digit c = true →
  json.parse_value (S fuel) (String c s) = json.scan_natural false (String c s).
Proof.
  destruct c as [[] [] [] [] [] [] [] []]; try discriminate; reflexivity.
Qed.

Lemma parse_value_int fuel z rest :
  delimited rest →
  json.parse_value (S fuel) (json.digits z +:+ rest) = Ok (json.Int z, rest).
Proof.
  intros Hrest. destruct z as [| p | p].
  - change (json.digits 0 +:+ rest) with (String "0" rest).
    rewrite parse_value_digit by done. unfold json.scan_natural. simpl.
    by rewrite finish_number_delimited.
  - change (json.digits (Z.pos p))
      with (NilZero.string_of_uint (Pos.to_uint p)).
    pose proof (scan_natural_pos false p rest Hrest) as Hscan.
    pose proof (DecimalPos.Unsigned.to_uint_nonnil p) as Hnn.
    unfold NilZero.string_of_uint.
    destruct (Pos.to_uint p) eqn:E; try done;
      simpl NilEmpty.string_of_uint in *; rewrite append_cons in *;
      by rewrite parse_value_digit.
  - change (json.digits (Z.neg p) +:+ rest)
      with (String "-" (NilZero.string_of_uint (Pos.to_uint p) +:+ rest)).
    change (json.parse_value (S fuel) (String "-" ?s))
      with (json.scan_natural true s).
    pose proof (scan_natural_pos true p rest Hrest) as Hscan.
    pose proof (DecimalPos.Unsigned.to_uint_nonnil p) as Hnn.
    unfold NilZero.string_of_uint. by destruct (Pos.to_uint p).
Qed.

Lemma parse_value_str fuel s rest :
  json.parse_value (S fuel) (json.quote s +:+ rest) = Ok (json.Str s, rest).
Proof.
  unfold json.quote. rewrite append_cons, append_assoc.
  change (json.parse_value (S fuel) (String json.dquote ?x))
    with (match json.scan_string x with
          | Ok (str, rest) => Ok (json.Str str, rest)
          | Raise e => Raise e
          end).
  change (String json.dquote "" +:+ rest) with (String json.dquote rest).
  by rewrite scan_escape.
Qed.

Lemma parse_value_arr fuel s :
  starts_value (json.skip_ws s) = true →
  json.parse_value (S fuel) (String "[" s)
  = match json.parse_elements fuel (json.skip_ws s) with
    | Ok (vs, rest) => Ok (json.Arr vs, rest)
    | Raise e => Raise e
    end.
Proof.
  intros H.
  change (json.parse_value (S fuel) (String "[" s))
    with (match json.skip_ws s with
          | String c1 s1 =>
              if (N_of_ascii c1 =? 93)%N then Ok (json.Arr [], s1) else
              match json.parse_elements fuel (String c1 s1) with
              | Ok (vs, rest) => Ok (json.Arr vs, rest)
              | Raise e => Raise e
              end
          | "" => Raise JSONDecodeError
          end).
  destruct (json.skip_ws s) as [| c1 s1]; [done |]. simpl in H.
  by destruct (N_of_ascii c1 =? 93)%N; [rewrite andb_false_r in H |].
Qed.

Lemma parse_value_obj fuel s :
  starts_value (json.skip_ws s) = true →
  json.parse_value (S fuel) (String "{" s)
  = match json.parse_members fuel (json.skip_ws s) with
    | Ok (ms, rest) => Ok (json.Obj (list_to_map (reverse ms)), rest)
    | Raise e => Raise e
    end.
Proof.
  intros H.
  change (json.parse_value (S fuel) (String "{" s))
    with (match json.skip_ws s with
          | String c1 s1 =>
              if (N_of_ascii c1 =? 125)%N then Ok (json.Obj ∅, s1) else
              match json.parse_members fuel (String c1 s1) with
              | Ok (ms, rest) => Ok (json.Obj (list_to_map (reverse ms)), rest)
              | Raise e => Raise e
              end
          | "" => Raise JSONDecodeError
          end).
  destruct (json.skip_ws s) as [| c1 s1]; [done |]. simpl in H.
  by destruct (N_of_ascii c1 =? 125)%N; [rewrite andb_false_r in H |].
Qed.

Lemma parse_elements_eq fuel s :
  json.parse_elements (S fuel) s
  = match json.parse_value fuel s with
    | Raise e => Raise e
    | Ok (v, rest) =>
        match json.skip_ws rest with
        | String c r =>
            if (N_of_ascii c =? 93)%N then Ok ([v], r)
            else if (N_of_ascii c =? 44)%N then
              match json.parse_elements fuel (json.skip_ws r) with
              | Ok (vs, r') => Ok (v :: vs, r')
              | Raise e => Raise e
              end
            else Raise JSONDecodeError
        | "" => Raise JSONDecodeError
        end
    end.
Proof. reflexivity. Qed.

Lemma parse_members_eq fuel s :
  json.parse_members (S fuel) (String json.dquote s)
  = match json.scan_string s with
    | Raise e => Raise e
    | Ok (k, r0) =>
        match json.skip_ws r0 with
        | String c r1 =>
            if negb (N_of_ascii c =? 58)%N then Raise JSONDecodeError else
            match json.parse_value fuel (json.skip_ws r1) with
            | Raise e => Raise e
            | Ok (v, r2) =>
                match json.skip_ws r2 with
                | String c' r3 =>
                    if (N_of_ascii c' =? 125)%N then Ok ([(k, v)], r3)
                    else if (N_of_ascii c' =? 44)%N then
                      match json.parse_members fuel (json.skip_ws r3) with
                      | Ok (ms, r') => Ok ((k, v) :: ms, r')
                      | Raise e => Raise e
                      end
                    else Raise JSONDecodeError
                | "" => Raise JSONDecodeError
                end
            end
        | "" => Raise JSONDecodeError
        end
    end.
Proof. reflexivity. Qed.


(** ** Lists of items and of members *)

Lemma join_cons2 sep a b l :
  json.join sep (a :: b :: l) = a +:+ sep +:+ json.join sep (b :: l).
Proof. reflexivity. Qed.

Lemma length_starts s : starts_value s = true → 1 ≤ String.length s.
Proof. destruct s; [done |]. simpl. lia. Qed.

Lemma join_starts sep a l :
  starts_value a = true → starts_value (json.join sep (a :: l)) = true.
Proof.
  intros Ha. destruct l as [| b l]; [done |].
  rewrite join_cons2. by apply starts_value_app.
Qed.

Lemma delimited_break depth s : delimited (json.break depth +:+ s).
Proof. by right. Qed.

Lemma delimited_separator depth s : delimited (separator depth +:+ s).
Proof. by left. Qed.

Lemma skip_ws_close c rest :
  json.is_ws c = false → json.skip_ws (String c rest) = String c rest.
Proof. simpl. by intros ->. Qed.

Lemma parse_elements_join depth items :
  items ≠ [] → Forall reads items →
  ∀ fuel rest,
    2 * String.length
          (json.join (separator depth) (map (json.write (S depth)) items)) + 1
    ≤ fuel →
    json.parse_elements fuel
      (json.join (separator depth) (map (json.write (S depth)) items)
       +:+ json.break depth +:+ String "]" rest)
    = Ok (items, rest).
Proof.
  intros Hne Hreads. induction items as [| x l IH]; [done |].
  apply Forall_cons in Hreads as [Hx Hl]. intros fuel rest Hfuel.
  destruct fuel as [| fuel]; [lia |]. rewrite parse_elements_eq.
  pose proof (length_starts _ (write_starts (S depth) x)) as Hlen.
  destruct l as [| y l].
  - simpl in Hfuel |- *.
    rewrite Hx by (apply delimited_break || lia).
    rewrite skip_ws_break, skip_ws_close by done. done.
  - rewrite !map_cons, join_cons2 in Hfuel |- *.
    rewrite !length_append in Hfuel. rewrite !append_assoc.
    rewrite Hx by (apply delimited_separator || lia).
    change (separator depth +:+ ?s) with (String "," (json.break (S depth) +:+ s)).
    rewrite skip_ws_close by done.
    change (N_of_ascii "," =? 93)%N with false.
    change (N_of_ascii "," =? 44)%N with true. cbv iota.
    rewrite skip_ws_break, skip_ws_starts
      by (apply starts_value_app, join_starts, write_starts).
    rewrite <- map_cons, IH; [done | done | done |]. rewrite map_cons. lia.
Qed.

Lemma written_member_eq depth k v s :
  written_member depth (k, v) +:+ s
  = String json.dquote
      (json.escape k +:+
       String json.dquote (String ":" (String " " (json.write (S depth) v +:+ s)))).
Proof.
  unfold written_member, json.member, json.quote. simpl.
  by rewrite !append_assoc, append_cons, !append_assoc.
Qed.

Lemma written_member_starts depth kv : starts_value (written_member depth kv) = true.
Proof. done. Qed.

Lemma length_written_member depth kv :
  String.length (json.write (S depth) kv.2) + 1
  ≤ String.length (written_member depth kv).
Proof.
  unfold written_member, json.member. simpl. rewrite !length_append.
  unfold json.quote. simpl. lia.
Qed.

Lemma parse_members_join depth (ms : list (string * json.value)) :
  ms ≠ [] → Forall (λ kv, reads kv.2) ms →
  ∀ fuel rest,
    2 * String.length
          (json.join (separator depth) (map (written_member depth) ms)) + 1
    ≤ fuel →
    json.parse_members fuel
      (json.join (separator depth) (map (written_member depth) ms)
       +:+ json.break depth +:+ String "}" rest)
    = Ok (ms, rest).
Proof.
  intros Hne Hreads. induction ms as [| [k v] l IH]; [done |].
  apply Forall_cons in Hreads as [Hv Hl]. simpl in Hv.
  intros fuel rest Hfuel. destruct fuel as [| fuel]; [lia |].
  pose proof (length_written_member depth (k, v)) as Hlen.
  change ((k, v).2) with v in Hlen.
  destruct l as [| kv l].
  - simpl json.join in Hfuel |- *. rewrite written_member_eq.
    rewrite parse_members_eq, scan_escape.
    rewrite skip_ws_close by done.
    change (negb (N_of_ascii ":" =? 58)%N) with false. cbv iota.
    change (json.skip_ws (String " " ?s)) with (json.skip_ws s).
    rewrite skip_ws_starts by (apply starts_value_app, write_starts).
    rewrite Hv by (apply delimited_break || lia).
    rewrite skip_ws_break, skip_ws_close by done. done.
  - rewrite !map_cons, join_cons2 in Hfuel |- *.
    rewrite !length_append in Hfuel. rewrite !append_assoc.
    rewrite written_member_eq.
    rewrite parse_members_eq, scan_escape.
    rewrite skip_ws_close by done.
    change (negb (N_of_ascii ":" =? 58)%N) with false. cbv iota.
    change (json.skip_ws (String " " ?s)) with (json.skip_ws s).
    rewrite skip_ws_starts by (apply starts_value_app, write_starts).
    rewrite Hv by (apply delimited_separator || lia).
    change (separator depth +:+ ?s) with (String "," (json.break (S depth) +:+ s)).
    rewrite skip_ws_close by done.
    change (N_of_ascii "," =? 125)%N with false.
    change (N_of_ascii "," =? 44)%N with true. cbv iota.
    rewrite skip_ws_break, skip_ws_starts
      by (apply starts_value_app, join_starts, written_member_starts).
    rewrite <- map_cons, IH; [done | done | done |]. rewrite map_cons. lia.
Qed.


(** ** Documents *)

Lemma sorted_items_written depth (members : gmap string json.value) :
  ∃ ms : list (string * json.value),
    json.sorted_items (json.write (S depth) <$> members)
    = map (λ kv, (kv.1, json.write (S depth) kv.2)) ms ∧
    ms ≡ₚ map_to_list members.
Proof.
  unfold json.sorted_items.
  pose proof (merge_sort_Permutation json.key_le
                (map_to_list (json.write (S depth) <$> members))) as Hperm.
  rewrite map_to_list_fmap in Hperm.
  apply Permutation_map_inv in Hperm as (ms & Heq & Hms).
  exists ms. split; [| done].
  rewrite map_to_list_fmap. rewrite Heq. apply map_ext. by intros [k v].
Qed.

(** What [json.dumps] writes, [json.loads] reads back. *)
Theorem write_reads j : reads j.
Proof.
  induction j as [| b | z | s | items IH | members IH] using value_ind_deep;
    intros depth rest fuel Hrest Hfuel.
  - destruct fuel as [| fuel]; [simpl in Hfuel; lia | done].
  - destruct fuel as [| fuel]; [destruct b; simpl in Hfuel; lia |].
    by destruct b.
  - pose proof (length_starts _ (write_starts depth (json.Int z))).
    destruct fuel as [| fuel]; [lia |]. by apply parse_value_int.
  - pose proof (length_starts _ (write_starts depth (json.Str s))).
    destruct fuel as [| fuel]; [lia |]. by apply parse_value_str.
  - destruct items as [| x l].
    { destruct fuel as [| fuel]; [simpl in Hfuel; lia | done]. }
    set (items := x :: l) in *.
    change (json.write depth (json.Arr items))
      with ("[" +:+ json.break (S depth)
            +:+ json.join (separator depth) (map (json.write (S depth)) items)
            +:+ json.break depth +:+ "]") in Hfuel |- *.
    rewrite !length_append in Hfuel.
    change (String.length "[") with 1 in Hfuel.
    destruct fuel as [| fuel]; [lia |].
    rewrite !append_assoc.
    change ("[" +:+ ?s) with (String "[" s).
    change ("]" +:+ rest) with (String "]" rest).
    assert (starts_value
              (json.join (separator depth) (map (json.write (S depth)) items)
               +:+ json.break depth +:+ String "]" rest) = true) as Hstart
      by (apply starts_value_app, join_starts, write_starts).
    rewrite parse_value_arr; rewrite skip_ws_break, skip_ws_starts by done;
      [| done].
    rewrite parse_elements_join; [done | done | done | lia].
  - simpl json.write in Hfuel |- *.
    destruct (decide (members = ∅)) as [-> | Hne].
    { destruct fuel as [| fuel]; [simpl in Hfuel; lia | done]. }
    destruct (sorted_items_written depth members) as (ms & Heq & Hperm).
    rewrite Heq in Hfuel |- *. rewrite map_map in Hfuel |- *.
    change (map (λ x, json.member (x.1, json.write (S depth) x.2)) ms)
      with (map (written_member depth) ms) in Hfuel |- *.
    change ("," +:+ json.break (S depth)) with (separator depth) in Hfuel |- *.
    assert (ms ≠ []) as Hms.
    { intros ->. apply Permutation_nil_l in Hperm. symmetry in Hperm.
      by apply map_to_list_empty_iff in Hperm. }
    assert (Forall (λ kv, reads kv.2) ms) as Hreads.
    { apply Forall_forall. intros [k v] Hin. rewrite Hperm in Hin.
      apply elem_of_map_to_list in Hin. by apply (IH k v). }
    rewrite !length_append in Hfuel.
    change (String.length "{") with 1 in Hfuel.
    destruct fuel as [| fuel]; [lia |].
    rewrite !append_assoc.
    change ("{" +:+ ?s) with (String "{" s).
    change ("}" +:+ rest) with (String "}" rest).
    assert (starts_value
              (json.join (separator depth) (map (written_member depth) ms)
               +:+ json.break depth +:+ String "}" rest) = true) as Hstart.
    { destruct ms as [| kv ms]; [done |].
      apply starts_value_app, join_starts, written_member_starts. }
    rewrite parse_value_obj; rewrite skip_ws_break, skip_ws_starts by done;
      [| done].
    rewrite parse_members_join; [| done | done | lia].
    do 3 f_equal.
    rewrite (list_to_map_proper _ (map_to_list members)).
    + apply list_to_map_to_list.
    + rewrite reverse_Permutation, Hperm. apply NoDup_fst_map_to_list.
    + by rewrite reverse_Permutation.
Qed.

Theorem loads_dumps j : json.loads (json.dumps j) = Ok j.
Proof.
  unfold json.loads, json.dumps.
  rewrite skip_ws_starts by apply write_starts.
  pose proof (write_reads j 0 "" (2 * String.length (json.write 0 j) + 2) I)
    as Hread.
  rewrite append_nil_r in Hread. by rewrite Hread by lia.
Qed.

(** ** The encoder and what values denote *)

(** The encoder gives a document only for a value that denotes it. *)
Lemma encode_value_denotes h j : ∀ v fuel markers,
  encode_value h fuel markers v = Ok j → denotes h v j.
Proof.
  induction j as [| b | z | s | items IH | members IH] using value_ind_deep;
    intros v fuel markers H;
    (destruct v as [| b' | z' | s' | vs | l];
     [by (destruct fuel; simplify_eq/=; constructor) .. | |]).
  all: try (rewrite encode_value_list in H;
            destruct (mapM _ vs) as [js |] eqn:Hjs; by simplify_eq).
  all: try (destruct fuel as [| fuel]; simpl in H;
            (destruct (decide (l ∈ markers)); [done |]); [done |];
            destruct (h !! l) as [d |] eqn:Hl; [| done];
            destruct (map_mapM _ d) as [ms |] eqn:Hms; by simplify_eq).
  - rewrite encode_value_list in H.
    destruct (mapM _ vs) as [js |] eqn:Hjs; simplify_eq.
    constructor. apply mapM_Ok in Hjs.
    eapply Forall2_impl_right; [| exact Hjs].
    eapply Forall_impl; [exact IH |]. simpl. eauto.
  - destruct fuel as [| fuel]; simpl in H;
      (destruct (decide (l ∈ markers)); [done |]); [done |].
    destruct (h !! l) as [d |] eqn:Hl; [| done].
    destruct (map_mapM _ d) as [ms |] eqn:Hms; simplify_eq.
    econstructor; [done |]. intros k.
    eapply option_Forall2_impl; [by apply map_mapM_Ok |].
    intros a b' _ Hb Hab. simpl in Hab. by eapply IH.
Qed.

(** A value denotes a document exactly when [json.dump] writes it. *)
Lemma encode_denotes h v j : encode h v = Ok j ↔ denotes h v j.
Proof.
  split; [apply encode_value_denotes | apply denotes_encode].
Qed.

Lemma deep_equal_sym h v v' : deep_equal h v v' → deep_equal h v' v.
Proof. intros (j & ? & ?). by exists j. Qed.

(** * Saving and loading the config *)

(** When the way to the config directory is clear, [setup_config_dir]
    returns with the directory there and touches nothing off the way. *)
Lemma setup_config_dir_makes env w k :
  dirs_then_nothing (fs w) (config_dir_place env) k →
  ∃ w1, setup_config_dir env w = (Ok tt, w1) ∧
        (∀ q, q `prefix_of` config_dir_place env →
              os.stat (fs w1) q = Some Dir) ∧
        (∀ q, ¬ q `prefix_of` config_dir_place env → fs w1 !! q = fs w !! q) ∧
        heap w1 = heap w ∧ net w1 = net w ∧ logged w1 = logged w.
Proof.
  intros Hway. destruct (decide (length (config_dir_place env) ≤ k)) as [Hle | Hgt].
  - exists w. rewrite setup_config_dir_present
      by (by apply (Hway (config_dir_place env))).
    split_and!; try done. intros q Hq. apply (Hway q Hq).
    apply prefix_length in Hq. lia.
  - rewrite setup_config_dir_missing
      by (apply (Hway (config_dir_place env)); [done | lia]).
    destruct (makedirs_rev_makes (reverse (config_dir_place env)) w k)
      as (w1 & Hrun & Hmade & Hrest & Hh & Hn & Hl).
    { by rewrite reverse_involutive. }
    { rewrite length_reverse. lia. }
    rewrite reverse_involutive in Hmade, Hrest. by exists w1.
Qed.

Lemma config_file_place_nonempty env : config_file_place env ≠ [].
Proof. rewrite config_file_in_config_dir. by destruct (config_dir_place env). Qed.

Lemma config_file_not_on_the_way env :
  ¬ config_file_place env `prefix_of` config_dir_place env.
Proof.
  intros H%prefix_length. rewrite config_file_in_config_dir, length_app in H.
  simpl in H. lia.
Qed.

(** The run of [save_config] when nothing is in its way. *)
Lemma save_config_run env config w j k :
  os.stat (fs w) (config_file_place env) ≠ Some Dir →
  dirs_then_nothing (fs w) (config_dir_place env) k →
  encode (heap w) (VDict config) = Ok j →
  ∃ w1, setup_config_dir env w = (Ok tt, w1) ∧
        os.stat (fs w1) (config_dir_place env) = Some Dir ∧
        heap w1 = heap w ∧ net w1 = net w ∧ logged w1 = logged w ∧
        save_config env config w
        = (Ok tt,
           set_fs (<[config_file_place env := File (Some (json.dumps j))]>
                     (fs w1)) w1).
Proof.
  intros Hfile Hway Hj.
  destruct (setup_config_dir_makes env w k Hway)
    as (w1 & Hsetup & Hmade & Hrest & Hh & Hn & Hl).
  exists w1. split; [done |]. split; [by apply Hmade |].
  split; [done |]. split; [done |]. split; [done |].
  assert (os.stat (fs w1) (config_file_place env)
          = os.stat (fs w) (config_file_place env)) as Hsame.
  { pose proof (config_file_place_nonempty env).
    destruct (config_file_place env) eqn:E; [done |]. simpl.
    rewrite <- E. apply Hrest. rewrite E. rewrite <- E.
    apply config_file_not_on_the_way. }
  unfold save_config.
  rewrite (bind_Ok _ _ w false w).
  2:{ unfold os.path_isdir. fold (config_file_place env).
      by destruct (os.stat (fs w) (config_file_place env)) as [[] |]. }
  rewrite (bind_Ok _ _ w tt w) by done.
  rewrite (bind_Ok _ _ w tt w1) by done.
  rewrite (bind_Ok _ _ w1 (config_file_place env)
             (set_fs (<[config_file_place env := File (Some "")]> (fs w1)) w1)).
  2:{ unfold os.open_w. fold (config_file_place env).
      rewrite parent_config_file, (Hmade (config_dir_place env)) by done.
      rewrite Hsame.
      by destruct (os.stat (fs w) (config_file_place env)) as [[] |]. }
  unfold json_dump, bind, get_heap. simpl. rewrite Hh, Hj.
  unfold os.set_content. simpl. by rewrite insert_insert_eq.
Qed.

(** [get_config] on a file that holds a written document. *)
Lemma get_config_reads env w j :
  os.stat (fs w) (config_file_place env)
  = Some (File (Some (json.dumps j))) →
  ∃ v w', get_config env w = (Ok v, w') ∧ denotes (heap w') v j ∧
          only_allocates w w'.
Proof.
  intros Hfile. destruct (decode_denotes j w) as (v & w' & Hrun & Hden & Hw).
  exists v, w'. split; [| done].
  unfold get_config.
  rewrite (bind_Ok _ _ w false w)
    by (unfold os.path_isdir; fold (config_file_place env); by rewrite Hfile).
  rewrite (bind_Ok _ _ w tt w) by done.
  rewrite (bind_Ok _ _ w true w)
    by (unfold os.path_isfile; fold (config_file_place env); by rewrite Hfile).
  cbv iota.
  rewrite (bind_Ok _ _ w (Some (json.dumps j)) w)
    by (unfold os.open_r; fold (config_file_place env); by rewrite Hfile).
  unfold json_load. by rewrite loads_dumps.
Qed.

(** ** What is written *)

#[local] Instance key_le_transitive {A} : Transitive (@json.key_le A).
Proof. intros a b c. unfold json.key_le. apply transitivity. Qed.

#[local] Instance key_le_total {A} : Total (@json.key_le A).
Proof. intros a b. unfold json.key_le. apply total, _. Qed.

(** The members of an object are written in the order of their keys, each
    of them once. *)
Lemma sorted_items_sorted {A} (m : gmap string A) :
  StronglySorted json.key_le (json.sorted_items m) ∧
  json.sorted_items m ≡ₚ map_to_list m.
Proof.
  split; [apply StronglySorted_merge_sort; apply _ |].
  apply merge_sort_Permutation.
Qed.

(** An object with members is written over several lines: each member on a
    line of its own, indented by four spaces for each level of nesting. *)
Lemma write_object depth (members : gmap string json.value) :
  members ≠ ∅ →
  json.write depth (json.Obj members)
  = "{" +:+ String json.newline (json.spaces (4 * S depth))
    +:+ json.join ("," +:+ String json.newline (json.spaces (4 * S depth)))
          (map json.member
               (json.sorted_items (json.write (S depth) <$> members)))
    +:+ String json.newline (json.spaces (4 * depth)) +:+ "}".
Proof. intros H. simpl. by rewrite decide_False. Qed.


Lemma denotes_full_document :
  denotes (examples.with_record examples.full_record)
    (VDict examples.config) examples.full_document.
Proof. apply encode_denotes. by_evaluation. Qed.

Lemma clear_way_at_home h :
  dirs_then_nothing (fs (examples.at_home h))
    (config_dir_place examples.env) 2.
Proof.
  apply dirs_then_nothing_take. intros n Hn.
  change (length (config_dir_place examples.env)) with 4 in Hn.
  do 5 (destruct n as [| n]; [split; intros; first [lia | by_evaluation] |]).
  lia.
Qed.


Lemma bind_Ok_inv {A B} (m : M A) (k : A → M B) w b w' :
  bind m k w = (Ok b, w') → ∃ a w0, m w = (Ok a, w0) ∧ k a w0 = (Ok b, w').
Proof. unfold bind. destruct (m w) as [[a | e] w0]; [eauto | done]. Qed.

(** The calls of the operating system leave the heap alone. *)
Lemma mkdir_at_heap p w r w' : os.mkdir_at p w = (r, w') → heap w' = heap w.
Proof.
  unfold os.mkdir_at. intros H.
  destruct (os.stat (fs w) p); [by simplify_eq |].
  destruct (os.stat (fs w) (os.parent p)) as [[| c] |]; by simplify_eq.
Qed.

Lemma makedirs_rev_heap rp : ∀ w r w',
  os.makedirs_rev rp w = (r, w') → heap w' = heap w.
Proof.
  induction rp as [| t rhead IH]; intros w r w' H; simpl in H.
  - by apply mkdir_at_heap in H.
  - unfold bind in H.
    destruct (bool_decide (is_Some (os.stat (fs w) (reverse rhead)))).
    + by apply mkdir_at_heap in H.
    + unfold os.pass_FileExistsError in H.
      destruct (os.makedirs_rev rhead w) as [[[] | e0] w0] eqn:Hrec;
        apply IH in Hrec.
      * apply mkdir_at_heap in H. congruence.
      * destruct e0; first [apply mkdir_at_heap in H | simplify_eq];
          congruence.
Qed.

Lemma setup_config_dir_heap env w r w' :
  setup_config_dir env w = (r, w') → heap w' = heap w.
Proof.
  destruct (os.stat (fs w) (config_dir_place env)) as [[| content] |] eqn:Hs.
  - rewrite (setup_config_dir_present _ _ Hs). by intros [= _ <-].
  - rewrite (setup_config_dir_blocked _ _ _ Hs). by intros [= _ <-].
  - rewrite (setup_config_dir_missing _ _ Hs). apply makedirs_rev_heap.
Qed.

(** Whenever [save_config] returns, the config file holds the document of
    the config. *)
Lemma save_config_returned env config w j w1 :
  denotes (heap w) (VDict config) j →
  save_config env config w = (Ok tt, w1) →
  os.stat (fs w1) (config_file_place env) = Some (File (Some (json.dumps j)))
  ∧ heap w1 = heap w.
Proof.
  intros Hj%denotes_encode Hsave. unfold save_config in Hsave.
  apply bind_Ok_inv in Hsave as (isdir & wa & Hisdir & Hsave).
  unfold os.path_isdir in Hisdir. injection Hisdir as <- <-.
  apply bind_Ok_inv in Hsave as ([] & wb & Hraise & Hsave).
  destruct (match os.stat (fs w) (os.resolve env (get_config_path env)) with
            | Some Dir => true
            | _ => false
            end); [done |].
  injection Hraise as <-.
  apply bind_Ok_inv in Hsave as ([] & wc & Hsetup & Hsave).
  apply setup_config_dir_heap in Hsetup.
  apply bind_Ok_inv in Hsave as (file & wd & Hopen & Hdump).
  assert (file = config_file_place env ∧ heap wd = heap wc) as [-> Hwd].
  { unfold os.open_w in Hopen. fold (config_file_place env) in Hopen.
    destruct (os.stat (fs wc) (config_file_place env)) as [[| c] |];
      try done;
      destruct (os.stat (fs wc) (os.parent (config_file_place env)))
        as [[| c'] |]; by simplify_eq. }
  unfold json_dump, bind, get_heap in Hdump. simpl in Hdump.
  rewrite Hwd, Hsetup, Hj in Hdump. unfold os.set_content in Hdump.
  injection Hdump as <-. simpl.
  split; [| congruence].
  apply stat_insert_eq, config_file_place_nonempty.
Qed.



Lemma config_path_directory_conflict_witness :
  let w := {| heap := ∅; fs := examples.directory_in_the_way;
              net := []; logged := [] |} in
  let w0 := examples.at_home ∅ in
  os.stat (fs w) (config_file_place examples.env) = Some Dir ∧
  (∃ e, e = RuntimeError (directory_conflict examples.env) ∧
        is_RuntimeError e = true ∧ is_OSError e = false ∧
        (get_config examples.env w).1 = Raise e ∧
        (∀ config, (save_config examples.env config w).1 = Raise e) ∧
        logged (get_config examples.env w).2
        = logged w ++ [directory_conflict examples.env]) ∧
  os.stat (fs w0) (config_file_place examples.env) = None ∧
  ∃ l w', get_config examples.env w0 = (Ok (VDict l), w') ∧
          heap w0 !! l = None ∧ heap w' !! l = Some ∅ ∧
          heap w0 ⊆ heap w' ∧ fs w' = fs w0.
Proof.
  intros w w0.
  assert (os.stat (fs w) (config_file_place examples.env) = Some Dir) as Hdir
    by by_evaluation.
  assert (os.stat (fs w0) (config_file_place examples.env) = None) as Hnone
    by by_evaluation.
  split; [exact Hdir |].
  split; [exact (proj1 (config_path_directory_conflict examples.env w) Hdir) |].
  split; [exact Hnone |].
  exact (proj2 (config_path_directory_conflict examples.env w0) Hnone).
Defined.

(** * The frame of stashing *)

(** A config that denotes a document does not hold itself. *)
Lemma json_compatible_not_self h config d k :
  json_compatible h config → h !! config = Some d →
  d !! k ≠ Some (VDict config).
Proof.
  intros [j Hj] Hd Hk. inversion Hj as [| | | | | l d' m Hd' Hm]; subst.
  rewrite Hd in Hd'. injection Hd' as <-.
  specialize (Hm k). rewrite Hk in Hm.
  inversion Hm as [v j' Hj' Hv Hmk |]; subst.
  pose proof (denotes_functional _ _ _ _ Hj' Hj) as ->.
  symmetry in Hmk. apply height_member in Hmk. lia.
Qed.

(** C10. For every config mapping (a live dict whose content is
    JSON-compatible), [stash_google_credentials] leaves the value of every
    top-level key other than ["oauth"] as it was, and when
    [config["oauth"]] was a mapping it is still that mapping, with every
    key other than ["google"] as it was; no other dict object is changed. *)
Theorem stash_frame w config credentials d :
  heap w !! config = Some d →
  json_compatible (heap w) config →
  let w' := (stash_google_credentials config credentials w).2 in
  (∀ k, k ≠ "oauth" → deref (heap w') config !! k = d !! k) ∧
  (∀ o od, d !! "oauth" = Some (VDict o) → heap w !! o = Some od →
     deref (heap w') config !! "oauth" = Some (VDict o) ∧
     ∀ k, k ≠ "google" → deref (heap w') o !! k = od !! k) ∧
  (∀ l, is_Some (heap w !! l) → l ≠ config → d !! "oauth" ≠ Some (VDict l) →
     heap w' !! l = heap w !! l).
Proof.
  intros Hd Hjson.
  pose proof (stash_frame_heap w config credentials d Hd
                (json_compatible_not_self _ _ _ _ Hjson Hd)) as H.
  simpl in H |- *. by destruct H as (? & ? & ? & _).
Qed.

Lemma stash_frame_witness :
  let w := examples.world_of (examples.with_record examples.full_record) in
  let d : gmap string val := {[ "oauth" := VDict 2%positive ]} in
  heap w !! examples.config = Some d ∧
  json_compatible (heap w) examples.config ∧
  let w' := (stash_google_credentials examples.config
               examples.some_credentials w).2 in
  (∀ k, k ≠ "oauth" → deref (heap w') examples.config !! k = d !! k) ∧
  (∀ o od, d !! "oauth" = Some (VDict o) → heap w !! o = Some od →
     deref (heap w') examples.config !! "oauth" = Some (VDict o) ∧
     ∀ k, k ≠ "google" → deref (heap w') o !! k = od !! k) ∧
  (∀ l, is_Some (heap w !! l) → l ≠ examples.config →
     d !! "oauth" ≠ Some (VDict l) → heap w' !! l = heap w !! l).
Proof.
  intros w d.
  assert (heap w !! examples.config = Some d) as Hd by by_evaluation.
  assert (json_compatible (heap w) examples.config) as Hjson
    by (exists examples.full_document; exact denotes_full_document).
  split; [exact Hd |]. split; [exact Hjson |].
  exact (stash_frame w examples.config examples.some_credentials d Hd Hjson).
Defined.

(** A config that holds itself under ["oauth"] is not a config mapping of
    the specification, and stashing into it does change another top-level
    key: ["google"]. *)
Lemma stash_self_reference :
  let w := examples.world_of examples.self_reference in
  deref (heap w) examples.config !! "google" = None ∧
  deref (heap (stash_google_credentials examples.config
                 examples.some_credentials w).2) examples.config !! "google"
  = Some (VDict 2%positive).
Proof. split; by_evaluation. Qed.

(* ================================================================= *)
(** * Further properties of the code *)

(** * What the functions leave alone *)

Lemma only_makes_dirs_refl way w : only_makes_dirs way w w.
Proof.
  unfold only_makes_dirs. split_and!; try done.
  intros p Hnone [n Hn]. congruence.
Qed.

Lemma only_makes_dirs_trans way w1 w2 w3 :
  only_makes_dirs way w1 w2 → only_makes_dirs way w2 w3 →
  only_makes_dirs way w1 w3.
Proof.
  intros (Hsub1 & Hnew1 & Hh1 & Hn1) (Hsub2 & Hnew2 & Hh2 & Hn2).
  unfold only_makes_dirs. split_and!; try congruence; [by etrans |].
  intros p Hnone Hsome.
  destruct (fs w2 !! p) as [n |] eqn:Hp2; [| by apply Hnew2].
  destruct (Hnew1 p Hnone) as [Hdir Hpre]; [by rewrite Hp2 |].
  split; [| done]. eapply lookup_weaken; [| exact Hsub2]. congruence.
Qed.

Lemma only_makes_dirs_weaken way way' w w' :
  way `prefix_of` way' → only_makes_dirs way w w' → only_makes_dirs way' w w'.
Proof.
  intros Hpre (Hsub & Hnew & Hh & Hn).
  unfold only_makes_dirs. split_and!; try done.
  intros p Hnone Hsome. destruct (Hnew p Hnone Hsome) as [Hdir Hp].
  split; [done | by etrans].
Qed.

Lemma mkdir_at_only_makes p w :
  only_makes_dirs p w (os.mkdir_at p w).2 ∧
  logged (os.mkdir_at p w).2 = logged w.
Proof.
  unfold os.mkdir_at.
  destruct (os.stat (fs w) p) as [n |] eqn:Hp;
    [split; [apply only_makes_dirs_refl | done] |].
  destruct (os.stat (fs w) (os.parent p)) as [[| c] |];
    try (split; [apply only_makes_dirs_refl | done]).
  apply stat_None_lookup in Hp as [Hp _]. simpl.
  split; [| done]. unfold only_makes_dirs; simpl. split_and!; try done.
  - by apply insert_subseteq.
  - intros q Hq Hsome. destruct (decide (p = q)) as [<- | Hne].
    + by rewrite lookup_insert_eq.
    + rewrite lookup_insert_ne in Hsome by done. rewrite Hq in Hsome.
      by destruct Hsome.
Qed.

(** Whatever [os.makedirs] does, it at most makes directories on the way
    to its argument. *)
Lemma makedirs_rev_only_makes rp : ∀ w,
  only_makes_dirs (reverse rp) w (os.makedirs_rev rp w).2 ∧
  logged (os.makedirs_rev rp w).2 = logged w.
Proof.
  induction rp as [| t rhead IH]; intros w; [apply mkdir_at_only_makes |].
  simpl. unfold bind.
  assert (reverse rhead `prefix_of` reverse (t :: rhead)) as Hpre
    by (rewrite reverse_cons; by apply prefix_app_r).
  destruct (bool_decide (is_Some (os.stat (fs w) (reverse rhead)))).
  - apply mkdir_at_only_makes.
  - unfold os.pass_FileExistsError.
    destruct (IH w) as [Hrec Hlog].
    destruct (os.makedirs_rev rhead w) as [[[] | e] w0]; simpl in *.
    + destruct (mkdir_at_only_makes (reverse (t :: rhead)) w0) as [Hm Hl].
      split; [| congruence].
      eapply only_makes_dirs_trans; [| exact Hm].
      by eapply only_makes_dirs_weaken.
    + assert (only_makes_dirs (reverse (t :: rhead)) w w0) as Hrec'
        by (by eapply only_makes_dirs_weaken).
      destruct e; simpl; try done.
      destruct (mkdir_at_only_makes (reverse (t :: rhead)) w0) as [Hm Hl].
      split; [| congruence].
      by eapply only_makes_dirs_trans.
Qed.

Lemma setup_config_dir_only_makes env w :
  only_makes_dirs (config_dir_place env) w (setup_config_dir env w).2.
Proof.
  destruct (os.stat (fs w) (config_dir_place env)) as [[| content] |] eqn:Hs.
  - rewrite (setup_config_dir_present _ _ Hs). apply only_makes_dirs_refl.
  - rewrite (setup_config_dir_blocked _ _ _ Hs). simpl.
    unfold only_makes_dirs; simpl. split_and!; try done.
    intros p Hnone [n Hn]. congruence.
  - rewrite (setup_config_dir_missing _ _ Hs).
    pose proof (makedirs_rev_only_makes (reverse (config_dir_place env)) w)
      as [H _].
    by rewrite reverse_involutive in H.
Qed.

(** X1. Whatever [setup_config_dir] does, returning or raising, it at most
    makes directories on the way to the config directory: no entry of the
    file system is removed or changed, every new entry is a directory that
    leads to the config directory, and the heap and the network log are
    not touched. *)
Theorem setup_config_dir_only_makes_directories env w :
  fs w ⊆ fs (setup_config_dir env w).2 ∧
  (∀ p, fs w !! p = None → is_Some (fs (setup_config_dir env w).2 !! p) →
        fs (setup_config_dir env w).2 !! p = Some Dir ∧
        p `prefix_of` config_dir_place env) ∧
  heap (setup_config_dir env w).2 = heap w ∧
  net (setup_config_dir env w).2 = net w.
Proof. apply setup_config_dir_only_makes. Qed.

(** A run is its result and the world it leaves. *)
Lemma run_result {A} (m : M A) w r : (m w).1 = r → m w = (r, (m w).2).
Proof. intros <-. by destruct (m w). Qed.

(** ** The config file, whatever it holds *)

Lemma json_load_only_allocates content w :
  only_allocates w (json_load content w).2.
Proof.
  destruct content as [text |]; simpl; [| apply only_allocates_refl].
  destruct (json.loads text) as [j | e]; [| apply only_allocates_refl].
  by destruct (decode_denotes j w) as (v & w' & -> & _ & Hw).
Qed.

(** Where a file is at the config path, [get_config] is [json.load] on
    what it holds. *)
Lemma get_config_file env w content :
  os.stat (fs w) (config_file_place env) = Some (File content) →
  get_config env w = json_load content w.
Proof.
  intros Hfile. unfold get_config.
  rewrite (bind_Ok _ _ w false w)
    by (unfold os.path_isdir; fold (config_file_place env); by rewrite Hfile).
  rewrite (bind_Ok _ _ w tt w) by done.
  rewrite (bind_Ok _ _ w true w)
    by (unfold os.path_isfile; fold (config_file_place env); by rewrite Hfile).
  cbv iota.
  by rewrite (bind_Ok _ _ w content w)
    by (unfold os.open_r; fold (config_file_place env); by rewrite Hfile).
Qed.

(** X6. Whatever [get_config] does, returning or raising, it writes
    nothing: the file system is as it was (in particular the config
    directory is not made when it is missing), every dict object is as it
    was, and nothing is asked of the network. *)
Theorem get_config_never_writes env w :
  fs (get_config env w).2 = fs w ∧
  heap w ⊆ heap (get_config env w).2 ∧
  net (get_config env w).2 = net w.
Proof.
  destruct (os.stat (fs w) (config_file_place env)) as [[| content] |] eqn:Hs.
  - by rewrite (get_config_conflict _ _ Hs).
  - rewrite (get_config_file _ _ _ Hs).
    by destruct (json_load_only_allocates content w) as (? & ? & ? & _).
  - rewrite (get_config_missing _ _ Hs). simpl.
    split_and!; auto using alloc_subseteq.
Qed.

(** The members of an object are built by allocation only. *)
Lemma decode_members_only_allocates (members : gmap string json.value) :
  ∀ w, only_allocates w
         (map_fold (λ k member (acc : M (gmap string val)),
                      bind acc (λ d,
                      bind (decode member) (λ v, ret (<[k := v]> d))))
                   (ret ∅) members w).2.
Proof.
  apply (map_fold_weak_ind
           (λ (acc : M (gmap string val)) (_ : gmap string json.value),
              ∀ w, only_allocates w (acc w).2)).
  - intros w. apply only_allocates_refl.
  - intros k member m acc _ IH w. unfold bind.
    specialize (IH w). destruct (acc w) as [[d | e] w0]; [| done].
    destruct (decode_denotes member w0) as (v & w1 & -> & _ & Hw1).
    simpl in *. by eapply only_allocates_trans.
Qed.

(** A mapping built by [json.load] is a new dict object. *)
Lemma decode_new_object j w l w' :
  decode j w = (Ok (VDict l), w') →
  heap w !! l = None ∧ is_Some (heap w' !! l).
Proof.
  destruct j as [| b | z | s | items | members]; try done.
  - rewrite decode_arr. intros (vs & w0 & _ & H)%bind_Ok_inv. done.
  - rewrite decode_obj. intros (d & w0 & Hd & H)%bind_Ok_inv.
    pose proof (decode_members_only_allocates members w) as Hw.
    rewrite Hd in Hw. destruct Hw as (Hsub & _).
    unfold bind, alloc, ret in H. simpl in H. injection H as <- <-. simpl.
    split; [| by rewrite lookup_insert_eq].
    eapply lookup_weaken_None; [apply fresh_lookup | exact Hsub].
Qed.

(** X7. A mapping returned by [get_config] is a dict object that did not
    exist before the call, whether the config was read from the file or
    not; so two calls never return the same object, and changing one
    config in place changes no other. *)
Theorem get_config_returns_new_object env w l w' :
  get_config env w = (Ok (VDict l), w') →
  heap w !! l = None ∧ is_Some (heap w' !! l) ∧
  ∀ l' w'', get_config env w' = (Ok (VDict l'), w'') → l' ≠ l.
Proof.
  assert (∀ w l w', get_config env w = (Ok (VDict l), w') →
                    heap w !! l = None ∧ is_Some (heap w' !! l)) as Hnew.
  { clear. intros w l w' Hrun.
    destruct (os.stat (fs w) (config_file_place env)) as [[| content] |] eqn:Hs.
    - by rewrite (get_config_conflict _ _ Hs) in Hrun.
    - rewrite (get_config_file _ _ _ Hs) in Hrun.
      destruct content as [text |]; [| done]. simpl in Hrun.
      destruct (json.loads text) as [j | e]; [| done].
      by apply decode_new_object in Hrun.
    - rewrite (get_config_missing _ _ Hs) in Hrun.
      injection Hrun as <- <-. simpl.
      split; [apply fresh_lookup | by rewrite lookup_insert_eq]. }
  intros Hrun. destruct (Hnew _ _ _ Hrun) as [Hl Hl'].
  split; [done |]. split; [done |].
  intros l' w'' Hrun' ->. apply Hnew in Hrun' as [Hnone _].
  rewrite Hnone in Hl'. by destruct Hl'.
Qed.

Lemma get_config_returns_new_object_witness :
  let w := world_with ∅ (home_with_config (Some "{}")) in
  let w' := (get_config examples.env w).2 in
  get_config examples.env w = (Ok (VDict 1%positive), w') ∧
  heap w !! 1%positive = None ∧ is_Some (heap w' !! 1%positive) ∧
  ∀ l' w'', get_config examples.env w' = (Ok (VDict l'), w'') →
            l' ≠ 1%positive.
Proof.
  intros w w'.
  assert (get_config examples.env w = (Ok (VDict 1%positive), w')) as Hrun
    by (apply (run_result (get_config examples.env) w); by_evaluation).
  split; [exact Hrun |].
  exact (get_config_returns_new_object examples.env w 1%positive w' Hrun).
Defined.

(** The parser turns away a text with nothing in it. *)
Lemma loads_blank text :
  json.skip_ws text = "" → json.loads text = Raise JSONDecodeError.
Proof.
  intros H. unfold json.loads. rewrite H.
  by replace (2 * String.length text + 2) with (S (2 * String.length text + 1))
    by lia.
Qed.



(** ** Saving, whatever happens *)

(** Past the test for a directory at the config path, [save_config] is the
    setup of the config directory followed by the writing of the file. *)
Lemma save_config_no_conflict env config w :
  os.stat (fs w) (config_file_place env) ≠ Some Dir →
  save_config env config w
  = bind (setup_config_dir env)
      (λ _, bind (os.open_w env (get_config_path env))
              (λ file, json_dump (VDict config) file)) w.
Proof.
  intros Hfile. unfold save_config.
  rewrite (bind_Ok _ _ w false w).
  2:{ unfold os.path_isdir. fold (config_file_place env).
      by destruct (os.stat (fs w) (config_file_place env)) as [[] |]. }
  by rewrite (bind_Ok _ _ w tt w) by done.
Qed.

(** The writing of the config file, case by case. *)
Lemma write_config_run env config w :
  bind (os.open_w env (get_config_path env))
    (λ file, json_dump (VDict config) file) w
  = match os.stat (fs w) (config_file_place env),
          os.stat (fs w) (config_dir_place env) with
    | Some Dir, _ => (Raise IsADirectoryError, w)
    | _, Some Dir =>
        match encode (heap w) (VDict config) with
        | Ok j =>
            (Ok tt,
             set_fs (<[config_file_place env := File (Some (json.dumps j))]>
                       (fs w)) w)
        | Raise e =>
            (Raise e,
             set_fs (<[config_file_place env := File None]> (fs w)) w)
        end
    | _, Some (File _) => (Raise NotADirectoryError, w)
    | _, None => (Raise FileNotFoundError, w)
    end.
Proof.
  unfold bind, os.open_w. fold (config_file_place env).
  rewrite parent_config_file.
  assert (∀ w0 : world,
    json_dump (VDict config) (config_file_place env)
      (set_fs (<[config_file_place env := File (Some "")]> (fs w0)) w0)
    = match encode (heap w0) (VDict config) with
      | Ok j =>
          (Ok tt,
           set_fs (<[config_file_place env := File (Some (json.dumps j))]>
                     (fs w0)) w0)
      | Raise e =>
          (Raise e, set_fs (<[config_file_place env := File None]> (fs w0)) w0)
      end) as Hdump.
  { intros w0. unfold json_dump, bind, get_heap. simpl.
    destruct (encode (heap w0) (VDict config)) as [j | e];
      unfold os.set_content, raise; simpl; by rewrite insert_insert_eq. }
  destruct (os.stat (fs w) (config_file_place env)) as [[| c] |];
    destruct (os.stat (fs w) (config_dir_place env)) as [[| c'] |];
    try done; apply Hdump.
Qed.

(** X9. Whatever [save_config] does, returning or raising, the only entry
    of the file system it can change is the config file: every other entry
    stays as it was, every other new entry is a directory on the way to the
    config directory, and the heap (so the config itself) and the network
    log are not touched. *)
Theorem save_config_touches_only_its_path env config w :
  (∀ p, p ≠ config_file_place env → is_Some (fs w !! p) →
        fs (save_config env config w).2 !! p = fs w !! p) ∧
  (∀ p, p ≠ config_file_place env → fs w !! p = None →
        is_Some (fs (save_config env config w).2 !! p) →
        fs (save_config env config w).2 !! p = Some Dir ∧
        p `prefix_of` config_dir_place env) ∧
  heap (save_config env config w).2 = heap w ∧
  net (save_config env config w).2 = net w.
Proof.
  assert (∀ w1 w',
    only_makes_dirs (config_dir_place env) w w1 →
    (∀ p, p ≠ config_file_place env → fs w' !! p = fs w1 !! p) →
    heap w' = heap w1 → net w' = net w1 →
    (∀ p, p ≠ config_file_place env → is_Some (fs w !! p) →
          fs w' !! p = fs w !! p) ∧
    (∀ p, p ≠ config_file_place env → fs w !! p = None →
          is_Some (fs w' !! p) →
          fs w' !! p = Some Dir ∧ p `prefix_of` config_dir_place env) ∧
    heap w' = heap w ∧ net w' = net w) as Hframe.
  { intros w1 w' (Hsub & Hnew & Hh & Hn) Hfs Hh' Hn'.
    split_and!; try congruence.
    - intros p Hp [n Hsome]. rewrite Hfs, Hsome by done.
      by eapply lookup_weaken.
    - intros p Hp Hnone. rewrite Hfs by done. by apply Hnew. }
  assert (os.stat (fs w) (config_file_place env) = Some Dir ∨
          os.stat (fs w) (config_file_place env) ≠ Some Dir) as [Hdir | Hfile]
    by (destruct (os.stat (fs w) (config_file_place env)) as [[| c] |];
        auto).
  { rewrite (save_config_conflict _ _ _ Hdir). simpl.
    by apply (Hframe w); [apply only_makes_dirs_refl | ..]. }
  rewrite (save_config_no_conflict _ _ _ Hfile).
  pose proof (setup_config_dir_only_makes env w) as Hsetup.
  destruct (setup_config_dir env w) as [[[] | e] w1] eqn:Hrun;
    simpl in Hsetup;
    [rewrite (bind_Ok _ _ _ _ _ Hrun)
    | rewrite (bind_Raise _ _ _ _ _ Hrun); by apply (Hframe w1)].
  rewrite write_config_run.
  destruct (os.stat (fs w1) (config_file_place env)) as [[| c] |];
    destruct (os.stat (fs w1) (config_dir_place env)) as [[| c'] |];
    try (by apply (Hframe w1));
    destruct (encode (heap w1) (VDict config)) as [j | e];
    (apply (Hframe w1); [done | | done | done]);
    intros p Hp; simpl; by rewrite lookup_insert_ne.
Qed.

(** X3. When a regular file has the name of the config directory,
    [setup_config_dir] logs that it is unable to set up the config
    directory, with the path as it is written in the program (the home
    directory not expanded), and raises a [RuntimeError] with the same
    message; [save_config], whatever the config, fails in the same way
    before it writes anything. *)
Theorem config_dir_blocked_by_file env w content :
  os.stat (fs w) (config_dir_place env) = Some (File content) →
  os.stat (fs w) (config_file_place env) ≠ Some Dir →
  setup_config_dir env w
  = (Raise (RuntimeError setup_failure),
     set_logged (logged w ++ [setup_failure]) w) ∧
  ∀ config,
    save_config env config w
    = (Raise (RuntimeError setup_failure),
       set_logged (logged w ++ [setup_failure]) w).
Proof.
  intros Hdir Hfile.
  pose proof (setup_config_dir_blocked _ _ _ Hdir) as Hsetup.
  split; [done |]. intros config.
  rewrite (save_config_no_conflict _ _ _ Hfile).
  by rewrite (bind_Raise _ _ _ _ _ Hsetup).
Qed.

Lemma config_dir_blocked_by_file_witness :
  let w := world_with ∅ file_as_config_dir in
  os.stat (fs w) (config_dir_place examples.env) = Some (File (Some "")) ∧
  os.stat (fs w) (config_file_place examples.env) ≠ Some Dir ∧
  setup_config_dir examples.env w
  = (Raise (RuntimeError setup_failure),
     set_logged (logged w ++ [setup_failure]) w) ∧
  ∀ config,
    save_config examples.env config w
    = (Raise (RuntimeError setup_failure),
       set_logged (logged w ++ [setup_failure]) w).
Proof.
  intros w.
  assert (os.stat (fs w) (config_dir_place examples.env)
          = Some (File (Some ""))) as Hdir by by_evaluation.
  assert (os.stat (fs w) (config_file_place examples.env) ≠ Some Dir)
    as Hfile by (by vm_compute).
  split; [exact Hdir |]. split; [exact Hfile |].
  exact (config_dir_blocked_by_file examples.env w (Some "") Hdir Hfile).
Defined.

(** [os.makedirs] behind a regular file. *)
Lemma makedirs_rev_file_on_the_way rp : ∀ w k,
  file_on_the_way (fs w) (reverse rp) k → k < length rp →
  os.makedirs_rev rp w = (Raise NotADirectoryError, w).
Proof.
  induction rp as [| t rhead IH]; intros w k Hway Hk; [simpl in Hk; lia |].
  rewrite reverse_cons in Hway. set (head := reverse rhead) in *.
  assert (length head = length rhead) as Hlen by apply length_reverse.
  assert (∀ q, q `prefix_of` head → q `prefix_of` head ++ [t]) as Hpre
    by (intros q Hq; by apply prefix_app_r).
  assert (os.stat (fs w) (head ++ [t]) = None) as Hnone.
  { apply (Hway (head ++ [t])); [done |]. rewrite length_app. simpl in *. lia. }
  simpl. unfold bind. rewrite reverse_cons. fold head.
  destruct (decide (length head = k)) as [Heq | Hne].
  - destruct (proj1 (proj2 (Hway head (Hpre _ (reflexivity _)))) Heq)
      as [content Hhead].
    rewrite Hhead, bool_decide_eq_true_2 by eauto.
    unfold os.mkdir_at. by rewrite Hnone, parent_snoc, Hhead.
  - assert (os.stat (fs w) head = None) as Hhead.
    { apply (Hway head); [by apply Hpre |]. simpl in Hk. lia. }
    rewrite Hhead, bool_decide_eq_false_2 by (by intros [? ?]).
    unfold os.pass_FileExistsError. rewrite (IH w k); [done | |].
    + intros q Hq. apply Hway. by apply Hpre.
    + simpl in Hk. lia.
Qed.

(** X4. When a regular file is on the way to the config directory (for
    instance [~/.config] is a file), [setup_config_dir] and [save_config]
    let the [NotADirectoryError] of [os.makedirs] through, not the
    [RuntimeError] of the program, and change nothing; [get_config] in the
    same file system returns a new empty mapping. *)
Theorem config_dir_behind_a_file env w k :
  file_on_the_way (fs w) (config_file_place env) k →
  k < length (config_dir_place env) →
  setup_config_dir env w = (Raise NotADirectoryError, w) ∧
  (∀ config, save_config env config w = (Raise NotADirectoryError, w)) ∧
  ∃ l w', get_config env w = (Ok (VDict l), w') ∧ heap w' !! l = Some ∅.
Proof.
  intros Hway Hk.
  assert (config_dir_place env `prefix_of` config_file_place env) as Hpre
    by (rewrite config_file_in_config_dir; by apply prefix_app_r).
  assert (os.stat (fs w) (config_dir_place env) = None) as Hdir
    by (by apply (Hway _ Hpre)).
  assert (os.stat (fs w) (config_file_place env) = None) as Hfile.
  { apply (Hway _ (reflexivity _)).
    rewrite config_file_in_config_dir, length_app. lia. }
  assert (setup_config_dir env w = (Raise NotADirectoryError, w)) as Hsetup.
  { rewrite (setup_config_dir_missing _ _ Hdir).
    apply (makedirs_rev_file_on_the_way _ _ k).
    - rewrite reverse_involutive. intros q Hq. apply Hway. by etrans.
    - by rewrite length_reverse. }
  split; [done |]. split.
  - intros config. rewrite save_config_no_conflict by (by rewrite Hfile).
    by rewrite (bind_Raise _ _ _ _ _ Hsetup).
  - rewrite (get_config_missing _ _ Hfile). eexists _, _.
    split; [reflexivity |]. simpl. by rewrite lookup_insert_eq.
Qed.

Lemma file_on_the_way_take (f : gmap (list string) node) p k :
  (∀ n, n ≤ length p →
        (n < k → os.stat f (take n p) = Some Dir) ∧
        (n = k → ∃ content, os.stat f (take n p) = Some (File content)) ∧
        (k < n → os.stat f (take n p) = None)) →
  file_on_the_way f p k.
Proof.
  intros H q [r ->]. specialize (H (length q)).
  rewrite take_app_length in H. apply H. rewrite length_app. lia.
Qed.

Lemma config_dir_behind_a_file_witness :
  let w := world_with ∅ file_as_dot_config in
  file_on_the_way (fs w) (config_file_place examples.env) 3 ∧
  3 < length (config_dir_place examples.env) ∧
  setup_config_dir examples.env w = (Raise NotADirectoryError, w) ∧
  (∀ config,
     save_config examples.env config w = (Raise NotADirectoryError, w)) ∧
  ∃ l w', get_config examples.env w = (Ok (VDict l), w') ∧
          heap w' !! l = Some ∅.
Proof.
  intros w.
  assert (file_on_the_way (fs w) (config_file_place examples.env) 3) as Hway.
  { apply file_on_the_way_take. intros n Hn.
    change (length (config_file_place examples.env)) with 5 in Hn.
    do 6 (destruct n as [| n];
          [split_and!; intros;
           first [lia | by_evaluation | by (eexists; by_evaluation)] |]).
    lia. }
  assert (3 < length (config_dir_place examples.env)) as Hk
    by (apply (bool_decide_unpack _); by_evaluation).
  split; [exact Hway |]. split; [exact Hk |].
  exact (config_dir_behind_a_file examples.env w 3 Hway Hk).
Defined.

(** ** What the encoder raises *)

Lemma val_ind_deep (P : val → Prop) :
  P VNone → (∀ b, P (VBool b)) → (∀ z, P (VInt z)) → (∀ s, P (VStr s)) →
  (∀ vs, Forall P vs → P (VList vs)) → (∀ l, P (VDict l)) → ∀ v, P v.
Proof.
  intros HN HB HZ HS HL HD. fix IH 1.
  intros [| b | z | s | vs | l];
    [exact HN | apply HB | apply HZ | apply HS | | apply HD].
  apply HL. induction vs as [| v vs IHvs]; constructor; [apply IH | apply IHvs].
Qed.

Lemma mapM_Raise {A B} (f : A → result B) l e :
  mapM f l = Raise e → ∃ a, a ∈ l ∧ f a = Raise e.
Proof.
  induction l as [| x l IH]; simpl; [done |].
  destruct (f x) as [y | e'] eqn:Hx.
  - destruct (mapM f l) as [ys | e'']; [done |]. intros [= ->].
    destruct IH as (a & Ha & Hfa); [done |].
    exists a. split; [by apply list_elem_of_further | done].
  - intros [= ->]. exists x. split; [apply list_elem_of_here | done].
Qed.

Lemma map_mapM_Raise {A B} (f : A → result B) (m : gmap string A) e :
  map_mapM f m = Raise e → ∃ k a, m !! k = Some a ∧ f a = Raise e.
Proof.
  revert e. unfold map_mapM.
  apply (map_fold_weak_ind (λ (r : result (gmap string B)) m,
    ∀ e, r = Raise e → ∃ k a, m !! k = Some a ∧ f a = Raise e)).
  - done.
  - clear m. intros i x m r Hi IH e H.
    destruct r as [m0 | e0].
    + destruct (f x) as [y | e1] eqn:Hx; [done |]. injection H as ->.
      exists i, x. by rewrite lookup_insert_eq.
    + injection H as ->. destruct (IH _ eq_refl) as (k & a & Hk & Ha).
      exists k, a. split; [| done].
      rewrite lookup_insert_ne; [done |]. intros ->. congruence.
Qed.

Lemma refs_item l v vs : v ∈ vs → l ∈ refs v → l ∈ refs (VList vs).
Proof.
  intros Hv Hl. simpl.
  induction Hv as [v vs | v v' vs _ IH]; simpl; apply elem_of_app; auto.
Qed.

(** In a heap without dangling references the encoder has fuel for every
    value: the only error it raises is the [ValueError] of a circular
    reference. *)
Lemma encode_value_raises h :
  no_dangling h →
  ∀ fuel v (markers : gset loc) e,
    (∀ l, l ∈ refs v → is_Some (h !! l)) →
    markers ⊆ dom h → size h < size markers + fuel →
    encode_value h fuel markers v = Raise e → e = ValueError.
Proof.
  intros Hclosed fuel.
  induction fuel as [fuel IHfuel] using lt_wf_ind.
  intros v. induction v as [| b | z | s | vs IHvs | l] using val_ind_deep;
    intros markers e Hlive Hsub Hsize H;
    try (by destruct fuel; simplify_eq/=).
  - rewrite encode_value_list in H.
    destruct (mapM _ vs) as [js | e'] eqn:Hvs; [done |]. injection H as ->.
    apply mapM_Raise in Hvs as (v & Hv & Hrun).
    rewrite Forall_forall in IHvs.
    apply (IHvs v Hv markers e); try done.
    intros l Hl. apply Hlive. by apply (refs_item l v).
  - destruct (decide (l ∈ markers)) as [Hin | Hnotin].
    { destruct fuel; simpl in H; rewrite decide_True in H by done;
        by simplify_eq. }
    assert (size markers ≤ size h).
    { rewrite <- size_dom. by apply subseteq_size. }
    destruct fuel as [| fuel]; [lia |].
    destruct (Hlive l) as [d Hd]; [simpl; apply list_elem_of_here |].
    rewrite (encode_value_dict _ _ _ _ _ Hnotin Hd) in H.
    destruct (map_mapM _ d) as [ms | e'] eqn:Hms; [done |]. injection H as ->.
    apply map_mapM_Raise in Hms as (k & v & Hk & Hrun).
    apply (IHfuel fuel (Nat.lt_succ_diag_r _) v ({[l]} ∪ markers) e);
      try done.
    + intros l' Hl'. by apply (Hclosed l d k v l').
    + apply union_subseteq. split; [| done].
      apply singleton_subseteq_l, elem_of_dom. eauto.
    + rewrite size_union by set_solver. rewrite size_singleton. lia.
Qed.

Lemma encode_raises h config e :
  no_dangling h → is_Some (h !! config) →
  encode h (VDict config) = Raise e → e = ValueError.
Proof.
  intros Hclosed Hlive. apply encode_value_raises; try done.
  - intros l [-> | []%elem_of_nil]%elem_of_cons. done.
  - rewrite size_empty. lia.
Qed.

(** The run of [save_config] when nothing is in its way in the file
    system, whatever the encoder says. *)
Lemma save_config_run_any env config w k :
  os.stat (fs w) (config_file_place env) ≠ Some Dir →
  dirs_then_nothing (fs w) (config_dir_place env) k →
  ∃ w1, heap w1 = heap w ∧
        save_config env config w
        = match encode (heap w) (VDict config) with
          | Ok j =>
              (Ok tt,
               set_fs (<[config_file_place env
                         := File (Some (json.dumps j))]> (fs w1)) w1)
          | Raise e =>
              (Raise e,
               set_fs (<[config_file_place env := File None]> (fs w1)) w1)
          end.
Proof.
  intros Hfile Hway.
  destruct (setup_config_dir_makes env w k Hway)
    as (w1 & Hsetup & Hmade & Hrest & Hh & Hn & Hl).
  exists w1. split; [done |].
  assert (os.stat (fs w1) (config_file_place env)
          = os.stat (fs w) (config_file_place env)) as Hsame.
  { pose proof (config_file_place_nonempty env).
    destruct (config_file_place env) eqn:E; [done |]. simpl.
    rewrite <- E. apply Hrest. rewrite E. rewrite <- E.
    apply config_file_not_on_the_way. }
  rewrite (save_config_no_conflict _ _ _ Hfile).
  rewrite (bind_Ok _ _ _ _ _ Hsetup), write_config_run.
  rewrite (Hmade (config_dir_place env)) by done. rewrite Hsame, Hh.
  by destruct (os.stat (fs w) (config_file_place env)) as [[| c] |].
Qed.

(** X10. A config that holds a circular reference cannot be saved, and the
    attempt costs the config file: where nothing is in the way in the file
    system, [save_config] on a config that denotes no document raises the
    [ValueError] of [json.dump] after the file has been opened for
    writing, so the file is left with an unfinished document whatever it
    held before, and [get_config] then raises [JSONDecodeError]. *)
Theorem save_config_circular env config w k :
  no_dangling (heap w) → is_Some (heap w !! config) →
  ¬ json_compatible (heap w) config →
  os.stat (fs w) (config_file_place env) ≠ Some Dir →
  dirs_then_nothing (fs w) (config_dir_place env) k →
  ∃ w', save_config env config w = (Raise ValueError, w') ∧
        os.stat (fs w') (config_file_place env) = Some (File None) ∧
        heap w' = heap w ∧
        get_config env w' = (Raise JSONDecodeError, w').
Proof.
  intros Hclosed Hlive Hcircular Hfile Hway.
  destruct (save_config_run_any env config w k Hfile Hway)
    as (w1 & Hh & Hrun).
  destruct (encode (heap w) (VDict config)) as [j | e] eqn:He.
  { destruct Hcircular. exists j. by apply encode_denotes. }
  apply encode_raises in He as ->; [| done ..].
  eexists. split; [exact Hrun |].
  assert (os.stat (<[config_file_place env := File None]> (fs w1))
            (config_file_place env) = Some (File None)) as Hstat
    by apply stat_insert_eq, config_file_place_nonempty.
  split; [done |]. split; [done |].
  by rewrite (get_config_file _ _ None) by done.
Qed.

Lemma no_dangling_self_reference : no_dangling examples.self_reference.
Proof.
  intros l d k v l' Hl Hk Hl'. unfold examples.self_reference in *.
  apply lookup_singleton_Some in Hl as [<- <-].
  apply lookup_singleton_Some in Hk as [<- <-].
  apply list_elem_of_singleton in Hl' as ->.
  rewrite lookup_singleton_eq. eauto.
Qed.

Lemma config_dir_there content :
  dirs_then_nothing (home_with_config content)
    (config_dir_place examples.env) 4.
Proof.
  apply dirs_then_nothing_take. intros n Hn.
  change (length (config_dir_place examples.env)) with 4 in Hn.
  do 5 (destruct n as [| n]; [split; intros; first [lia | by_evaluation] |]).
  lia.
Qed.

Lemma save_config_circular_witness :
  let w := world_with examples.self_reference (home_with_config (Some "{}")) in
  no_dangling (heap w) ∧ is_Some (heap w !! examples.config) ∧
  ¬ json_compatible (heap w) examples.config ∧
  os.stat (fs w) (config_file_place examples.env) = Some (File (Some "{}")) ∧
  dirs_then_nothing (fs w) (config_dir_place examples.env) 4 ∧
  ∃ w', save_config examples.env examples.config w = (Raise ValueError, w') ∧
        os.stat (fs w') (config_file_place examples.env) = Some (File None) ∧
        heap w' = heap w ∧
        get_config examples.env w' = (Raise JSONDecodeError, w').
Proof.
  intros w.
  assert (is_Some (heap w !! examples.config)) as Hlive
    by (apply (bool_decide_unpack _); by_evaluation).
  assert (¬ json_compatible (heap w) examples.config) as Hcircular.
  { intros Hj.
    apply (json_compatible_not_self _ _ {[ "oauth" := VDict examples.config ]}
             "oauth" Hj); by_evaluation. }
  assert (os.stat (fs w) (config_file_place examples.env)
          = Some (File (Some "{}"))) as Hfile by by_evaluation.
  split; [exact no_dangling_self_reference |]. split; [exact Hlive |].
  split; [exact Hcircular |]. split; [exact Hfile |].
  split; [apply config_dir_there |].
  refine (save_config_circular examples.env examples.config w 4
            no_dangling_self_reference Hlive Hcircular _
            (config_dir_there _)).
  rewrite Hfile. discriminate.
Defined.

(** When [save_config] returns, the config denotes a document, the config
    file holds it and the config directory is there. *)
Lemma save_config_Ok_inv env config w w1 :
  save_config env config w = (Ok tt, w1) →
  ∃ j, encode (heap w) (VDict config) = Ok j ∧
       os.stat (fs w1) (config_file_place env)
       = Some (File (Some (json.dumps j))) ∧
       os.stat (fs w1) (config_dir_place env) = Some Dir ∧
       heap w1 = heap w.
Proof.
  intros Hsave.
  assert (os.stat (fs w) (config_file_place env) ≠ Some Dir) as Hfile.
  { intros Hdir. by rewrite (save_config_conflict _ _ _ Hdir) in Hsave. }
  rewrite (save_config_no_conflict _ _ _ Hfile) in Hsave.
  apply bind_Ok_inv in Hsave as ([] & w0 & Hsetup & Hwrite).
  apply setup_config_dir_heap in Hsetup. rewrite write_config_run in Hwrite.
  destruct (os.stat (fs w0) (config_dir_place env)) as [[| c'] |] eqn:Hdir;
    destruct (os.stat (fs w0) (config_file_place env)) as [[| c] |];
    try done;
    (destruct (encode (heap w0) (VDict config)) as [j | e] eqn:He; [| done]);
    injection Hwrite as <-; exists j; simpl;
    (split; [congruence |]);
    (split; [apply stat_insert_eq, config_file_place_nonempty |]);
    (split; [| done]);
    (rewrite stat_insert_ne; [done |]);
    rewrite config_file_in_config_dir; intros Heq;
    apply (f_equal length) in Heq; rewrite length_app in Heq;
    simpl in Heq; lia.
Qed.

(** X11. Saving is idempotent: once [save_config] has returned, saving the
    same config again returns as well and leaves the world exactly as the
    first call left it. *)
Theorem save_config_twice env config w w1 :
  save_config env config w = (Ok tt, w1) →
  save_config env config w1 = (Ok tt, w1).
Proof.
  intros (j & Hj & Hfile & Hdir & Hh)%save_config_Ok_inv.
  rewrite save_config_no_conflict by (by rewrite Hfile).
  rewrite (bind_Ok _ _ _ _ _ (setup_config_dir_present _ _ Hdir)).
  rewrite write_config_run, Hfile, Hdir, Hh, Hj. f_equal.
  pose proof (config_file_place_nonempty env) as Hne.
  destruct (config_file_place env) as [| x p]; [done |]. simpl in Hfile.
  rewrite insert_id by done. by destruct w1.
Qed.

Lemma save_config_twice_witness :
  let w := examples.at_home (examples.with_record examples.full_record) in
  let w1 := (save_config examples.env examples.config w).2 in
  save_config examples.env examples.config w = (Ok tt, w1) ∧
  save_config examples.env examples.config w1 = (Ok tt, w1).
Proof.
  intros w w1.
  assert (save_config examples.env examples.config w = (Ok tt, w1)) as Hsave
    by (apply (run_result (save_config examples.env examples.config) w);
        by_evaluation).
  split; [exact Hsave |].
  exact (save_config_twice examples.env examples.config w w1 Hsave).
Defined.

(** * More on the saved credentials *)

(** The guard only reads. *)
Lemma record_incomplete_world g w : (record_incomplete g w).2 = w.
Proof.
  unfold record_incomplete, bind, get_heap, ret.
  destruct (negb (truthy (heap w) g)); [done |].
  destruct g as [| b | z | s | vs | l]; simpl; try done;
    repeat (match goal with |- context [negb ?b] => destruct b end;
            simpl; try done).
Qed.

(** Past the lookup of the record, the world changes by one request to the
    network at most. *)
Lemma use_record_world env g w :
  (use_record env g w).2 = w ∨
  ∃ c, (use_record env g w).2 = set_net (net w ++ [c]) w.
Proof.
  destruct (use_record env g w) as [r w'] eqn:Hrun. simpl.
  unfold use_record in Hrun. unfold bind at 1 in Hrun.
  pose proof (record_incomplete_world g w) as Hw.
  destruct (record_incomplete g w) as [[[] | ] w0]; simpl in Hw; subst w0;
    unfold ret in Hrun; [left; by simplify_eq | | left; by simplify_eq].
  unfold bind at 1 in Hrun.
  assert ((unpack g w).2 = w) as Hu by (by destruct g).
  destruct (unpack g w) as [[kw | e] w0]; simpl in Hu; subst w0;
    [| left; by simplify_eq].
  unfold bind, lift in Hrun.
  destruct (google.init env kw) as [c | e]; [| left; by simplify_eq].
  destruct (google.valid env c); simpl in Hrun; [left; by simplify_eq |].
  unfold get_heap in Hrun.
  destruct (google.expired env c && truthy (heap w) (refresh_token c));
    [| left; by simplify_eq].
  right. exists c. unfold google.refresh in Hrun.
  destruct (transport env c); by simplify_eq.
Qed.

(** X12. Whatever [get_saved_google_credentials] does, returning or
    raising, it only reads the config: every dict object is as it was, the
    file system and the logger are not touched, and one request at most is
    made to the network. *)
Theorem saved_credentials_reads_only env config w :
  heap w ⊆ heap (get_saved_google_credentials env config w).2 ∧
  fs (get_saved_google_credentials env config w).2 = fs w ∧
  logged (get_saved_google_credentials env config w).2 = logged w ∧
  (net (get_saved_google_credentials env config w).2 = net w ∨
   ∃ c, net (get_saved_google_credentials env config w).2 = net w ++ [c]).
Proof.
  assert (deref (heap w) config !! "oauth" = None ∨
          (∃ o, deref (heap w) config !! "oauth" = Some (VDict o)) ∨
          ∃ v, deref (heap w) config !! "oauth" = Some v ∧
               ∀ o, v ≠ VDict o) as [Hnone | [Hdict | (v & Hv & Hnot)]].
  { destruct (deref (heap w) config !! "oauth") as [[| | | | | o] |]; eauto;
      right; right; eauto. }
  1,2: destruct (lookup_record_run env config w) as (w' & g & Hg & -> & _);
    [eauto |];
    destruct Hg as (Hsub & _ & Hfs & Hnet & Hlog);
    destruct (use_record_world env g w') as [-> | [c ->]]; simpl;
    split_and!; eauto; right; exists c; congruence.
  pose proof (only_garbage_alloc_empty w) as (Hsub & Hd & Hfs & Hnet & Hlog).
  assert ((get_saved_google_credentials env config w).2 = (alloc ∅ w).2)
    as ->; [| by split_and!; auto].
  unfold get_saved_google_credentials.
  unfold bind at 1. unfold alloc at 1. cbv iota beta.
  unfold bind at 1. unfold dict_get at 1, bind at 1, get_heap, ret.
  cbv iota beta. simpl heap.
  change (<[fresh (dom (heap w)) := ∅]> (heap w)) with (heap (alloc ∅ w).2).
  rewrite Hd, Hv. simpl.
  unfold bind at 1. by destruct v; try (by destruct (Hnot l)).
Qed.

(** A record that is not a mapping gets past the guard at best, never past
    the reconstruction. *)
Lemma use_record_non_mapping env g w :
  (∀ l, g ≠ VDict l) →
  use_record env g w = (Ok None, w) ∨ use_record env g w = (Raise TypeError, w).
Proof.
  intros Hnot. unfold use_record, record_incomplete, bind, get_heap, ret.
  destruct g as [| b | z | s | vs | l]; simpl; auto.
  - destruct b; auto.
  - destruct (z =? 0)%Z; auto.
  - destruct (String.eqb s ""); simpl; [auto |].
    repeat (match goal with |- context [negb ?b] => destruct b end;
            simpl; auto).
  - destruct vs as [| v vs]; simpl; [auto |].
    repeat (match goal with |- context [negb ?b] => destruct b end;
            simpl; auto).
  - by destruct (Hnot l).
Qed.

(** X13. When the value at [config["oauth"]["google"]] is not a mapping (a
    string, a number, a list, ...), [get_saved_google_credentials] never
    returns a credential: it returns [None] or raises [TypeError], and
    nothing is asked of the network. *)
Theorem saved_credentials_non_mapping_record env config w o g :
  deref (heap w) config !! "oauth" = Some (VDict o) →
  deref (heap w) o !! "google" = Some g →
  (∀ l, g ≠ VDict l) →
  ((get_saved_google_credentials env config w).1 = Ok None ∨
   (get_saved_google_credentials env config w).1 = Raise TypeError) ∧
  net (get_saved_google_credentials env config w).2 = net w.
Proof.
  intros Ho Hg Hnot.
  destruct (lookup_record_run env config w) as (w' & g' & Hw & -> & Hat);
    [eauto |].
  unfold record_at in Hat. rewrite Ho, Hg in Hat. subst g'.
  destruct Hw as (_ & _ & _ & Hnet & _).
  by destruct (use_record_non_mapping env g w' Hnot) as [-> | ->]; auto.
Qed.

Lemma saved_credentials_non_mapping_record_witness :
  let w := examples.world_of
             (with_string_record "refresh_token client_id client_secret") in
  deref (heap w) examples.config !! "oauth" = Some (VDict 2%positive) ∧
  deref (heap w) 2%positive !! "google"
  = Some (VStr "refresh_token client_id client_secret") ∧
  (get_saved_google_credentials examples.env examples.config w).1
  = Raise TypeError ∧
  net (get_saved_google_credentials examples.env examples.config w).2 = net w.
Proof.
  intros w.
  assert (deref (heap w) examples.config !! "oauth" = Some (VDict 2%positive))
    as Ho by by_evaluation.
  assert (deref (heap w) 2%positive !! "google"
          = Some (VStr "refresh_token client_id client_secret")) as Hg
    by by_evaluation.
  split; [exact Ho |]. split; [exact Hg |].
  destruct (saved_credentials_non_mapping_record examples.env examples.config
              w 2%positive _ Ho Hg) as [Hres Hnet]; [done |].
  split; [by_evaluation | exact Hnet].
Defined.

(** ** The constructor and the stored record *)

(** The constructor rebuilds a credential from a stored record, in every
    version of the client library. *)
Lemma init_credential_record env c :
  google.init env (credential_record c) = Ok (stored c).
Proof.
  unfold google.init.
  replace (credential_record c !! "token") with (Some (token c))
    by by_evaluation.
  replace (forallb (google.accepted env) (elements (dom (credential_record c))))
    with true.
  - unfold stored. by f_equal.
  - symmetry. apply forallb_forall. intros k Hk%list_elem_of_In.
    apply elem_of_elements in Hk. rewrite credential_record_dom in Hk.
    apply elem_of_list_to_set in Hk.
    unfold google.accepted. apply bool_decide_eq_true_2.
    apply elem_of_app. left. unfold google.stored_kwargs.
    repeat (apply elem_of_cons in Hk as [-> | Hk]);
      [repeat constructor .. | by apply elem_of_nil in Hk].
Qed.

Lemma passes_guard_credential_record h r c :
  h !! r = Some (credential_record c) → passes_guard h (VDict r).
Proof.
  intros Hr. exists r. split; [done |]. intros k Hk.
  rewrite (deref_lookup _ _ _ Hr). apply elem_of_dom.
  rewrite credential_record_dom. apply elem_of_list_to_set.
  unfold checked_keys in Hk.
  repeat (apply elem_of_cons in Hk as [-> | Hk]);
    [repeat constructor .. | by apply elem_of_nil in Hk].
Qed.

(** The run of [stash_google_credentials] on a config whose ["oauth"]
    entry is absent or a mapping: it returns, and the record is there. *)
Lemma stash_run_stores w config credentials :
  is_Some (heap w !! config) →
  (deref (heap w) config !! "oauth" = None ∨
   ∃ o, deref (heap w) config !! "oauth" = Some (VDict o) ∧
        is_Some (heap w !! o)) →
  ∃ w1 o r,
    stash_google_credentials config credentials w = (Ok config, w1) ∧
    deref (heap w1) config !! "oauth" = Some (VDict o) ∧
    deref (heap w1) o !! "google" = Some (VDict r) ∧
    heap w1 !! r = Some (credential_record credentials) ∧
    fs w1 = fs w ∧ net w1 = net w.
Proof.
  intros [d Hc] Hoauth.
  rewrite (deref_lookup _ _ _ Hc) in Hoauth.
  destruct Hoauth as [Hnone | (o & Ho & [od Hod])].
  - pose proof (stash_run_absent w config credentials d Hc Hnone) as Hrun.
    simpl in Hrun. rewrite Hrun. clear Hrun.
    set (o := fresh (dom (heap w))).
    set (h1 := <[config := <["oauth" := VDict o]> d]> (<[o := ∅]> (heap w))).
    set (r := fresh (dom h1)).
    assert (o ≠ config) as Hoc by (apply fresh_ne; eauto).
    assert (h1 !! r = None) as Hr1 by apply fresh_lookup.
    assert (r ≠ config) as Hrc.
    { intros ->. unfold h1 in Hr1. by rewrite lookup_insert_eq in Hr1. }
    assert (r ≠ o) as Hro.
    { intros ->. unfold h1 in Hr1.
      by rewrite lookup_insert_ne, lookup_insert_eq in Hr1. }
    eexists _, o, r. split; [reflexivity |]. simpl.
    rewrite deref_insert_ne, deref_insert_ne by done.
    unfold h1 at 1. rewrite deref_insert_eq, lookup_insert_eq.
    rewrite deref_insert_eq, lookup_singleton_eq.
    by rewrite lookup_insert_ne, lookup_insert_eq by done.
  - pose proof (stash_run_present w config credentials d _ Hc Ho) as Hrun.
    simpl in Hrun. rewrite Hrun. clear Hrun.
    set (r := fresh (dom (heap w))).
    set (h1 := <[r := credential_record credentials]> (heap w)).
    assert (r ≠ config) as Hrc by (apply fresh_ne; eauto).
    assert (r ≠ o) as Hro by (apply fresh_ne; eauto).
    eexists _, o, r. split; [reflexivity |]. simpl.
    rewrite deref_insert_eq, lookup_insert_eq.
    rewrite lookup_insert_ne by done. unfold h1 at 3.
    rewrite lookup_insert_eq.
    split_and!; try done.
    destruct (decide (o = config)) as [-> | Hne].
    + rewrite deref_insert_eq, lookup_insert_ne by done.
      unfold h1. rewrite deref_insert_ne by done.
      by rewrite (deref_lookup _ _ _ Hc).
    + rewrite deref_insert_ne by done.
      unfold h1. rewrite deref_insert_ne by done.
      by rewrite (deref_lookup _ _ _ Hc).
Qed.

(** X15. Stashing and reading back, in memory: for every config whose
    ["oauth"] entry is absent or a mapping, after
    [stash_google_credentials] has stored a credential
    [get_saved_google_credentials] rebuilds it from the record, in every
    version of the client library, and returns it with its five stored
    attributes when it is valid, asking nothing of the network. *)
Theorem stash_then_saved_credentials env w config credentials :
  is_Some (heap w !! config) →
  (deref (heap w) config !! "oauth" = None ∨
   ∃ o, deref (heap w) config !! "oauth" = Some (VDict o) ∧
        is_Some (heap w !! o)) →
  google.valid env (stored credentials) = true →
  ∃ w1 w2,
    stash_google_credentials config credentials w = (Ok config, w1) ∧
    get_saved_google_credentials env config w1
    = (Ok (Some (stored credentials)), w2) ∧
    net w2 = net w ∧ fs w2 = fs w.
Proof.
  intros Hc Hoauth Hvalid.
  destruct (stash_run_stores w config credentials Hc Hoauth)
    as (w1 & o & r & Hstash & Ho & Hg & Hr & Hfs & Hnet).
  destruct (lookup_record_run env config w1) as (w2 & g & Hw & Hrun & Hat);
    [eauto |].
  unfold record_at in Hat. rewrite Ho, Hg in Hat. subst g.
  destruct Hw as (Hsub & Hd & Hfs2 & Hnet2 & _).
  exists w1, w2. split; [done |]. rewrite Hrun.
  assert (heap w2 !! r = Some (credential_record credentials)) as Hr2
    by (by eapply lookup_weaken).
  rewrite use_record_reconstruct
    by (by eapply passes_guard_credential_record).
  rewrite (deref_lookup _ _ _ Hr2), init_credential_record, Hvalid.
  split; [done |]. split; congruence.
Qed.

Lemma stash_then_saved_credentials_witness :
  let w := examples.world_of examples.empty_config in
  is_Some (heap w !! examples.config) ∧
  deref (heap w) examples.config !! "oauth" = None ∧
  google.valid examples.env (stored examples.some_credentials) = true ∧
  ∃ w1 w2,
    stash_google_credentials examples.config examples.some_credentials w
    = (Ok examples.config, w1) ∧
    get_saved_google_credentials examples.env examples.config w1
    = (Ok (Some (stored examples.some_credentials)), w2) ∧
    net w2 = net w ∧ fs w2 = fs w.
Proof.
  intros w.
  assert (is_Some (heap w !! examples.config)) as Hc
    by (apply (bool_decide_unpack _); by_evaluation).
  assert (deref (heap w) examples.config !! "oauth" = None) as Ho
    by by_evaluation.
  assert (google.valid examples.env (stored examples.some_credentials) = true)
    as Hvalid by by_evaluation.
  split; [exact Hc |]. split; [exact Ho |]. split; [exact Hvalid |].
  exact (stash_then_saved_credentials examples.env w examples.config
           examples.some_credentials Hc (or_introl Ho) Hvalid).
Defined.

(** The constructor turns away a keyword it does not know. *)
Lemma init_unexpected_keyword env kw k :
  is_Some (kw !! k) → google.accepted env k = false →
  google.init env kw = Raise TypeError.
Proof.
  intros Hk Hno. unfold google.init.
  destruct (kw !! "token"); [| done].
  destruct (forallb _ _) eqn:Hall; [| done].
  rewrite forallb_forall in Hall. rewrite Hall in Hno; [done |].
  apply list_elem_of_In, elem_of_elements, elem_of_dom, Hk.
Qed.

(** X14. The guard does not protect the constructor: for a record that
    has the three keys the guard looks for, when the key ["token"] is
    missing, or when the record has a key that is not a parameter of the
    constructor in the installed version of the client library,
    [get_saved_google_credentials] raises [TypeError]; nothing is asked of
    the network. *)
Theorem saved_credentials_constructor_rejects env config w o g :
  deref (heap w) config !! "oauth" = Some (VDict o) →
  deref (heap w) o !! "google" = Some (VDict g) →
  passes_guard (heap w) (VDict g) →
  (deref (heap w) g !! "token" = None ∨
   ∃ k, is_Some (deref (heap w) g !! k) ∧ google.accepted env k = false) →
  (get_saved_google_credentials env config w).1 = Raise TypeError ∧
  net (get_saved_google_credentials env config w).2 = net w.
Proof.
  intros Ho Hg Hp Hbad.
  destruct (lookup_record_run env config w) as (w' & g' & Hw & -> & Hat);
    [eauto |].
  unfold record_at in Hat. rewrite Ho, Hg in Hat. subst g'.
  destruct Hw as (_ & Hd & _ & Hnet & _).
  rewrite use_record_reconstruct by (by apply (passes_guard_ext (heap w))).
  rewrite Hd.
  assert (google.init env (deref (heap w) g) = Raise TypeError) as ->; [| done].
  destruct Hbad as [Htok | (k & Hk & Hno)].
  - by apply init_without_token.
  - by apply (init_unexpected_keyword env _ k).
Qed.

Lemma saved_credentials_constructor_rejects_witness :
  let w := examples.world_of (examples.with_record record_with_expiry) in
  deref (heap w) examples.config !! "oauth" = Some (VDict 2%positive) ∧
  deref (heap w) 2%positive !! "google" = Some (VDict 3%positive) ∧
  passes_guard (heap w) (VDict 3%positive) ∧
  is_Some (deref (heap w) 3%positive !! "expiry") ∧
  google.accepted examples.env "expiry" = false ∧
  (get_saved_google_credentials examples.env examples.config w).1
  = Raise TypeError ∧
  net (get_saved_google_credentials examples.env examples.config w).2 = net w.
Proof.
  intros w.
  assert (deref (heap w) examples.config !! "oauth" = Some (VDict 2%positive))
    as Ho by by_evaluation.
  assert (deref (heap w) 2%positive !! "google" = Some (VDict 3%positive))
    as Hg by by_evaluation.
  assert (passes_guard (heap w) (VDict 3%positive)) as Hp.
  { exists 3%positive. split; [reflexivity |].
    intros k Hk. unfold checked_keys in Hk. each_key Hk. }
  assert (is_Some (deref (heap w) 3%positive !! "expiry")) as Hk
    by (apply (bool_decide_unpack _); by_evaluation).
  assert (google.accepted examples.env "expiry" = false) as Hno
    by by_evaluation.
  split; [exact Ho |]. split; [exact Hg |]. split; [exact Hp |].
  split; [exact Hk |]. split; [exact Hno |].
  exact (saved_credentials_constructor_rejects examples.env examples.config w
           2%positive 3%positive Ho Hg Hp
           (or_intror (ex_intro _ "expiry" (conj Hk Hno)))).
Defined.

(** X16. When [config["oauth"]] is there and is not a mapping ([None], a
    string, a number, a list), [stash_google_credentials] raises
    [TypeError] at the assignment of the record; the config and every
    other dict object are as they were, and nothing else is touched. *)
Theorem stash_non_mapping_oauth_raises w config credentials d v :
  heap w !! config = Some d → d !! "oauth" = Some v →
  (∀ o, v ≠ VDict o) →
  ∃ w', stash_google_credentials config credentials w = (Raise TypeError, w') ∧
        heap w ⊆ heap w' ∧ fs w' = fs w ∧ net w' = net w ∧
        logged w' = logged w.
Proof.
  intros Hc Hv Hnot.
  pose proof (stash_run_present w config credentials d v Hc Hv) as Hrun.
  simpl in Hrun. rewrite Hrun.
  destruct v as [| | | | | o]; try (by destruct (Hnot o));
    (eexists; split; [reflexivity |]; simpl; split_and!; try done;
     apply insert_subseteq, fresh_lookup).
Qed.

Lemma stash_non_mapping_oauth_raises_witness :
  let w := examples.world_of examples.oauth_null in
  heap w !! examples.config = Some {[ "oauth" := VNone ]} ∧
  ∃ w', stash_google_credentials examples.config examples.some_credentials w
        = (Raise TypeError, w') ∧
        heap w ⊆ heap w' ∧ fs w' = fs w ∧ net w' = net w ∧
        logged w' = logged w.
Proof.
  intros w.
  assert (heap w !! examples.config = Some {[ "oauth" := VNone ]}) as Hc
    by by_evaluation.
  split; [exact Hc |].
  by apply (stash_non_mapping_oauth_raises w examples.config
              examples.some_credentials {[ "oauth" := VNone ]} VNone Hc).
Defined.

(** * Stashing and documents *)

Lemma denotes_scalar h v :
  scalar v = true → denotes h v (document_of_scalar v).
Proof. destruct v; try done; constructor. Qed.

Lemma denotes_scalar_inv h v x :
  scalar x = true → denotes h v (document_of_scalar x) → v = x.
Proof. destruct x; try done; intros _ H; by inversion H. Qed.

Lemma denotes_record h r c :
  h !! r = Some (credential_record c) → scalar_fields c →
  denotes h (VDict r) (record_document c).
Proof.
  intros Hr Hc. econstructor; [done |]. intros k. rewrite lookup_fmap.
  destruct (credential_record c !! k) as [v |] eqn:Hk; constructor.
  by eapply denotes_scalar, Hc.
Qed.

(** A dict that denotes the document of a record holds the record. *)
Lemma denotes_record_inv h g d c :
  h !! g = Some d → scalar_fields c →
  denotes h (VDict g) (record_document c) → d = credential_record c.
Proof.
  intros Hg Hc H. inversion H as [| | | | | l d' m Hd' Hm]; subst.
  rewrite Hg in Hd'. injection Hd' as <-. apply map_eq. intros k.
  specialize (Hm k). rewrite lookup_fmap in Hm.
  destruct (credential_record c !! k) as [x |] eqn:Hk; simpl in Hm.
  - inversion Hm as [v j Hvj Hv Hj |]; subst. f_equal.
    eapply denotes_scalar_inv; [| done]. by eapply Hc.
  - by inversion Hm.
Qed.

(** The member of the document under a key that the dict has. *)
Lemma denotes_member h l d k v j :
  denotes h (VDict l) j → h !! l = Some d → d !! k = Some v →
  ∃ jk, member_at k j = Some jk ∧ denotes h v jk.
Proof.
  intros H Hl Hk. inversion H as [| | | | | l' d' m Hd' Hm]; subst.
  rewrite Hl in Hd'. injection Hd' as <-.
  specialize (Hm k). rewrite Hk in Hm.
  inversion Hm as [v' jk Hvj Hv Hj |]; subst. by exists jk.
Qed.

(** The entry of the dict under a key that the document has. *)
Lemma denotes_member_inv h l k j jk :
  denotes h (VDict l) j → member_at k j = Some jk →
  ∃ v, deref h l !! k = Some v ∧ denotes h v jk.
Proof.
  intros H Hk. inversion H as [| | | | | l' d m Hd Hm]; subst.
  simpl in Hk. specialize (Hm k). rewrite Hk in Hm.
  inversion Hm as [v jk' Hvj Hv Hj |]; subst.
  exists v. by rewrite (deref_lookup _ _ _ Hd).
Qed.

Lemma denotes_Obj_inv h v m :
  denotes h v (json.Obj m) → ∃ l, v = VDict l ∧ is_Some (h !! l).
Proof. inversion 1; subst. eauto. Qed.

Lemma denotes_dict_inv h l j :
  denotes h (VDict l) j → ∃ d, h !! l = Some d.
Proof. inversion 1; subst. eauto. Qed.

Lemma map_choice {A B} (P : A → B → Prop) (d : gmap string A) :
  (∀ k a, d !! k = Some a → ∃ b, P a b) →
  ∃ m : gmap string B, ∀ k, option_Forall2 P (d !! k) (m !! k).
Proof.
  induction d as [| i x d Hi _ IH] using map_first_key_ind.
  - intros _. exists ∅. intros k. rewrite !lookup_empty. constructor.
  - intros H. destruct (H i x) as [b Hb]; [by rewrite lookup_insert_eq |].
    destruct IH as [m Hm].
    { intros k a Hk. apply (H k). rewrite lookup_insert_ne; [done |].
      intros ->. congruence. }
    exists (<[i := b]> m). intros k. destruct (decide (i = k)) as [<- | Hne].
    + rewrite !lookup_insert_eq. by constructor.
    + by rewrite !lookup_insert_ne.
Qed.

Lemma list_choice {A B} (P : A → B → Prop) (l : list A) :
  Forall (λ a, ∃ b, P a b) l → ∃ l', Forall2 P l l'.
Proof.
  induction 1 as [| a l [b Hb] _ [l' Hl']]; [by exists [] |].
  exists (b :: l'). by constructor.
Qed.

(** Item assignment keeps a value a finite tree: when one dict of the heap
    gets, under one key, a value that denotes a document, and the other
    dicts stay as they are, every value that denoted a document still
    denotes one. *)
Lemma denotes_after_setitem h h' l0 k0 v0 j0 :
  (∀ l d, h !! l = Some d → l ≠ l0 → h' !! l = Some d) →
  (∀ d, h !! l0 = Some d → h' !! l0 = Some (<[k0 := v0]> d)) →
  denotes h' v0 j0 →
  ∀ j v, denotes h v j → ∃ j', denotes h' v j'.
Proof.
  intros Hother Hthis Hv0 j.
  induction j as [| b | z | s | items IH | members IH] using value_ind_deep;
    intros v H; inversion H as [| | | | vs js Hvs | l d m Hd Hm]; subst;
    try (by eexists; constructor).
  - destruct (list_choice (denotes h') vs) as [js' Hjs'].
    { clear H. induction Hvs as [| v j vs js Hvj _ IHvs]; [constructor |].
      apply Forall_cons in IH as [IHj IHjs]. constructor; eauto. }
    exists (json.Arr js'). by constructor.
  - destruct (map_choice (denotes h') d) as [m0 Hm0].
    { intros k a Hk. specialize (Hm k). rewrite Hk in Hm.
      inversion Hm as [a' j Hvj Ha Hj |]; subst.
      symmetry in Hj. by apply (IH k j Hj a). }
    destruct (decide (l = l0)) as [-> | Hne].
    + exists (json.Obj (<[k0 := j0]> m0)).
      econstructor; [by apply Hthis |]. intros k.
      destruct (decide (k0 = k)) as [<- | Hk].
      * rewrite !lookup_insert_eq. by constructor.
      * by rewrite !lookup_insert_ne.
    + exists (json.Obj m0). econstructor; [by apply Hother | done].
Qed.

(** The heap after [stash_google_credentials], for a config that denotes a
    document: the config still denotes one. *)
Lemma stash_denotes w config credentials :
  json_compatible (heap w) config →
  (deref (heap w) config !! "oauth" = None ∨
   ∃ o, deref (heap w) config !! "oauth" = Some (VDict o)) →
  scalar_fields credentials →
  ∃ w1 o r j1,
    stash_google_credentials config credentials w = (Ok config, w1) ∧
    deref (heap w1) config !! "oauth" = Some (VDict o) ∧
    deref (heap w1) o !! "google" = Some (VDict r) ∧
    heap w1 !! r = Some (credential_record credentials) ∧
    denotes (heap w1) (VDict config) j1 ∧
    fs w1 = fs w ∧ net w1 = net w ∧ logged w1 = logged w.
Proof.
  intros [j Hj] Hoauth Hc.
  destruct (denotes_dict_inv _ _ _ Hj) as [d Hd].
  rewrite (deref_lookup _ _ _ Hd) in Hoauth.
  destruct Hoauth as [Hnone | [o Ho]].
  - pose proof (stash_run_absent w config credentials d Hd Hnone) as Hrun.
    simpl in Hrun. rewrite Hrun. clear Hrun.
    set (o := fresh (dom (heap w))).
    set (h1 := <[config := <["oauth" := VDict o]> d]> (<[o := ∅]> (heap w))).
    set (r := fresh (dom h1)).
    set (h2 := <[o := {["google" := VDict r]}]>
                 (<[r := credential_record credentials]> h1)).
    assert (heap w !! o = None) as Ho0 by apply fresh_lookup.
    assert (o ≠ config) as Hoc by (apply fresh_ne; eauto).
    assert (h1 !! r = None) as Hr1 by apply fresh_lookup.
    assert (r ≠ config) as Hrc.
    { intros ->. unfold h1 in Hr1. by rewrite lookup_insert_eq in Hr1. }
    assert (r ≠ o) as Hro.
    { intros ->. unfold h1 in Hr1.
      by rewrite lookup_insert_ne, lookup_insert_eq in Hr1. }
    assert (heap w !! r = None) as Hr0.
    { unfold h1 in Hr1. by rewrite !lookup_insert_ne in Hr1 by done. }
    assert (h2 !! r = Some (credential_record credentials)) as Hr2
      by (unfold h2; by rewrite lookup_insert_ne, lookup_insert_eq).
    assert (h2 !! o = Some {["google" := VDict r]}) as Ho2
      by (unfold h2; by rewrite lookup_insert_eq).
    assert (h2 !! config = Some (<["oauth" := VDict o]> d)) as Hc2
      by (unfold h2, h1; rewrite 2!lookup_insert_ne by done;
          by rewrite lookup_insert_eq).
    destruct (denotes_after_setitem (heap w) h2 config "oauth" (VDict o)
                (json.Obj {[ "google" := record_document credentials ]}))
      with (j := j) (v := VDict config) as [j1 Hj1]; try done.
    { intros l d' Hl Hlc. unfold h2, h1.
      rewrite !lookup_insert_ne; [done | congruence ..]. }
    { intros d' Hd'. congruence. }
    { econstructor; [done |]. intros k.
      destruct (decide ("google" = k)) as [<- | Hk].
      - rewrite !lookup_singleton_eq. constructor. by apply denotes_record.
      - rewrite !lookup_singleton_ne by done. constructor. }
    eexists _, o, r, j1. split; [reflexivity |]. simpl. fold h1 r h2.
    rewrite (deref_lookup _ _ _ Hc2), (deref_lookup _ _ _ Ho2).
    by rewrite lookup_insert_eq, lookup_singleton_eq.
  - assert (∃ od, heap w !! o = Some od) as [od Hod].
    { destruct (denotes_member _ _ _ _ _ _ Hj Hd Ho) as (jo & _ & Hjo).
      by apply denotes_dict_inv in Hjo. }
    assert (o ≠ config) as Hoc.
    { intros ->. by apply (json_compatible_not_self (heap w) config d "oauth");
        [exists j | |]. }
    pose proof (stash_run_present w config credentials d _ Hd Ho) as Hrun.
    simpl in Hrun. rewrite Hrun. clear Hrun.
    set (r := fresh (dom (heap w))).
    set (h1 := <[r := credential_record credentials]> (heap w)).
    set (h2 := <[o := <["google" := VDict r]> (deref h1 o)]> h1).
    assert (heap w !! r = None) as Hr0 by apply fresh_lookup.
    assert (r ≠ config) as Hrc by (apply fresh_ne; eauto).
    assert (r ≠ o) as Hro by (apply fresh_ne; eauto).
    assert (deref h1 o = od) as Hod1.
    { unfold h1. rewrite deref_insert_ne by done. by apply deref_lookup. }
    assert (h2 !! r = Some (credential_record credentials)) as Hr2
      by (unfold h2, h1; by rewrite lookup_insert_ne, lookup_insert_eq).
    assert (h2 !! o = Some (<["google" := VDict r]> od)) as Ho2
      by (unfold h2; by rewrite lookup_insert_eq, Hod1).
    assert (h2 !! config = Some d) as Hc2
      by (unfold h2, h1; by rewrite 2!lookup_insert_ne by done).
    destruct (denotes_after_setitem (heap w) h2 o "google" (VDict r)
                (record_document credentials))
      with (j := j) (v := VDict config) as [j1 Hj1]; try done.
    { intros l d' Hl Hlo. unfold h2, h1.
      rewrite !lookup_insert_ne; [done | congruence ..]. }
    { intros d' Hd'. congruence. }
    { by apply denotes_record. }
    eexists _, o, r, j1. split; [reflexivity |]. simpl. fold r h1 h2.
    rewrite (deref_lookup _ _ _ Hc2), (deref_lookup _ _ _ Ho2).
    by rewrite lookup_insert_eq.
Qed.

(** The document of a config that holds the record of a credential has
    the document of the record at ["oauth"], ["google"]. *)
Lemma document_has_record h config o r c j :
  denotes h (VDict config) j →
  deref h config !! "oauth" = Some (VDict o) →
  deref h o !! "google" = Some (VDict r) →
  h !! r = Some (credential_record c) → scalar_fields c →
  member_at "oauth" j ≫= member_at "google" = Some (record_document c).
Proof.
  intros Hj Ho Hg Hr Hc.
  destruct (denotes_dict_inv _ _ _ Hj) as [d Hd].
  rewrite (deref_lookup _ _ _ Hd) in Ho.
  destruct (denotes_member _ _ _ _ _ _ Hj Hd Ho) as (jo & -> & Hjo). simpl.
  destruct (denotes_dict_inv _ _ _ Hjo) as [od Hod].
  rewrite (deref_lookup _ _ _ Hod) in Hg.
  destruct (denotes_member _ _ _ _ _ _ Hjo Hod Hg) as (jr & -> & Hjr).
  f_equal. eapply denotes_functional; [exact Hjr |]. by apply denotes_record.
Qed.

(** X17. Stashing keeps a config writable: for every config that denotes
    a document and whose ["oauth"] entry is absent or a mapping, and every
    credential whose stored attributes are scalars, the config denotes a
    document after [stash_google_credentials] as well, and that document
    has the document of the credential's record at ["oauth"],
    ["google"]. *)
Theorem stash_keeps_json_compatible w config credentials :
  json_compatible (heap w) config →
  (deref (heap w) config !! "oauth" = None ∨
   ∃ o, deref (heap w) config !! "oauth" = Some (VDict o)) →
  scalar_fields credentials →
  ∃ w1 j1,
    stash_google_credentials config credentials w = (Ok config, w1) ∧
    denotes (heap w1) (VDict config) j1 ∧
    member_at "oauth" j1 ≫= member_at "google"
    = Some (record_document credentials).
Proof.
  intros Hjson Hoauth Hc.
  destruct (stash_denotes w config credentials Hjson Hoauth Hc)
    as (w1 & o & r & j1 & Hrun & Ho & Hg & Hr & Hj1 & _).
  exists w1, j1. split; [done |]. split; [done |].
  by eapply document_has_record.
Qed.

Lemma scalar_fields_intro c :
  scalar (refresh_token c) = true → scalar (token c) = true →
  scalar (client_id c) = true → scalar (client_secret c) = true →
  scalar (token_uri c) = true → scalar_fields c.
Proof.
  intros H1 H2 H3 H4 H5 k v Hk. unfold credential_record in Hk.
  repeat (apply lookup_insert_Some in Hk as [[_ <-] | [_ Hk]]; [done |]).
  by rewrite lookup_empty in Hk.
Qed.

Lemma scalar_fields_some_credentials :
  scalar_fields examples.some_credentials.
Proof. by apply scalar_fields_intro. Qed.

Lemma stash_keeps_json_compatible_witness :
  let w := examples.world_of (examples.with_record examples.full_record) in
  json_compatible (heap w) examples.config ∧
  deref (heap w) examples.config !! "oauth" = Some (VDict 2%positive) ∧
  scalar_fields examples.some_credentials ∧
  ∃ w1 j1,
    stash_google_credentials examples.config examples.some_credentials w
    = (Ok examples.config, w1) ∧
    denotes (heap w1) (VDict examples.config) j1 ∧
    member_at "oauth" j1 ≫= member_at "google"
    = Some (record_document examples.some_credentials).
Proof.
  intros w.
  assert (json_compatible (heap w) examples.config) as Hjson
    by (exists examples.full_document; exact denotes_full_document).
  assert (deref (heap w) examples.config !! "oauth" = Some (VDict 2%positive))
    as Ho by by_evaluation.
  split; [exact Hjson |]. split; [exact Ho |].
  split; [exact scalar_fields_some_credentials |].
  exact (stash_keeps_json_compatible w examples.config
           examples.some_credentials Hjson
           (or_intror (ex_intro _ 2%positive Ho))
           scalar_fields_some_credentials).
Defined.

(** * New credentials *)

(** [get_new_google_credentials] with [save=True], once the flow has given
    a credential. *)
Lemma new_credentials_run env config client_id_path credentials w :
  run_local_server env client_id_path = Ok credentials →
  get_new_google_credentials env config client_id_path true w
  = bind (stash_google_credentials config credentials)
      (λ _, bind (save_config env config) (λ _, ret credentials)) w.
Proof.
  intros Hflow. unfold get_new_google_credentials, lift. rewrite Hflow.
  unfold bind. destruct (stash_google_credentials config credentials w)
    as [[l | e] w1]; [| done].
  by destruct (save_config env config w1) as [[[] | e] w2].
Qed.



(** X19. The credential of the flow is lost to the caller when saving
    fails: when the flow gives a credential and a directory sits at the
    config path, [get_new_google_credentials] with [save=True] raises the
    [RuntimeError] of [save_config] instead of returning the credential;
    the record has been stashed in the config in memory all the same, and
    nothing has been written. *)
Theorem new_credentials_lost_when_save_fails env w config client_id_path
    credentials :
  run_local_server env client_id_path = Ok credentials →
  is_Some (heap w !! config) →
  (deref (heap w) config !! "oauth" = None ∨
   ∃ o, deref (heap w) config !! "oauth" = Some (VDict o) ∧
        is_Some (heap w !! o)) →
  os.stat (fs w) (config_file_place env) = Some Dir →
  ∃ w' w1,
    get_new_google_credentials env config client_id_path true w
    = (Raise (RuntimeError (directory_conflict env)), w') ∧
    stash_google_credentials config credentials w = (Ok config, w1) ∧
    heap w' = heap w1 ∧ fs w' = fs w.
Proof.
  intros Hflow Hc Hoauth Hdir.
  destruct (stash_run_stores w config credentials Hc Hoauth)
    as (w1 & _ & _ & Hstash & _ & _ & _ & Hfs & _).
  rewrite <- Hfs in Hdir.
  eexists _, w1. split; [| split; [exact Hstash |]].
  - rewrite (new_credentials_run _ _ _ _ _ Hflow).
    rewrite (bind_Ok _ _ _ _ _ Hstash).
    by rewrite (bind_Raise _ _ _ _ _ (save_config_conflict _ _ _ Hdir)).
  - done.
Qed.

Lemma new_credentials_lost_when_save_fails_witness :
  let env := granting examples.some_credentials in
  let w := world_with examples.empty_config examples.directory_in_the_way in
  run_local_server env "client_id.json" = Ok examples.some_credentials ∧
  is_Some (heap w !! examples.config) ∧
  deref (heap w) examples.config !! "oauth" = None ∧
  os.stat (fs w) (config_file_place env) = Some Dir ∧
  ∃ w' w1,
    get_new_google_credentials env examples.config "client_id.json" true w
    = (Raise (RuntimeError (directory_conflict env)), w') ∧
    stash_google_credentials examples.config examples.some_credentials w
    = (Ok examples.config, w1) ∧
    heap w' = heap w1 ∧ fs w' = fs w.
Proof.
  intros env w.
  assert (is_Some (heap w !! examples.config)) as Hc
    by (apply (bool_decide_unpack _); by_evaluation).
  assert (deref (heap w) examples.config !! "oauth" = None) as Ho
    by by_evaluation.
  assert (os.stat (fs w) (config_file_place env) = Some Dir) as Hdir
    by by_evaluation.
  split; [reflexivity |]. split; [exact Hc |]. split; [exact Ho |].
  split; [exact Hdir |].
  exact (new_credentials_lost_when_save_fails env w examples.config
           "client_id.json" examples.some_credentials eq_refl Hc
           (or_introl Ho) Hdir).
Defined.

(** * The config directory and the config path, again *)

Lemma mkdir_at_Ok p w w' :
  os.mkdir_at p w = (Ok tt, w') → os.stat (fs w') p = Some Dir.
Proof.
  unfold os.mkdir_at. intros H.
  destruct (os.stat (fs w) p) eqn:Hp; [done |].
  destruct (os.stat (fs w) (os.parent p)) as [[| c] |]; try done.
  injection H as <-. simpl. apply stat_insert_eq. by intros ->.
Qed.

Lemma makedirs_rev_Ok rp w w' :
  os.makedirs_rev rp w = (Ok tt, w') →
  os.stat (fs w') (reverse rp) = Some Dir.
Proof.
  destruct rp as [| t rhead]; simpl; [apply mkdir_at_Ok |].
  intros (_ & w0 & _ & H)%bind_Ok_inv. by apply mkdir_at_Ok in H.
Qed.

(** X2. Whenever [setup_config_dir] returns, whatever the file system was,
    the config directory is there and is a directory. *)
Theorem setup_config_dir_ensures env w w' :
  setup_config_dir env w = (Ok tt, w') →
  os.stat (fs w') (config_dir_place env) = Some Dir.
Proof.
  destruct (os.stat (fs w) (config_dir_place env)) as [[| content] |] eqn:Hs.
  - rewrite (setup_config_dir_present _ _ Hs). by intros [= <-].
  - by rewrite (setup_config_dir_blocked _ _ _ Hs).
  - rewrite (setup_config_dir_missing _ _ Hs).
    intros H%makedirs_rev_Ok. by rewrite reverse_involutive in H.
Qed.

Lemma setup_config_dir_ensures_witness :
  let w := examples.at_home ∅ in
  let w' := (setup_config_dir examples.env w).2 in
  setup_config_dir examples.env w = (Ok tt, w') ∧
  os.stat (fs w') (config_dir_place examples.env) = Some Dir.
Proof.
  intros w w'.
  assert (setup_config_dir examples.env w = (Ok tt, w')) as Hrun
    by (apply (run_result (setup_config_dir examples.env) w); by_evaluation).
  split; [exact Hrun |].
  exact (setup_config_dir_ensures examples.env w w' Hrun).
Defined.

(** X5. Whatever the home directory is, [get_config_path] is the path of
    the config directory followed by [/config.json]: the home directory
    without its trailing slashes (or [~] as it is, when there is no home
    directory to expand it to), then [/.config/gcal-discord-poster], then
    the name of the file; and it leads to the place named [config.json]
    right under the place [setup_config_dir] makes. *)
Theorem config_path_in_config_dir env :
  get_config_path env
  = match HOME env with
    | Some home => os.rstrip_slash home
    | None => "~"
    end +:+ "/.config/gcal-discord-poster/config.json" ∧
  get_config_path env = os.expanduser env CONFIG_DIR +:+ "/config.json" ∧
  os.resolve env (get_config_path env)
  = os.resolve env (os.expanduser env CONFIG_DIR) ++ ["config.json"].
Proof.
  split; [apply get_config_path_eq |]. split.
  - rewrite get_config_path_eq, expanduser_CONFIG_DIR.
    by rewrite append_assoc.
  - apply config_file_in_config_dir.
Qed.


